(** * AgChart: the schema-driven chart factory of
      charts-community-modules/core/src/chart/agChart.ts

    A shallow embedding of [getMapping], [AgChart.create], [AgChart.update]
    and their private helpers, over an explicit JavaScript heap.

    Scope of the model.
    - Values are [undefined], [null], booleans, integers (no fractions, no
      NaN), strings, references to heap objects and opaque host objects
      (such as [document] and [document.body]).
    - A heap object is an object literal, an array, a component instance or
      the result of [Object.create(o)].  Objects carry their own enumerable
      data properties in insertion order; the members inherited from the
      built-in prototypes ([toString], [hasOwnProperty], ...) are not
      modelled; a property lookup follows the prototype links that
      [Object.create] makes.
    - A [for]-[in] loop visits the own keys of an object in insertion
      order, then those of its prototypes.  JavaScript visits the
      integer-like keys of an object first, in ascending order; the model
      agrees with it on objects that have no integer-like key besides the
      indices of an array; on other objects the order of the visits may
      differ.
    - The component classes (CartesianChart, Legend, ...) are not part of
      this file's source: an instance is a bag of properties that remembers
      its class and the arguments its constructor received; the components
      a constructor creates by itself, the [instanceof] relation and the
      table [Legend.defaults] are parameters.
    - The module is strict-mode code: assigning a property on a primitive
      raises a TypeError.
    - Where an execution depends on something outside of this fragment the
      model stops with [Err Unmodelled]. *)

From Stdlib Require Import ZArith String Ascii List Bool Lia DecimalString.
From stdpp Require Import base list strings.
Import ListNotations.

#[local] Set Warnings "-register-all".
Local Open Scope string_scope.
Local Open Scope list_scope.

(** ** Values and the heap *)

Abbreviation loc := nat.
Definition ctor := string.

Inductive value : Type :=
| VUndefined
| VNull
| VBoolean (b : bool)
| VNumber (z : Z)
| VString (s : string)
| VObject (l : loc)
| VHost (name : string).

Definition props := list (string * value).

Inductive object : Type :=
| OPlain (ps : props)
| ODerived (proto : loc) (ps : props)
| OArray (elems : list value) (ps : props)
| OInst (cls : ctor) (args : list value) (ps : props).

Abbreviation heap := (list object).

Fixpoint assoc {A : Type} (k : string) (l : list (string * A)) : option A :=
  match l with
  | [] => None
  | (k', v) :: r => if String.eqb k k' then Some v else assoc k r
  end.

Fixpoint assoc_set (k : string) (v : value) (l : props) : props :=
  match l with
  | [] => [(k, v)]
  | (k', v') :: r =>
      if String.eqb k k' then (k, v) :: r else (k', v') :: assoc_set k v r
  end.

(** JavaScript truthiness. *)
Definition truthy (v : value) : bool :=
  match v with
  | VUndefined | VNull => false
  | VBoolean b => b
  | VNumber z => negb (Z.eqb z 0)
  | VString s => negb (String.eqb s "")
  | VObject _ | VHost _ => true
  end.

(** [value !== undefined] *)
Definition defined (v : value) : bool :=
  match v with VUndefined => false | _ => true end.

(** [typeof v === 'object'] together with [v] being truthy. *)
Definition is_object (v : value) : bool :=
  match v with VObject _ | VHost _ => true | _ => false end.

(** [v === s] for a string [s]. *)
Definition strict_eq_string (v : value) (s : string) : bool :=
  match v with VString s' => String.eqb s' s | _ => false end.

(** Array indices as property keys. *)
Definition index_key (n : nat) : string :=
  NilZero.string_of_uint (Nat.to_uint n).

Definition array_index (k : string) : option nat :=
  match NilZero.uint_of_string k with
  | Some u =>
      let n := Nat.of_uint u in
      if String.eqb (index_key n) k then Some n else None
  | None => None
  end.

Definition own_props (o : object) : props :=
  match o with
  | OPlain ps | ODerived _ ps | OArray _ ps | OInst _ _ ps => ps
  end.

Definition get_own (o : object) (k : string) : option value :=
  match o with
  | OArray elems ps =>
      match array_index k with
      | Some i => elems !! i
      | None =>
          if String.eqb k "length"
          then Some (VNumber (Z.of_nat (length elems)))
          else assoc k ps
      end
  | _ => assoc k (own_props o)
  end.

(** Property lookup along the prototype chain.  [Object.create] allocates
    the new object after its prototype, so a link goes to an older object and
    the location bounds the length of the chain. *)
Fixpoint lookup_chain (h : heap) (n : nat) (l : loc) (k : string) {struct n}
  : option value :=
  match h !! l with
  | None => None
  | Some o =>
      match get_own o k with
      | Some v => Some v
      | None =>
          match o, n with
          | ODerived p _, S n' =>
              if Nat.ltb p l then lookup_chain h n' p k else None
          | _, _ => None
          end
      end
  end.

Definition get_in (h : heap) (l : loc) (k : string) : value :=
  default VUndefined (lookup_chain h l l k).

Definition has_in (h : heap) (l : loc) (k : string) : bool :=
  match lookup_chain h l l k with Some _ => true | None => false end.

(** The class of an instance, or of an object derived from one. *)
Fixpoint class_chain (h : heap) (n : nat) (l : loc) {struct n} : option ctor :=
  match h !! l with
  | Some (OInst c _ _) => Some c
  | Some (ODerived p _) =>
      match n with
      | S n' => if Nat.ltb p l then class_chain h n' p else None
      | 0 => None
      end
  | _ => None
  end.

Definition class_of (h : heap) (l : loc) : option ctor := class_chain h l l.

Definition set_own (o : object) (k : string) (x : value) : option object :=
  match o with
  | OPlain ps => Some (OPlain (assoc_set k x ps))
  | ODerived p ps => Some (ODerived p (assoc_set k x ps))
  | OInst c args ps => Some (OInst c args (assoc_set k x ps))
  | OArray elems ps =>
      match array_index k with
      | Some i =>
          if Nat.ltb i (length elems)
          then Some (OArray (<[i:=x]> elems) ps)
          else Some (OArray (elems ++ replicate (i - length elems) VUndefined ++ [x]) ps)
      | None =>
          if String.eqb k "length" then None
          else Some (OArray elems (assoc_set k x ps))
      end
  end.

Definition own_keys (o : object) : list string :=
  match o with
  | OArray elems ps => map index_key (seq 0 (length elems)) ++ map fst ps
  | _ => map fst (own_props o)
  end.

(** A list of keys without its repetitions; a key stays where it comes
    first. *)
Fixpoint dedup (l : list string) : list string :=
  match l with
  | [] => []
  | x :: r => x :: List.filter (fun y => negb (String.eqb y x)) (dedup r)
  end.

Fixpoint keys_chain (h : heap) (n : nat) (l : loc) {struct n} : list string :=
  match h !! l with
  | None => []
  | Some o =>
      own_keys o ++
      match o, n with
      | ODerived p _, S n' => if Nat.ltb p l then keys_chain h n' p else []
      | _, _ => []
      end
  end.

(** The keys a [for (const key in o)] loop visits: own keys first, then the
    keys of the prototypes that are not shadowed; no key twice. *)
Definition keys_in (h : heap) (l : loc) : list string :=
  dedup (keys_chain h l l).

(** Properties of a primitive string: its characters and its length. *)
Definition string_prop (s : string) (k : string) : value :=
  match array_index k with
  | Some i =>
      match String.get i s with
      | Some c => VString (String c EmptyString)
      | None => VUndefined
      end
  | None =>
      if String.eqb k "length" then VNumber (Z.of_nat (String.length s))
      else VUndefined
  end.

(** ** The execution monad: a heap, and a result or an exception *)

Inductive error : Type := TypeError | Unmodelled | OutOfFuel.

Inductive outcome (A : Type) : Type :=
| Ret (a : A)
| Err (e : error).
Arguments Ret {A} a.
Arguments Err {A} e.

Definition M (A : Type) : Type := heap -> outcome A * heap.

Definition ret {A : Type} (a : A) : M A := fun h => (Ret a, h).
Definition throw {A : Type} (e : error) : M A := fun h => (Err e, h).
Definition bind {A B : Type} (m : M A) (f : A -> M B) : M B :=
  fun h =>
    match m h with
    | (Ret a, h') => f a h'
    | (Err e, h') => (Err e, h')
    end.
Definition lift {A : Type} (o : outcome A) : M A := fun h => (o, h).

Notation "'let*' x ':=' m 'in' k" := (bind m (fun x => k))
  (at level 10, x name, m at level 100, k at level 200).
Notation "m '>>' k" := (bind m (fun _ => k))
  (at level 100, k at level 200, right associativity).

Fixpoint for_each {A : Type} (l : list A) (body : A -> M unit) : M unit :=
  match l with
  | [] => ret tt
  | x :: r => body x >> for_each r body
  end.

Definition alloc (o : object) : M value :=
  fun h => (Ret (VObject (length h)), h ++ [o]).

(** [v[k]] *)
Definition read (h : heap) (v : value) (k : string) : outcome value :=
  match v with
  | VUndefined | VNull => Err TypeError
  | VBoolean _ | VNumber _ => Ret VUndefined
  | VString s => Ret (string_prop s k)
  | VObject l => Ret (get_in h l k)
  | VHost _ => Err Unmodelled
  end.

Definition get_prop (v : value) (k : string) : M value :=
  fun h => (read h v k, h).

(** [k in v] *)
Definition has (h : heap) (k : string) (v : value) : outcome bool :=
  match v with
  | VObject l => Ret (has_in h l k)
  | VHost _ => Err Unmodelled
  | _ => Err TypeError
  end.

Definition has_prop (k : string) (v : value) : M bool :=
  fun h => (has h k v, h).

(** [v[k] = x] *)
Definition set_prop (v : value) (k : string) (x : value) : M unit :=
  match v with
  | VObject l =>
      fun h =>
        match h !! l with
        | Some o =>
            match set_own o k x with
            | Some o' => (Ret tt, <[l:=o']> h)
            | None => (Err Unmodelled, h)
            end
        | None => (Err Unmodelled, h)
        end
  | VHost _ => throw Unmodelled
  | _ => throw TypeError
  end.

(** The keys of [for (const key in v)]. *)
Definition forin_keys (v : value) : M (list string) :=
  match v with
  | VObject l => fun h => (Ret (keys_in h l), h)
  | VHost _ => throw Unmodelled
  | VString s => ret (map index_key (seq 0 (String.length s)))
  | _ => ret []
  end.

(** [Array.isArray(v)] *)
Definition is_array (v : value) : M bool :=
  fun h =>
    match v with
    | VObject l =>
        match h !! l with
        | Some (OArray _ _) => (Ret true, h)
        | _ => (Ret false, h)
        end
    | _ => (Ret false, h)
    end.

Definition array_elems (v : value) : M (list value) :=
  fun h =>
    match v with
    | VObject l =>
        match h !! l with
        | Some (OArray elems _) => (Ret elems, h)
        | _ => (Err TypeError, h)
        end
    | _ => (Err TypeError, h)
    end.

(** String conversion, as in [path + '.' + options.type].  An integer is
    written in decimal below 10^21; from there on JavaScript writes an
    exponent, which is not modelled. *)
Definition to_string (v : value) : M string :=
  match v with
  | VString s => ret s
  | VNumber z =>
      if Z.ltb (Z.abs z) 1000000000000000000000
      then ret (NilZero.string_of_int (Z.to_int z))
      else throw Unmodelled
  | VBoolean true => ret "true"
  | VBoolean false => ret "false"
  | VUndefined => ret "undefined"
  | VNull => ret "null"
  | VObject _ | VHost _ => throw Unmodelled
  end.

(** [Object.create(v)] *)
Definition object_create (v : value) : M value :=
  match v with
  | VObject l => alloc (ODerived l [])
  | VNull => alloc (OPlain [])
  | VHost _ => throw Unmodelled
  | _ => throw TypeError
  end.

(** ** The schema registry: the constant [mappings] *)

(** The registry is a nested object literal.  Its values are constructor
    functions, arrays of strings (constructorParams, exclude), the table of
    defaults, and nested object literals. *)
Inductive mapping : Type :=
| MFunction (c : ctor)
| MStrings (l : list string)
| MDefaults (d : props)
| MObject (fields : list (string * mapping)).

(** The default axes of a cartesian chart are objects of the module: one
    array and two object literals, made once when the module is loaded and
    shared by reference by every chart built afterwards. *)
Definition default_axes : loc := 0.
Definition module_heap : heap :=
  [ OArray [VObject 1; VObject 2] [];
    OPlain [("type", VString "category"); ("position", VString "bottom")];
    OPlain [("type", VString "number"); ("position", VString "left")] ].

Definition mappings : mapping :=
  MObject
    [ ("cartesian", MObject
        [ ("constructor", MFunction "CartesianChart");
          ("constructorParams", MStrings ["document"]);
          ("exclude", MStrings ["parent"; "data"]);
          ("defaults", MDefaults [("axes", VObject default_axes)]);
          ("padding", MObject [("constructor", MFunction "Padding")]);
          ("title", MObject [("constructor", MFunction "Caption")]);
          ("subtitle", MObject [("constructor", MFunction "Caption")]);
          ("axes", MObject
            [ ("number", MObject
                [ ("constructor", MFunction "NumberAxis");
                  ("label", MObject []);
                  ("tick", MObject []) ]);
              ("category", MObject
                [ ("constructor", MFunction "CategoryAxis");
                  ("label", MObject []);
                  ("tick", MObject []) ]) ]);
          ("series", MObject
            [ ("line", MObject
                [ ("constructor", MFunction "LineSeries");
                  ("marker", MObject []) ]);
              ("column", MObject [("constructor", MFunction "ColumnSeries")]);
              ("bar", MObject [("constructor", MFunction "BarSeries")]);
              ("scatter", MObject
                [ ("constructor", MFunction "ScatterSeries");
                  ("marker", MObject []) ]);
              ("area", MObject
                [ ("constructor", MFunction "AreaSeries");
                  ("marker", MObject []) ]) ]);
          ("legend", MObject [("constructor", MFunction "Legend")]) ]);
      ("polar", MObject
        [ ("constructor", MFunction "PolarChart");
          ("constructorParams", MStrings ["document"]);
          ("defaults", MDefaults [("parent", VHost "document.body")]);
          ("series", MObject
            [ ("pie", MObject [("constructor", MFunction "PieSeries")]) ]);
          ("legend", MObject [("constructor", MFunction "Legend")]) ]) ].

(** The names every object literal inherits from [Object.prototype]. *)
Definition builtin_name (k : string) : bool :=
  existsb (String.eqb k)
    [ "constructor"; "__proto__"; "hasOwnProperty"; "isPrototypeOf";
      "propertyIsEnumerable"; "toLocaleString"; "toString"; "valueOf";
      "__defineGetter__"; "__defineSetter__"; "__lookupGetter__";
      "__lookupSetter__" ].

(** [path.split('.')] *)
Fixpoint split_dot (cur : string) (s : string) : list string :=
  match s with
  | EmptyString => [cur]
  | String c r =>
      if Ascii.eqb c "." then cur :: split_dot "" r
      else split_dot (String.append cur (String c EmptyString)) r
  end.

(** [value[part]] on a registry value; [None] is [undefined]. *)
Definition index_mapping (m : option mapping) (part : string)
  : outcome (option mapping) :=
  match m with
  | None => Err TypeError
  | Some (MObject fields) =>
      match assoc part fields with
      | Some x => Ret (Some x)
      | None => if builtin_name part then Err Unmodelled else Ret None
      end
  | Some _ => Err Unmodelled
  end.

Definition getMapping (path : string) : outcome (option mapping) :=
  fold_left
    (fun acc part =>
       match acc with
       | Ret m => index_mapping m part
       | Err e => Err e
       end)
    (split_dot "" path) (Ret (Some mappings)).

(** ** Type inference and defaults *)

Definition series_types (m : mapping) : list string :=
  match m with
  | MObject fs =>
      match assoc "series" fs with
      | Some (MObject ss) => map fst ss
      | _ => []
      end
  | _ => []
  end.

Definition chart_types : list (string * mapping) :=
  match mappings with MObject fs => fs | _ => [] end.

(** The two nested loops of [setChartType]: the first chart type that has a
    series type strictly equal to [t]. *)
Definition find_chart_type (t : value) : option string :=
  fst <$> find (fun cm => existsb (strict_eq_string t) (series_types (snd cm)))
               chart_types.

Definition setChartType (options : value) : M unit :=
  let* t := get_prop options "type" in
  if truthy t then ret tt else
  let* sv := get_prop options "series" in
  let* series := (if truthy sv then get_prop sv "0" else ret sv) in
  let* st := (if truthy series then get_prop series "type" else ret series) in
  (if truthy st then
     match find_chart_type st with
     | Some chartType => set_prop options "type" (VString chartType)
     | None => ret tt
     end
   else ret tt) >>
  let* t' := get_prop options "type" in
  if truthy t' then ret tt else set_prop options "type" (VString "cartesian").

(** [!path] for an optional string. *)
Definition path_falsy (path : option string) : bool :=
  match path with
  | None => true
  | Some p => String.eqb p ""
  end.

Definition path_is (path : option string) (s : string) : bool :=
  match path with
  | None => false
  | Some p => String.eqb p s
  end.

Definition default_type (options : value) (t : string) : M unit :=
  let* cur := get_prop options "type" in
  if truthy cur then ret tt else set_prop options "type" (VString t).

Definition setComponentType (options : value) (path : option string) : M unit :=
  (if path_falsy path then setChartType options else ret tt) >>
  (if path_is path "cartesian.series" then default_type options "line" else ret tt) >>
  (if path_is path "polar.series" then default_type options "pie" else ret tt).

Definition merge_default (options : value) (d : props) (key : string) : M unit :=
  let* cur := get_prop options key in
  if truthy cur then ret tt
  else set_prop options key (default VUndefined (assoc key d)).

Definition setComponentDefaults (options : value) (fields : list (string * mapping))
  : M unit :=
  match assoc "defaults" fields with
  | None => ret tt
  | Some (MDefaults d) =>
      for_each (dedup (map fst d)) (merge_default options d)
  | Some _ => throw Unmodelled
  end.

(** [path + '.' + s] *)
Definition dot (path s : string) : string :=
  String.append path (String.append "." s).

(** The path of the descriptor, computed at the head of [_create] and of
    [_update]. *)
Definition resolve_path (path : option string) (t : value) : M string :=
  if path_falsy path then
    match t with
    | VString s => ret s
    | VHost _ => throw Unmodelled
    | _ => throw TypeError
    end
  else
    let p := default "" path in
    if truthy t then (let* s := to_string t in ret (dot p s)) else ret p.

(** [mapping.constructorParams || []] *)
Definition constructorParams (fields : list (string * mapping)) : M (list string) :=
  match assoc "constructorParams" fields with
  | None => ret []
  | Some (MStrings l) => ret l
  | Some _ => throw Unmodelled
  end.

(** [mapping.exclude && mapping.exclude.indexOf(key) >= 0] *)
Definition excluded (fields : list (string * mapping)) (key : string) : M bool :=
  match assoc "exclude" fields with
  | None => ret false
  | Some (MStrings l) => ret (existsb (String.eqb key) l)
  | Some _ => throw Unmodelled
  end.

(** [key in mapping] *)
Definition key_in_mapping (key : string) (fields : list (string * mapping)) : M bool :=
  match assoc key fields with
  | Some _ => if builtin_name key then throw Unmodelled else ret true
  | None => if builtin_name key then throw Unmodelled else ret false
  end.

(** [constructorParams.map(param => options[param]).filter(value => value !== undefined)] *)
Fixpoint read_params (options : value) (params : list string) : M (list value) :=
  match params with
  | [] => ret []
  | p :: r =>
      let* v := get_prop options p in
      let* vs := read_params options r in
      ret (if defined v then v :: vs else vs)
  end.

(** ** The component classes, as far as the factory can see them *)

(** Modelled from the spec: the component classes are not in this file's
    source.  "A chart's auto-created legend": a chart constructor creates its
    legend; the other constructors create nothing the factory looks at. *)
Definition chart_components (c : ctor) : list (string * ctor) :=
  if String.eqb c "CartesianChart" || String.eqb c "PolarChart"
  then [("legend", "Legend")] else [].

(** Modelled from the spec: "the existing instance's kind matches the
    descriptor's factory output kind", for classes none of which extends
    another. *)
Definition same_class (cls c : ctor) : bool := String.eqb cls c.

(** A table of legend options, standing for [Legend.defaults] in examples. *)
Definition sample_legend_defaults : props :=
  [ ("enabled", VBoolean true); ("position", VString "bottom");
    ("padding", VNumber 20) ].

Section Engine.

(** What a constructor creates by itself: property name and class of each
    nested component. *)
Variable components : ctor -> list (string * ctor).
(** [x instanceof C] for an instance [x] of class [cls]. *)
Variable instance_of : ctor -> ctor -> bool.
(** [Legend.defaults] *)
Variable Legend_defaults : props.

(** [new C(...args)] *)
Definition new_instance (c : ctor) (args : list value) : M value :=
  fun h =>
    let subs := components c in
    let base := length h in
    (Ret (VObject (base + length subs)),
     h ++ map (fun nc => OInst (snd nc) [] []) subs
       ++ [OInst c args (imap (fun i nc => (fst nc, VObject (base + i))) subs)]).

(** [new mapping.constructor(...constructorParamValues)]; an object literal
    without a [constructor] of its own inherits [Object]. *)
Definition construct (fields : list (string * mapping)) (args : list value)
  : M value :=
  match assoc "constructor" fields with
  | Some (MFunction c) => new_instance c args
  | None =>
      match args with
      | [] => alloc (OPlain [])
      | _ => throw Unmodelled
      end
  | Some _ => throw TypeError
  end.

Section Body.

(** The recursive call [AgChart._create(options, path, component)]. *)
Variable rec : value -> option string -> value -> M value.

(** [value.map(config => AgChart._create(config, path + '.' + key)).filter(config => !!config)] *)
Fixpoint map_create (elems : list value) (path : string) : M (list value) :=
  match elems with
  | [] => ret []
  | config :: r =>
      let* sub := rec config (Some path) VUndefined in
      let* subs := map_create r path in
      ret (if truthy sub then sub :: subs else subs)
  end.

(** The body of the loop [for (const key in options)]. *)
Definition process_key (fields : list (string * mapping)) (path : string)
    (params : list string) (options component : value) (key : string) : M unit :=
  if String.eqb key "type" || existsb (String.eqb key) params then ret tt else
  let* value := get_prop options key in
  let* known := key_in_mapping key fields in
  let* excl := (if known then excluded fields key else ret false) in
  if known && negb excl then
    let* arr := is_array value in
    if arr then
      let* elems := array_elems value in
      let* subComponents := map_create elems (dot path key) in
      let* a := alloc (OArray subComponents []) in
      set_prop component key a
    else
      let* existing := get_prop component key in
      if truthy existing then
        rec value (Some (dot path key)) existing >> ret tt
      else
        let* t := get_prop value "type" in
        let* subComponent :=
          rec value (Some (if truthy t then path else dot path key)) VUndefined in
        if truthy subComponent then set_prop component key subComponent
        else ret tt
  else set_prop component key value.

Definition create_body (options : value) (path : option string) (component : value)
  : M value :=
  if negb (is_object options) then ret VUndefined else
  setComponentType options path >>
  let* t := get_prop options "type" in
  let* path := resolve_path path t in
  let* mapping := lift (getMapping path) in
  match mapping with
  | None => ret VUndefined
  | Some (MObject fields) =>
      setComponentDefaults options fields >>
      let* params := constructorParams fields in
      let* constructorParamValues := read_params options params in
      let* component :=
        (if truthy component then ret component
         else construct fields constructorParamValues) in
      let* keys := forin_keys options in
      for_each keys (process_key fields path params options component) >>
      ret component
  | Some _ => throw Unmodelled
  end.

End Body.

(** [AgChart._create]; the recursion follows the configuration, which lives
    in the heap, so it is bounded by [fuel]. *)
Fixpoint _create (fuel : nat) : value -> option string -> value -> M value :=
  match fuel with
  | 0 => fun _ _ _ => throw OutOfFuel
  | S n => create_body (_create n)
  end.

(** [AgChart.create(options)] *)
Definition create (fuel : nat) (options : value) : M value :=
  let* copy := object_create options in
  _create fuel copy None VUndefined.

(** [component instanceof mapping.constructor] *)
Definition instanceof (component : value) (fields : list (string * mapping))
  : M bool :=
  match assoc "constructor" fields with
  | Some (MFunction c) =>
      fun h =>
        match component with
        | VObject l =>
            match class_of h l with
            | Some cls => (Ret (instance_of cls c), h)
            | None => (Ret false, h)
            end
        | _ => (Ret false, h)
        end
  | None => ret (is_object component)
  | Some _ => throw TypeError
  end.

(** One turn of the loop [for (const key in Legend.defaults)]. *)
Definition update_legend_key (component options : value) (key : string) : M unit :=
  let* optLegend := get_prop options "legend" in
  let* present := has_prop key optLegend in
  let* legend := get_prop component "legend" in
  if present then
    let* optLegend' := get_prop options "legend" in
    let* v := get_prop optLegend' key in
    set_prop legend key v
  else
    set_prop legend key (default VUndefined (assoc key Legend_defaults)).

(** [AgChart._update] *)
Definition _update (component options : value) (path : option string) : M unit :=
  if negb (is_object options) then ret tt else
  setComponentType options path >>
  let* t := get_prop options "type" in
  let* path := resolve_path path t in
  let* mapping := lift (getMapping path) in
  let* proceed :=
    match mapping with
    | None => ret true
    | Some (MObject fields) =>
        let* ok := instanceof component fields in
        if ok then setComponentDefaults options fields >> ret true
        else ret false
    | Some _ => throw Unmodelled
    end in
  if proceed then
    let* optLegend := get_prop options "legend" in
    if truthy optLegend then
      for_each (dedup (map fst Legend_defaults))
               (update_legend_key component options)
    else ret tt
  else ret tt.

(** [AgChart.update(chart, options)] *)
Definition update (chart options : value) : M unit :=
  let* copy := object_create options in
  _update chart copy None.

End Engine.

(** ** Well-formed heaps: every reference is allocated *)

Definition val_ok (n : nat) (v : value) : bool :=
  match v with
  | VObject l => Nat.ltb l n
  | _ => true
  end.

Definition obj_values (o : object) : list value :=
  match o with
  | OPlain ps => map snd ps
  | ODerived p ps => VObject p :: map snd ps
  | OArray elems ps => elems ++ map snd ps
  | OInst _ args ps => args ++ map snd ps
  end.

Definition obj_ok (n : nat) (o : object) : bool :=
  forallb (val_ok n) (obj_values o).

Definition closed (h : heap) : bool := forallb (obj_ok (length h)) h.

(** ** The inference rule of the root type, in the words of the
       specification *)

(** The series kinds registered under a top-level chart kind. *)
Definition series_kinds (c : string) : list string :=
  match assoc c chart_types with
  | Some m => series_types m
  | None => []
  end.

(** [t] is a series kind registered under the chart kind [c]. *)
Definition registered (c : string) (t : value) : Prop :=
  exists s, t = VString s /\ In s (series_kinds c).

(** The kind [setChartType] settles on for a first series type [t]. *)
Definition infer_kind (t : value) : string :=
  default "cartesian" (find_chart_type t).

Definition obind {A B : Type} (o : outcome A) (f : A -> outcome B) : outcome B :=
  match o with
  | Ret a => f a
  | Err e => Err e
  end.

(** The type of the first element under [series]:
    [options.series && options.series[0]], then [series && series.type]. *)
Definition first_series_type (h : heap) (options : value) : outcome value :=
  obind (read h options "series") (fun sv =>
  obind (if truthy sv then read h sv "0" else Ret sv) (fun first =>
  if truthy first then read h first "type" else Ret first)).

(** The type of a root configuration once [setChartType] has run. *)
Definition chart_type (h : heap) (options : value) : outcome value :=
  obind (read h options "type") (fun t =>
  if truthy t then Ret t
  else obind (first_series_type h options) (fun st =>
       Ret (VString (infer_kind st)))).

(** The shape of an object that property assignment never changes: what it
    is, its prototype, its class and the arguments of its constructor. *)
Inductive shape : Type :=
| SPlain
| SDerived (proto : loc)
| SArray
| SInst (cls : ctor) (args : list value).

Definition shape_of (o : object) : shape :=
  match o with
  | OPlain _ => SPlain
  | ODerived p _ => SDerived p
  | OArray _ _ => SArray
  | OInst c args _ => SInst c args
  end.

Definition is_array_object (o : object) : bool :=
  match o with OArray _ _ => true | _ => false end.

(** [touches v h h']: going from [h] to [h'], only the object [v] refers to
    was assigned to (if [v] is a reference at all), and nothing was
    allocated. *)
Definition touches (v : value) (h h' : heap) : Prop :=
  length h' = length h /\
  (forall j, v <> VObject j -> h' !! j = h !! j) /\
  (forall j o, h !! j = Some o ->
     exists o', h' !! j = Some o' /\ shape_of o' = shape_of o).

(** Every run of [m] relates the heap before to the heap after by [R],
    whether it returns or raises. *)
Definition preserves {A : Type} (R : heap -> heap -> Prop) (m : M A) : Prop :=
  forall h r h', m h = (r, h') -> R h h'.

(** A check on every object literal of the registry. *)
Fixpoint all_nodes (P : list (string * mapping) -> bool) (m : mapping) : bool :=
  match m with
  | MObject fs => P fs && forallb (fun f => all_nodes P (snd f)) fs
  | _ => true
  end.

(** The defaults of a descriptor, if it has any, are a table that does not
    mention [legend]. *)
Definition defaults_ok (fields : list (string * mapping)) : bool :=
  match assoc "defaults" fields with
  | None => true
  | Some (MDefaults d) => negb (existsb (String.eqb "legend") (map fst d))
  | Some _ => false
  end.

(** [legend_frame ch o c lg h h']: if the chart at [ch] is [o] in [h], it
    still is in [h'], and so is every object except the protective copy [c]
    and the object [lg] refers to. *)
Definition legend_frame (ch : loc) (o : object) (c : loc) (lg : value)
    (h h' : heap) : Prop :=
  h !! ch = Some o ->
  h' !! ch = Some o /\
  forall j, j <> c -> lg <> VObject j -> h' !! j = h !! j.

(** What the legend loop of [update] leaves under [key]: the option of the
    configuration's legend [ol] when it has one, else the default. *)
Definition legend_value (Legend_defaults : props) (h : heap) (ol : loc)
    (key : string) : value :=
  if has_in h ol key then get_in h ol key
  else default VUndefined (assoc key Legend_defaults).

(** The objects the legend loop works with: the chart, the protective copy,
    the configuration, and a legend that is a component instance. *)
Definition legend_state (ch lg c cfg : loc) (chart copy config : object)
    (h : heap) : Prop :=
  h !! ch = Some chart /\ h !! c = Some copy /\ h !! cfg = Some config /\
  exists lcls largs lps, h !! lg = Some (OInst lcls largs lps).

(** A value that is not a reference to an object of the region [T]. *)
Definition outside (T : loc -> Prop) (v : value) : Prop :=
  forall l, v = VObject l -> ~ T l.

(** The invariant of a run that keeps away from the region [T]: the objects
    of [T] are allocated, no object outside [T] holds a reference into [T],
    and the heap satisfies [Inv]. *)
Definition guards (T : loc -> Prop) (Inv : heap -> Prop) (h : heap) : Prop :=
  (forall l, T l -> l < length h) /\
  (forall l o v, h !! l = Some o -> ~ T l -> In v (obj_values o) -> outside T v) /\
  Inv h.

(** [Inv] only speaks of the objects of [T]. *)
Definition framed (T : loc -> Prop) (Inv : heap -> Prop) : Prop :=
  forall h h', Inv h -> (forall l, T l -> h' !! l = h !! l) -> Inv h'.

(** [safe T Inv m post]: a run of [m] from a heap that guards [T] ends in a
    heap that guards [T]; what it returns satisfies [post]. *)
Definition safe {A : Type} (T : loc -> Prop) (Inv : heap -> Prop) (m : M A)
    (post : A -> Prop) : Prop :=
  forall h r h', guards T Inv h -> m h = (r, h') ->
    guards T Inv h' /\ match r with Ret a => post a | Err _ => True end.

(** The values of a table of defaults are module objects or host objects. *)
Definition defaults_values_ok (fields : list (string * mapping)) : bool :=
  match assoc "defaults" fields with
  | Some (MDefaults d) =>
      forallb (fun v => match v with
                        | VObject l => Nat.eqb l default_axes
                        | _ => true
                        end) (map snd d)
  | _ => true
  end.

(** The constructor parameters of a descriptor; none of them is [type] or a
    key of the descriptor's defaults. *)
Definition params_of (fields : list (string * mapping)) : list string :=
  match assoc "constructorParams" fields with
  | Some (MStrings l) => l
  | _ => []
  end.

Definition defaults_keys (fields : list (string * mapping)) : list string :=
  match assoc "defaults" fields with
  | Some (MDefaults d) => map fst d
  | _ => []
  end.

Definition params_ok (fields : list (string * mapping)) : bool :=
  forallb (fun p => negb (String.eqb p "type") &&
                    negb (existsb (String.eqb p) (defaults_keys fields)))
          (params_of fields) &&
  match assoc "constructorParams" fields with
  | None | Some (MStrings _) => true
  | Some _ => false
  end.

(** The recursive call keeps away from [T] when neither the configuration
    nor the component it is given is in [T]. *)
Definition rec_safe (T : loc -> Prop) (Inv : heap -> Prop)
    (rec : value -> option string -> value -> M value) : Prop :=
  forall options path component,
    outside T options -> outside T component ->
    safe T Inv (rec options path component) (outside T).

(** What [new mapping.constructor(...args)] makes: an instance of the
    descriptor's class that remembers [args], or a plain object when the
    descriptor has no constructor of its own. *)
Definition constructed_shape (fields : list (string * mapping)) (args : list value)
  : shape :=
  match assoc "constructor" fields with
  | Some (MFunction cls) => SInst cls args
  | _ => SPlain
  end.

(** The properties the constructor of a descriptor sets by itself. *)
Definition auto_names (components : ctor -> list (string * ctor))
    (fields : list (string * mapping)) : list string :=
  match assoc "constructor" fields with
  | Some (MFunction cls) => map fst (components cls)
  | _ => []
  end.

(** Every reference held in the heap is below [n]. *)
Definition all_below (n : nat) (h : heap) : Prop :=
  forall l o v, h !! l = Some o -> In v (obj_values o) -> val_ok n v = true.

(** The module's default axes are in the heap, as the module made them. *)
Definition module_loaded (h : heap) : Prop :=
  h !! 0 = Some (OArray [VObject 1; VObject 2] []) /\
  h !! 1 = Some (OPlain [("type", VString "category"); ("position", VString "bottom")]) /\
  h !! 2 = Some (OPlain [("type", VString "number"); ("position", VString "left")]).

(** The heap after [new cls(...args)], the new instance having then been
    assigned the properties that turn its initial ones into
    [assigned initial]. *)
Definition instance_heap (components : ctor -> list (string * ctor)) (h : heap)
    (cls : ctor) (args : list value) (assigned : props -> props) : heap :=
  (h ++ map (fun nc => OInst (snd nc) [] []) (components cls)) ++
  [OInst cls args
     (assigned (imap (fun i nc => (fst nc, VObject (length h + i))) (components cls)))].

(** The location of the instance in [instance_heap]. *)
Definition instance_loc (components : ctor -> list (string * ctor)) (h : heap)
    (cls : ctor) : loc :=
  length h + length (components cls).

(** An array element that resolves to no descriptor under [path]: its type
    is a non-empty string that is not registered there. *)
Definition unresolved (h : heap) (path : string) (v : value) : Prop :=
  exists e t,
    v = VObject e /\ get_in h e "type" = VString t /\ t <> "" /\
    getMapping (dot path t) = Ret None.

(** An axis configuration [{ type: t, position: pos }] of a registered axis
    type, and the class registered for it. *)
Definition axis_config (h : heap) (v : value) (a : ctor * value) : Prop :=
  exists i t,
    v = VObject i /\
    h !! i = Some (OPlain [("type", VString t); ("position", snd a)]) /\
    ((t = "category" /\ fst a = "CategoryAxis") \/
     (t = "number" /\ fst a = "NumberAxis")).

(** The heap after making one axis per entry of [axs], in order, and the
    references to these axes. *)
Fixpoint axes_heap (components : ctor -> list (string * ctor)) (h : heap)
    (axs : list (ctor * value)) : heap :=
  match axs with
  | [] => h
  | a :: r =>
      axes_heap components
        (instance_heap components h (fst a) [] (assoc_set "position" (snd a))) r
  end.

Fixpoint axes_locs (components : ctor -> list (string * ctor)) (h : heap)
    (axs : list (ctor * value)) : list value :=
  match axs with
  | [] => []
  | a :: r =>
      VObject (instance_loc components h (fst a)) ::
      axes_locs components
        (instance_heap components h (fst a) [] (assoc_set "position" (snd a))) r
  end.

(** [v] refers to an axis of class [fst a] whose position is [snd a]. *)
Definition axis_built (h : heap) (v : value) (a : ctor * value) : Prop :=
  exists l ps,
    v = VObject l /\ h !! l = Some (OInst (fst a) [] ps) /\
    assoc "position" ps = Some (snd a).

(** The two axes of the module's defaults. *)
Definition default_axes_spec : list (ctor * value) :=
  [ ("CategoryAxis", VString "bottom"); ("NumberAxis", VString "left") ].

(** What the defaults merge adds to the protective copy of a cartesian
    configuration with own properties [cps]. *)
Definition merged_axes (cps : props) : props :=
  if truthy (default VUndefined (assoc "axes" cps)) then []
  else [("axes", VObject default_axes)].

(** ** Words for the further properties of the module *)

(** One step of the walk of [getMapping] along the segments of a path. *)
Definition descend (acc : outcome (option mapping)) (part : string)
  : outcome (option mapping) :=
  match acc with
  | Ret m => index_mapping m part
  | Err e => Err e
  end.

(** A name without a dot. *)
Fixpoint no_dot (s : string) : bool :=
  match s with
  | EmptyString => true
  | String c r => negb (Ascii.eqb c ".") && no_dot r
  end.

(** No table of defaults has a default for [type]. *)
Definition defaults_typeless (fields : list (string * mapping)) : bool :=
  negb (existsb (String.eqb "type") (defaults_keys fields)).

(** ** The chart kind that [create] adopts *)




(** What [_create] keeps of a heap: the objects and what they are, the
    truthy types; a falsy type stays falsy or becomes a default type, one
    of [D]. *)
Definition types_kept (D : string -> Prop) (h h' : heap) : Prop :=
  length h <= length h' /\
  (forall l o, h !! l = Some o ->
     exists o', h' !! l = Some o' /\ shape_of o' = shape_of o) /\
  (forall l, l < length h ->
     (truthy (get_in h l "type") = true ->
      get_in h' l "type" = get_in h l "type") /\
     (truthy (get_in h l "type") = false ->
      truthy (get_in h' l "type") = false \/
      exists d, D d /\ get_in h' l "type" = VString d)).



(** ** Heaps that stay closed *)

(** The module's default axes are allocated and every reference held in
    the heap is allocated. *)
Definition well_formed (h : heap) : Prop :=
  default_axes < length h /\ all_below (length h) h.

(** A run of [m] from a well-formed heap in which the values [pre] are
    allocated ends in a well-formed heap, no smaller, in which the values
    [post] of the result are allocated. *)
Definition keeps_closed {A : Type} (pre : list value) (m : M A)
    (post : A -> list value) : Prop :=
  forall h r h',
    well_formed h -> Forall (fun v => val_ok (length h) v = true) pre ->
    m h = (r, h') ->
    length h <= length h' /\ well_formed h' /\
    match r with
    | Ret a => Forall (fun v => val_ok (length h') v = true) (post a)
    | Err _ => True
    end.

(** A value that is no reference. *)
Definition primitive (v : value) : Prop := forall l, v <> VObject l.

(** The root configuration [cfg] is a plain object that no object refers
    to, and under [key] it has the array [a], which nothing else refers
    to. *)
Definition array_tree (h : heap) (cfg : loc) (key : string) (a : loc) : Prop :=
  cfg <> default_axes /\ a <> default_axes /\
  (forall l o, h !! l = Some o -> ~ In (VObject cfg) (obj_values o)) /\
  (forall l o, h !! l = Some o -> In (VObject a) (obj_values o) -> l = cfg) /\
  exists ps,
    h !! cfg = Some (OPlain ps) /\ assoc key ps = Some (VObject a) /\
    (forall k v, In (k, v) ps -> v = VObject a -> k = key).

(** The recursive call keeps the heap closed. *)
Definition rec_closed (rec : value -> option string -> value -> M value) : Prop :=
  forall pre options path component,
    (In options pre \/ primitive options) ->
    (In component pre \/ primitive component) ->
    keeps_closed pre (rec options path component) (fun v => [v]).

(** The recursive call keeps the relation [R] between the heaps, on the
    paths of [P]. *)
Definition rec_kept (R : heap -> heap -> Prop) (P : string -> Prop)
    (rec : value -> option string -> value -> M value) : Prop :=
  forall options p component, P p -> preserves R (rec options (Some p) component).

(** ** Configurations and charts used in the examples *)

(** The fields of the descriptor registered under a path. *)
Definition descriptor_fields (path : string) : list (string * mapping) :=
  match getMapping path with
  | Ret (Some (MObject fs)) => fs
  | _ => []
  end.

(** [{ series: [{}] }] at location 5; the series element is at location 3. *)
Definition untyped_series_heap : heap :=
  module_heap ++
  [ OPlain []; OArray [VObject 3] []; OPlain [("series", VObject 4)] ].

(** [{ type: "unknown.line" }] at location 3. *)
Definition dotted_type_heap : heap :=
  module_heap ++ [ OPlain [("type", VString "unknown.line")] ].

(** [{ type: "cartesian", series: [{ type: "a.b" }] }] at location 5. *)
Definition dotted_series_heap : heap :=
  module_heap ++
  [ OPlain [("type", VString "a.b")]; OArray [VObject 3] [];
    OPlain [("type", VString "cartesian"); ("series", VObject 4)] ].

(** [{ type: "cartesian", series: [{ type: "unknownKind" }] }] at location 5. *)
Definition unknown_series_heap : heap :=
  module_heap ++
  [ OPlain [("type", VString "unknownKind")]; OArray [VObject 3] [];
    OPlain [("type", VString "cartesian"); ("series", VObject 4)] ].

(** [{ series: [{ type: "pie" }] }] at location 5. *)
Definition pie_heap : heap :=
  module_heap ++
  [ OPlain [("type", VString "pie")]; OArray [VObject 3] [];
    OPlain [("series", VObject 4)] ].

(** A chart of class [cls] at location 4, its legend (position "right") at
    location 3, and the configuration [{ legend: {} }] at location 6. *)
Definition chart_heap (cls : ctor) : heap :=
  module_heap ++
  [ OInst "Legend" [] [("position", VString "right")];
    OInst cls [] [("legend", VObject 3); ("title", VString "Sales")];
    OPlain [];
    OPlain [("legend", VObject 5)] ].

(** A polar chart at location 4 with its legend at location 3, and the
    configuration [{ type: "radar", legend: { position: "left" } }] at
    location 6. *)
Definition radar_heap : heap :=
  module_heap ++
  [ OInst "Legend" [] [("position", VString "right")];
    OInst "PolarChart" [] [("legend", VObject 3)];
    OPlain [("position", VString "left")];
    OPlain [("type", VString "radar"); ("legend", VObject 5)] ].

(** [{ type: "cartesian" }] at location 3. *)
Definition bare_cartesian_heap : heap :=
  module_heap ++ [ OPlain [("type", VString "cartesian")] ].

(** [{ type: "cartesian", axes: [{ type: "number", position: "bottom" }] }]
    at location 5. *)
Definition single_axis_heap : heap :=
  module_heap ++
  [ OPlain [("type", VString "number"); ("position", VString "bottom")];
    OArray [VObject 3] [];
    OPlain [("type", VString "cartesian"); ("axes", VObject 4)] ].

(** [{ type: "polar", document: document }] at location 3. *)
Definition document_heap : heap :=
  module_heap ++
  [ OPlain [("type", VString "polar"); ("document", VHost "document")] ].

(** The chart made from the configuration of [document_heap], and the heap
    it is left in. *)
Definition document_chart : outcome value * heap :=
  Eval vm_compute in create chart_components 2 (VObject 3) document_heap.

(** The chart made from the configuration of [untyped_series_heap], and the
    heap it is left in. *)
Definition untyped_series_chart : outcome value * heap :=
  Eval vm_compute in create chart_components 3 (VObject 5) untyped_series_heap.

(** [{ type: "cartesian" }] at location 3 and, at location 4, a legend that
    belongs to some other chart. *)
Definition bystander_heap : heap :=
  module_heap ++
  [ OPlain [("type", VString "cartesian")];
    OInst "Legend" [] [("position", VString "right")] ].

(** A polar chart at location 3 and the configuration
    [{ type: "radar", legend: true }] at location 4. *)
Definition flag_legend_heap : heap :=
  module_heap ++
  [ OInst "PolarChart" [] [];
    OPlain [("type", VString "radar"); ("legend", VBoolean true)] ].


(** [{ type: 'cartesian', axes: [{}] }]: an axis without a type. *)
Definition typeless_axis_heap : heap :=
  module_heap ++
  [ OPlain [];
    OArray [VObject 3] [];
    OPlain [("type", VString "cartesian"); ("axes", VObject 4)] ].

(** * Facts *)

Ltac mred :=
  unfold bind, ret, throw, lift, get_prop, has_prop in *.

(** ** Association lists *)

Lemma assoc_set_same (k : string) (v : value) (l : props) :
  assoc k (assoc_set k v l) = Some v.
Proof.
  induction l as [|[k' v'] r IH]; simpl.
  - now rewrite String.eqb_refl.
  - destruct (String.eqb_spec k k') as [->|Hne]; simpl.
    + now rewrite String.eqb_refl.
    + destruct (String.eqb_spec k k'); [congruence|exact IH].
Qed.

Lemma assoc_set_other (k k' : string) (v : value) (l : props) :
  k <> k' -> assoc k' (assoc_set k v l) = assoc k' l.
Proof.
  intros Hne. induction l as [|[k0 v0] r IH]; simpl.
  - destruct (String.eqb_spec k' k); [congruence|reflexivity].
  - destruct (String.eqb_spec k k0) as [->|Hk]; simpl.
    + destruct (String.eqb_spec k' k0); [congruence|reflexivity].
    + destruct (String.eqb_spec k' k0); [reflexivity|exact IH].
Qed.

Lemma assoc_set_values (k : string) (x v : value) (ps : props) :
  In v (map snd (assoc_set k x ps)) -> v = x \/ In v (map snd ps).
Proof.
  induction ps as [|[k' v'] r IH]; simpl.
  - intros [<-|[]]. now left.
  - destruct (String.eqb k k'); simpl.
    + intros [<-|H]; auto.
    + intros [<-|H]; auto. destruct (IH H); auto.
Qed.

Lemma existsb_eqb_In (k : string) (l : list string) :
  existsb (String.eqb k) l = true <-> In k l.
Proof.
  rewrite existsb_exists. split.
  - intros (x & Hx & He). apply String.eqb_eq in He. now subst.
  - intros H. exists k. split; [exact H|apply String.eqb_refl].
Qed.

Lemma In_dedup (x : string) (l : list string) : In x (dedup l) <-> In x l.
Proof.
  induction l as [|y r IH]; simpl; [tauto|].
  rewrite filter_In, IH. split.
  - intros [H|[H _]]; auto.
  - intros [H|H]; [now left|].
    destruct (String.eqb_spec x y) as [->|Hne]; [now left|]. right. split; [exact H|].
    reflexivity.
Qed.

Lemma NoDup_dedup (l : list string) : NoDup (dedup l).
Proof.
  induction l as [|y r IH]; simpl; [constructor|].
  apply NoDup_cons_2.
  - rewrite list_elem_of_In, filter_In. intros [_ H].
    now rewrite String.eqb_refl in H.
  - apply NoDup_ListNoDup, List.NoDup_filter, NoDup_ListNoDup, IH.
Qed.

(** ** Lookups along the prototype chain *)

Lemma lookup_chain_prefix (h h' : heap) (n : nat) (l : loc) (k : string) :
  (forall j, j <= l -> h' !! j = h !! j) ->
  lookup_chain h' n l k = lookup_chain h n l k.
Proof.
  revert l. induction n as [|n IH]; intros l Hp; cbn [lookup_chain];
    rewrite (Hp l) by lia; destruct (h !! l) as [o|]; try reflexivity;
    destruct (get_own o k); try reflexivity; destruct o; try reflexivity.
  destruct (Nat.ltb_spec proto l); [|reflexivity].
  apply IH. intros j Hj. apply Hp. lia.
Qed.

Lemma lookup_chain_fuel (h : heap) (n m : nat) (l : loc) (k : string) :
  l <= n -> l <= m -> lookup_chain h n l k = lookup_chain h m l k.
Proof.
  revert m l. induction n as [|n IH]; intros m l Hn Hm.
  - assert (l = 0) by lia. subst l. destruct m; cbn [lookup_chain]; [reflexivity|];
      destruct (h !! 0) as [o|]; try reflexivity;
      destruct (get_own o k); try reflexivity; destruct o; reflexivity.
  - destruct m as [|m].
    + assert (l = 0) by lia. subst l. cbn [lookup_chain];
        destruct (h !! 0) as [o|]; try reflexivity;
        destruct (get_own o k); try reflexivity; destruct o; reflexivity.
    + cbn [lookup_chain]. destruct (h !! l) as [o|]; try reflexivity.
      destruct (get_own o k); try reflexivity. destruct o; try reflexivity.
      destruct (Nat.ltb_spec proto l); [|reflexivity].
      apply IH; lia.
Qed.

Lemma get_in_prefix (h h' : heap) (l : loc) (k : string) :
  (forall j, j <= l -> h' !! j = h !! j) -> get_in h' l k = get_in h l k.
Proof. intros Hp. unfold get_in. now rewrite (lookup_chain_prefix h h'). Qed.

Lemma has_in_prefix (h h' : heap) (l : loc) (k : string) :
  (forall j, j <= l -> h' !! j = h !! j) -> has_in h' l k = has_in h l k.
Proof. intros Hp. unfold has_in. now rewrite (lookup_chain_prefix h h'). Qed.

Lemma lookup_chain_derived (h : heap) (c p : loc) (ps : props) (k : string) :
  h !! c = Some (ODerived p ps) -> p < c ->
  lookup_chain h c c k =
    match assoc k ps with
    | Some v => Some v
    | None => lookup_chain h p p k
    end.
Proof.
  intros Hc Hlt. destruct c as [|c]; [lia|]. cbn [lookup_chain]. rewrite Hc. cbn [get_own own_props].
  destruct (assoc k ps); [reflexivity|].
  destruct (Nat.ltb_spec p (S c)); [|lia].
  apply lookup_chain_fuel; lia.
Qed.

Lemma get_in_derived (h : heap) (c p : loc) (ps : props) (k : string) :
  h !! c = Some (ODerived p ps) -> p < c ->
  get_in h c k = match assoc k ps with Some v => v | None => get_in h p k end.
Proof.
  intros Hc Hlt. unfold get_in. rewrite (lookup_chain_derived h c p ps) by assumption.
  now destruct (assoc k ps).
Qed.

Lemma has_in_derived (h : heap) (c p : loc) (ps : props) (k : string) :
  h !! c = Some (ODerived p ps) -> p < c ->
  has_in h c k = match assoc k ps with Some _ => true | None => has_in h p k end.
Proof.
  intros Hc Hlt. unfold has_in. rewrite (lookup_chain_derived h c p ps) by assumption.
  now destruct (assoc k ps).
Qed.

Lemma class_chain_prefix (h h' : heap) (n : nat) (l : loc) :
  (forall j, j <= l -> h' !! j = h !! j) ->
  class_chain h' n l = class_chain h n l.
Proof.
  revert l. induction n as [|n IH]; intros l Hp; cbn [class_chain];
    rewrite (Hp l) by lia; destruct (h !! l) as [o|]; try reflexivity;
    destruct o; try reflexivity.
  destruct (Nat.ltb_spec proto l); [|reflexivity].
  apply IH. intros j Hj. apply Hp. lia.
Qed.

Lemma class_of_prefix (h h' : heap) (l : loc) :
  (forall j, j <= l -> h' !! j = h !! j) -> class_of h' l = class_of h l.
Proof. apply class_chain_prefix. Qed.

(** ** The monad *)

Lemma bind_inv {A B : Type} (m : M A) (f : A -> M B) (h h' : heap) (r : outcome B) :
  bind m f h = (r, h') ->
  (exists a h1, m h = (Ret a, h1) /\ f a h1 = (r, h')) \/
  (exists e, m h = (Err e, h') /\ r = Err e).
Proof.
  unfold bind. destruct (m h) as [[a|e] h1]; intros H.
  - left. eauto.
  - right. inversion H; subst. eauto.
Qed.

Lemma bind_ret {A B : Type} (m : M A) (f : A -> M B) (h h1 : heap) (a : A) :
  m h = (Ret a, h1) -> bind m f h = f a h1.
Proof. intros H. unfold bind. now rewrite H. Qed.

Lemma bind_err {A B : Type} (m : M A) (f : A -> M B) (h h1 : heap) (e : error) :
  m h = (Err e, h1) -> bind m f h = (Err e, h1).
Proof. intros H. unfold bind. now rewrite H. Qed.

(** ** Closed heaps *)

Lemma closed_lookup (h : heap) (l : loc) (o : object) :
  closed h = true -> h !! l = Some o -> obj_ok (length h) o = true.
Proof.
  unfold closed. rewrite forallb_forall. intros Hc Hl.
  apply Hc. apply list_elem_of_In. eapply list_elem_of_lookup_2; eauto.
Qed.

Lemma assoc_In {A : Type} (k : string) (l : list (string * A)) (v : A) :
  assoc k l = Some v -> In v (map snd l).
Proof.
  induction l as [|[k' v'] r IH]; simpl; [discriminate|].
  destruct (String.eqb k k'); intros H.
  - inversion H. now left.
  - right. auto.
Qed.

Lemma get_own_ok (n : nat) (o : object) (k : string) (v : value) :
  obj_ok n o = true -> get_own o k = Some v -> val_ok n v = true.
Proof.
  unfold obj_ok. rewrite forallb_forall. intros Ho Hg. destruct o; simpl in *.
  - apply Ho. eapply assoc_In; eauto.
  - apply Ho. right. eapply assoc_In; eauto.
  - destruct (array_index k).
    + apply Ho. apply in_or_app. left. apply list_elem_of_In.
      eapply list_elem_of_lookup_2; eauto.
    + destruct (String.eqb k "length").
      * inversion Hg. reflexivity.
      * apply Ho. apply in_or_app. right. eapply assoc_In; eauto.
  - apply Ho. apply in_or_app. right. eapply assoc_In; eauto.
Qed.

Lemma lookup_chain_ok (h : heap) (n : nat) (l : loc) (k : string) (v : value) :
  closed h = true -> lookup_chain h n l k = Some v -> val_ok (length h) v = true.
Proof.
  intros Hc. revert l. induction n as [|n IH]; intros l; cbn [lookup_chain];
    destruct (h !! l) as [o|] eqn:Hl; try discriminate;
    destruct (get_own o k) eqn:Hg.
  - intros H; inversion H; subst. eapply get_own_ok; eauto using closed_lookup.
  - destruct o; discriminate.
  - intros H; inversion H; subst. eapply get_own_ok; eauto using closed_lookup.
  - destruct o; try discriminate. destruct (Nat.ltb proto l); [apply IH|discriminate].
Qed.

Lemma get_in_ok (h : heap) (l : loc) (k : string) :
  closed h = true -> val_ok (length h) (get_in h l k) = true.
Proof.
  intros Hc. unfold get_in. destruct (lookup_chain h l l k) eqn:E; simpl.
  - eapply lookup_chain_ok; eauto.
  - reflexivity.
Qed.

Lemma string_prop_ok (n : nat) (s k : string) : val_ok n (string_prop s k) = true.
Proof.
  unfold string_prop. destruct (array_index k).
  - now destruct (String.get n0 s).
  - now destruct (String.eqb k "length").
Qed.

Lemma read_ok (h : heap) (v w : value) (k : string) :
  closed h = true -> read h v k = Ret w -> val_ok (length h) w = true.
Proof.
  intros Hc. destruct v; simpl; try discriminate; intros H; inversion H; subst;
    auto using get_in_ok, string_prop_ok.
Qed.

(** ** Reading and writing next to a protective copy *)

Lemma lookup_app_old (h ext : heap) (j : nat) :
  j < length h -> (h ++ ext) !! j = h !! j.
Proof. intros H. now apply lookup_app_l. Qed.

Lemma lookup_app_new (h : heap) (o : object) : (h ++ [o]) !! length h = Some o.
Proof. rewrite lookup_app_r by lia. now rewrite Nat.sub_diag. Qed.

Lemma insert_app_new (h : heap) (o o' : object) :
  <[length h := o']> (h ++ [o]) = h ++ [o'].
Proof.
  replace (length h) with (length h + 0) at 1 by lia.
  now rewrite insert_app_r.
Qed.

Lemma get_in_old (h ext : heap) (l : loc) (k : string) :
  l < length h -> get_in (h ++ ext) l k = get_in h l k.
Proof.
  intros H. apply get_in_prefix. intros j Hj. apply lookup_app_old. lia.
Qed.

Lemma has_in_old (h ext : heap) (l : loc) (k : string) :
  l < length h -> has_in (h ++ ext) l k = has_in h l k.
Proof.
  intros H. apply has_in_prefix. intros j Hj. apply lookup_app_old. lia.
Qed.

Lemma read_old (h ext : heap) (v : value) (k : string) :
  val_ok (length h) v = true -> read (h ++ ext) v k = read h v k.
Proof.
  destruct v; simpl; try reflexivity. intros H. apply Nat.ltb_lt in H.
  now rewrite get_in_old.
Qed.

Lemma has_old (h ext : heap) (v : value) (k : string) :
  val_ok (length h) v = true -> has (h ++ ext) k v = has h k v.
Proof.
  destruct v; simpl; try reflexivity. intros H. apply Nat.ltb_lt in H.
  now rewrite has_in_old.
Qed.

Lemma read_copy (h : heap) (cfg : loc) (ps : props) (k : string) :
  cfg < length h ->
  read (h ++ [ODerived cfg ps]) (VObject (length h)) k =
    Ret (match assoc k ps with Some v => v | None => get_in h cfg k end).
Proof.
  intros Hlt. simpl. f_equal.
  rewrite (get_in_derived _ _ cfg ps) by (auto using lookup_app_new).
  destruct (assoc k ps); [reflexivity|]. now apply get_in_old.
Qed.

Lemma set_copy (h : heap) (cfg : loc) (ps : props) (k : string) (x : value) :
  set_prop (VObject (length h)) k x (h ++ [ODerived cfg ps]) =
    (Ret tt, h ++ [ODerived cfg (assoc_set k x ps)]).
Proof.
  unfold set_prop. rewrite lookup_app_new. simpl. now rewrite insert_app_new.
Qed.

(** ** Property assignment *)

Lemma get_own_set_own (o o' : object) (k : string) (x : value) :
  set_own o k x = Some o' -> get_own o' k = Some x.
Proof.
  destruct o; simpl; intros H.
  - inversion H; subst. simpl. apply assoc_set_same.
  - inversion H; subst. simpl. apply assoc_set_same.
  - destruct (array_index k) as [i|] eqn:Hi.
    + destruct (Nat.ltb_spec i (length elems)); inversion H; subst; simpl; rewrite Hi.
      * now apply list_lookup_insert_eq.
      * rewrite lookup_app_r by lia. rewrite lookup_app_r; rewrite length_replicate; [|lia].
        now rewrite Nat.sub_diag.
    + destruct (String.eqb k "length") eqn:Hk; [discriminate|].
      inversion H; subst. simpl. rewrite Hi, Hk. apply assoc_set_same.
  - inversion H; subst. simpl. apply assoc_set_same.
Qed.

Lemma set_own_shape (o o' : object) (k : string) (x : value) :
  set_own o k x = Some o' -> shape_of o' = shape_of o.
Proof.
  destruct o; simpl; intros H; try (inversion H; subst; reflexivity).
  destruct (array_index k).
  - destruct (Nat.ltb n (length elems)); inversion H; reflexivity.
  - destruct (String.eqb k "length"); inversion H; reflexivity.
Qed.

Lemma lookup_chain_here (h : heap) (n : nat) (l : loc) (o : object) (k : string) (v : value) :
  h !! l = Some o -> get_own o k = Some v -> lookup_chain h n l k = Some v.
Proof. intros Hl Hg. destruct n; cbn [lookup_chain]; now rewrite Hl, Hg. Qed.

Lemma read_after_set (h h1 : heap) (v x : value) (k : string) :
  set_prop v k x h = (Ret tt, h1) -> read h1 v k = Ret x.
Proof.
  destruct v; simpl; try discriminate.
  destruct (h !! l) as [o|] eqn:Hl; [|discriminate].
  destruct (set_own o k x) as [o'|] eqn:Hs; [|discriminate].
  intros H. inversion H; subst. f_equal. unfold get_in.
  erewrite lookup_chain_here; [reflexivity| |eapply get_own_set_own; eauto].
  apply list_lookup_insert_eq. eapply lookup_lt_Some; eauto.
Qed.

Lemma set_prop_touches (h h1 : heap) (v x : value) (k : string) (r : outcome unit) :
  set_prop v k x h = (r, h1) -> touches v h h1.
Proof.
  assert (Hrefl : touches v h h) by (repeat split; eauto).
  destruct v; simpl; try (intros H; inversion H; subst; exact Hrefl).
  destruct (h !! l) as [o|] eqn:Hl; [|intros H; inversion H; subst; exact Hrefl].
  destruct (set_own o k x) as [o'|] eqn:Hs; [|intros H; inversion H; subst; exact Hrefl].
  intros H. inversion H; subst. repeat split.
  - apply length_insert.
  - intros j Hj. apply list_lookup_insert_ne. congruence.
  - intros j oj Hoj. destruct (Nat.eq_dec l j) as [->|Hne].
    + rewrite list_lookup_insert_eq by (eapply lookup_lt_Some; eauto).
      exists o'. split; [reflexivity|]. rewrite Hl in Hoj. inversion Hoj; subst.
      eapply set_own_shape; eauto.
    + rewrite list_lookup_insert_ne by assumption. eauto.
Qed.

Lemma touches_refl (v : value) (h : heap) : touches v h h.
Proof. repeat split; eauto. Qed.

Lemma touches_trans (v : value) (h1 h2 h3 : heap) :
  touches v h1 h2 -> touches v h2 h3 -> touches v h1 h3.
Proof.
  intros (L1 & U1 & S1) (L2 & U2 & S2). repeat split.
  - congruence.
  - intros j Hj. rewrite U2, U1; auto.
  - intros j o Ho. destruct (S1 j o Ho) as (o1 & Ho1 & E1).
    destruct (S2 j o1 Ho1) as (o2 & Ho2 & E2). exists o2. split; congruence.
Qed.

(** ** Type inference *)

Lemma find_chart_type_string (s : string) :
  find_chart_type (VString s) =
    if existsb (String.eqb s) (series_kinds "cartesian") then Some "cartesian"
    else if existsb (String.eqb s) (series_kinds "polar") then Some "polar"
    else None.
Proof.
  unfold find_chart_type.
  change chart_types with
    [("cartesian", default (MObject []) (assoc "cartesian" chart_types));
     ("polar", default (MObject []) (assoc "polar" chart_types))].
  cbn [find snd].
  change (series_types (default (MObject []) (assoc "cartesian" chart_types)))
    with (series_kinds "cartesian").
  change (series_types (default (MObject []) (assoc "polar" chart_types)))
    with (series_kinds "polar").
  change (existsb (strict_eq_string (VString s))) with (existsb (String.eqb s)).
  destruct (existsb (String.eqb s) (series_kinds "cartesian")); [reflexivity|].
  destruct (existsb (String.eqb s) (series_kinds "polar")); reflexivity.
Qed.

Lemma find_chart_type_falsy (t : value) :
  truthy t = false -> find_chart_type t = None.
Proof.
  destruct t; simpl; try reflexivity; try discriminate.
  intros H. apply negb_false_iff, String.eqb_eq in H. subst. reflexivity.
Qed.

Lemma series_kinds_chart (c s : string) :
  In s (series_kinds c) -> c = "cartesian" \/ c = "polar".
Proof.
  unfold series_kinds. cbn [chart_types mappings assoc].
  destruct (String.eqb_spec c "cartesian"); [auto|].
  destruct (String.eqb_spec c "polar"); [auto|]. intros [].
Qed.

Lemma infer_kind_spec (t : value) :
  registered (infer_kind t) t \/
  (infer_kind t = "cartesian" /\ forall c, ~ registered c t).
Proof.
  destruct t; try (right; split; [reflexivity|]; intros c (s0 & E & _); discriminate).
  unfold infer_kind. rewrite find_chart_type_string.
  destruct (existsb (String.eqb s) (series_kinds "cartesian")) eqn:Ec.
  - left. exists s. split; [reflexivity|]. now apply existsb_eqb_In.
  - destruct (existsb (String.eqb s) (series_kinds "polar")) eqn:Ep.
    + left. exists s. split; [reflexivity|]. now apply existsb_eqb_In.
    + right. split; [reflexivity|]. intros c (s0 & E & Hin). inversion E; subst s0.
      destruct (series_kinds_chart c s Hin); subst c.
      * apply existsb_eqb_In in Hin. congruence.
      * apply existsb_eqb_In in Hin. congruence.
Qed.

Lemma setChartType_run (h : heap) (options t st : value) :
  read h options "type" = Ret t -> truthy t = false ->
  first_series_type h options = Ret st ->
  setChartType options h = set_prop options "type" (VString (infer_kind st)) h.
Proof.
  intros Ht Hf Hst. unfold setChartType.
  rewrite (bind_ret _ _ h h t) by (unfold get_prop; now rewrite Ht).
  rewrite Hf. unfold first_series_type in Hst.
  destruct (read h options "series") as [sv|] eqn:Hsv; [|discriminate]. simpl in Hst.
  rewrite (bind_ret _ _ h h sv) by (unfold get_prop; now rewrite Hsv).
  destruct (if truthy sv then read h sv "0" else Ret sv) as [first|] eqn:Hfirst;
    [|discriminate]. simpl in Hst.
  rewrite (bind_ret _ _ h h first)
    by (destruct (truthy sv); [unfold get_prop; now rewrite Hfirst|now inversion Hfirst]).
  rewrite (bind_ret _ _ h h st)
    by (destruct (truthy first); [unfold get_prop; now rewrite Hst|now inversion Hst]).
  unfold infer_kind.
  destruct (truthy st) eqn:Hts.
  - destruct (find_chart_type st) as [ct|] eqn:Hfc; simpl.
    + destruct (set_prop options "type" (VString ct) h) as [[[]|e] h1] eqn:Hset.
      * rewrite (bind_ret _ _ h h1 tt) by exact Hset.
        rewrite (bind_ret _ _ h1 h1 (VString ct))
          by (unfold get_prop; now rewrite (read_after_set _ _ _ _ _ Hset)).
        assert (Hct : truthy (VString ct) = true).
        { destruct st; try discriminate. rewrite find_chart_type_string in Hfc.
          destruct (existsb _ _); [now inversion Hfc|].
          destruct (existsb _ _); [now inversion Hfc|discriminate]. }
        now rewrite Hct.
      * now rewrite (bind_err _ _ h h1 e) by exact Hset.
    + rewrite (bind_ret _ _ h h tt) by reflexivity.
      rewrite (bind_ret _ _ h h t) by (unfold get_prop; now rewrite Ht).
      now rewrite Hf.
  - rewrite (find_chart_type_falsy st Hts). simpl.
    rewrite (bind_ret _ _ h h tt) by reflexivity.
    rewrite (bind_ret _ _ h h t) by (unfold get_prop; now rewrite Ht).
    now rewrite Hf.
Qed.

Lemma get_in_own (h : heap) (l : loc) (o : object) (k : string) :
  h !! l = Some o -> (forall p, shape_of o <> SDerived p) ->
  get_in h l k = default VUndefined (get_own o k).
Proof.
  intros Hl Hs. unfold get_in.
  destruct l; cbn [lookup_chain]; rewrite Hl; destruct (get_own o k); try reflexivity;
    destruct o; try reflexivity; exfalso; eapply Hs; reflexivity.
Qed.


(** ** Heap relations kept by a computation *)

Section Preserves.

Variable R : heap -> heap -> Prop.
Hypothesis R_refl : forall h, R h h.
Hypothesis R_trans : forall h1 h2 h3, R h1 h2 -> R h2 h3 -> R h1 h3.

Lemma preserves_ret {A : Type} (a : A) : preserves R (ret a).
Proof. intros h r h' H. inversion H; subst. apply R_refl. Qed.

Lemma preserves_throw {A : Type} (e : error) : preserves R (@throw A e).
Proof. intros h r h' H. inversion H; subst. apply R_refl. Qed.

Lemma preserves_lift {A : Type} (o : outcome A) : preserves R (lift o).
Proof. intros h r h' H. inversion H; subst. apply R_refl. Qed.

Lemma preserves_get_prop (v : value) (k : string) : preserves R (get_prop v k).
Proof. intros h r h' H. inversion H; subst. apply R_refl. Qed.

Lemma preserves_has_prop (v : value) (k : string) : preserves R (has_prop k v).
Proof. intros h r h' H. inversion H; subst. apply R_refl. Qed.

Lemma preserves_to_string (v : value) : preserves R (to_string v).
Proof.
  intros h r h' H. unfold to_string in H.
  destruct v as [| |[]|z| | |]; try destruct (Z.ltb _ _);
    inversion H; subst; apply R_refl.
Qed.

Lemma preserves_is_array (v : value) : preserves R (is_array v).
Proof.
  intros h r h' H. unfold is_array in H.
  destruct v; try (inversion H; subst; apply R_refl).
  destruct (h !! l) as [[]|]; inversion H; subst; apply R_refl.
Qed.

Lemma preserves_array_elems (v : value) : preserves R (array_elems v).
Proof.
  intros h r h' H. unfold array_elems in H.
  destruct v; try (inversion H; subst; apply R_refl).
  destruct (h !! l) as [[]|]; inversion H; subst; apply R_refl.
Qed.

Lemma preserves_forin_keys (v : value) : preserves R (forin_keys v).
Proof.
  intros h r h' H. destruct v; inversion H; subst; apply R_refl.
Qed.

Lemma preserves_bind {A B : Type} (m : M A) (f : A -> M B) :
  preserves R m -> (forall a, preserves R (f a)) -> preserves R (bind m f).
Proof.
  intros Hm Hf h r h' H. apply bind_inv in H.
  destruct H as [(a & h1 & H1 & H2)|(e & H1 & _)].
  - eapply R_trans; [eapply Hm|eapply Hf]; eauto.
  - eapply Hm; eauto.
Qed.

Lemma preserves_for_each {A : Type} (l : list A) (body : A -> M unit) :
  (forall x, In x l -> preserves R (body x)) -> preserves R (for_each l body).
Proof.
  induction l as [|x l IH]; intros Hb; simpl.
  - apply preserves_ret.
  - apply preserves_bind; [apply Hb; now left|].
    intros _. apply IH. intros y Hy. apply Hb. now right.
Qed.

End Preserves.

Ltac pres_step :=
  match goal with
  | |- preserves _ (bind _ _) => apply preserves_bind; [eassumption| |intros ?]
  | |- preserves _ (ret _) => apply preserves_ret; eassumption
  | |- preserves _ (throw _) => apply preserves_throw; eassumption
  | |- preserves _ (lift _) => apply preserves_lift; eassumption
  | |- preserves _ (get_prop _ _) => apply preserves_get_prop; eassumption
  | |- preserves _ (has_prop _ _) => apply preserves_has_prop; eassumption
  | |- preserves _ (to_string _) => apply preserves_to_string; eassumption
  | |- preserves _ (is_array _) => apply preserves_is_array; eassumption
  | |- preserves _ (array_elems _) => apply preserves_array_elems; eassumption
  | |- preserves _ (forin_keys _) => apply preserves_forin_keys; eassumption
  | |- preserves _ (if ?b then _ else _) => destruct b
  | |- preserves _ (match ?x with _ => _ end) => destruct x
  end.

Lemma preserves_lift_bind {A B : Type} (R : heap -> heap -> Prop) (o : outcome A)
    (f : A -> M B) :
  (forall h, R h h) ->
  (forall a, o = Ret a -> preserves R (f a)) ->
  preserves R (bind (lift o) f).
Proof.
  intros R_refl Hf h r h' H. unfold bind, lift in H. destruct o as [a|e].
  - eapply Hf; eauto.
  - inversion H; subst. apply R_refl.
Qed.

Section PreservesEngine.

Variable R : heap -> heap -> Prop.
Hypothesis R_refl : forall h, R h h.
Hypothesis R_trans : forall h1 h2 h3, R h1 h2 -> R h2 h3 -> R h1 h3.

(** A computation that only assigns to [options] keeps every relation that
    an assignment to [options] keeps. *)
Variable options : value.
Hypothesis R_set : forall k x, preserves R (set_prop options k x).

Lemma preserves_setChartType : preserves R (setChartType options).
Proof. unfold setChartType. repeat first [apply R_set | pres_step]. Qed.

Lemma preserves_default_type (t : string) : preserves R (default_type options t).
Proof. unfold default_type. repeat first [apply R_set | pres_step]. Qed.

Lemma preserves_setComponentType (path : option string) :
  preserves R (setComponentType options path).
Proof.
  unfold setComponentType.
  repeat first [apply preserves_setChartType | apply preserves_default_type | pres_step].
Qed.

Lemma preserves_merge_default (d : props) (key : string) :
  preserves R (merge_default options d key).
Proof. unfold merge_default. repeat first [apply R_set | pres_step]. Qed.

Lemma preserves_setComponentDefaults (fields : list (string * mapping)) :
  preserves R (setComponentDefaults options fields).
Proof.
  unfold setComponentDefaults.
  destruct (assoc "defaults" fields) as [[]|]; try (apply preserves_throw; assumption).
  - apply preserves_for_each; try assumption. intros. apply preserves_merge_default.
  - apply preserves_ret; assumption.
Qed.

Lemma preserves_read_params (params : list string) :
  preserves R (read_params options params).
Proof. induction params; simpl; repeat first [assumption | pres_step]. Qed.

End PreservesEngine.

Lemma preserves_resolve_path (R : heap -> heap -> Prop) (path : option string) (t : value) :
  (forall h, R h h) -> (forall h1 h2 h3, R h1 h2 -> R h2 h3 -> R h1 h3) ->
  preserves R (resolve_path path t).
Proof. intros R_refl R_trans. unfold resolve_path. repeat pres_step. Qed.

(** ** The registry *)

Lemma assoc_In_pair {A : Type} (k : string) (l : list (string * A)) (v : A) :
  assoc k l = Some v -> In (k, v) l.
Proof.
  induction l as [|[k' v'] r IH]; simpl; [discriminate|].
  destruct (String.eqb_spec k k'); intros H.
  - inversion H; subst. now left.
  - right. auto.
Qed.

Lemma all_nodes_index (P : list (string * mapping) -> bool) (m m' : mapping) (part : string) :
  all_nodes P m = true -> index_mapping (Some m) part = Ret (Some m') ->
  all_nodes P m' = true.
Proof.
  destruct m; simpl; try discriminate. intros H.
  apply andb_true_iff in H. destruct H as [_ H]. rewrite forallb_forall in H.
  destruct (assoc part fields) as [x|] eqn:E.
  - intros Hx. inversion Hx; subst. apply (H (part, m')). now apply assoc_In_pair.
  - destruct (builtin_name part); discriminate.
Qed.

Lemma all_nodes_getMapping (P : list (string * mapping) -> bool) (path : string) (m : mapping) :
  all_nodes P mappings = true -> getMapping path = Ret (Some m) ->
  all_nodes P m = true.
Proof.
  intros H0. unfold getMapping.
  assert (G : forall parts acc,
             (forall m0, acc = Ret (Some m0) -> all_nodes P m0 = true) ->
             fold_left (fun acc part =>
                          match acc with
                          | Ret m => index_mapping m part
                          | Err e => Err e
                          end) parts acc = Ret (Some m) ->
             all_nodes P m = true).
  { induction parts as [|part parts IH]; intros acc Hacc; simpl.
    - apply Hacc.
    - apply IH. intros m0 Hi. destruct acc as [[ma|]|e]; try discriminate.
      apply (all_nodes_index P ma m0 part); [now apply Hacc|exact Hi]. }
  apply G. intros m0 E. inversion E; subst. exact H0.
Qed.

Lemma getMapping_defaults_ok (path : string) (fields : list (string * mapping)) :
  getMapping path = Ret (Some (MObject fields)) -> defaults_ok fields = true.
Proof.
  intros H. apply (all_nodes_getMapping defaults_ok) in H; [|reflexivity].
  simpl in H. now apply andb_true_iff in H.
Qed.

(** ** The head of [_create] and [_update] on a protective copy *)

Lemma first_series_type_copy_at (h : heap) (cfg : loc) (ps : props) :
  cfg < length h -> assoc "series" ps = None ->
  val_ok (length h) (get_in h cfg "series") = true ->
  (forall first, read h (get_in h cfg "series") "0" = Ret first ->
     val_ok (length h) first = true) ->
  first_series_type (h ++ [ODerived cfg ps]) (VObject (length h)) =
  first_series_type h (VObject cfg).
Proof.
  intros Hlt Hs Hsv Hfirst. unfold first_series_type.
  rewrite read_copy by assumption. rewrite Hs. cbn [read obind].
  destruct (truthy (get_in h cfg "series")); cbn [obind].
  - rewrite read_old by assumption.
    destruct (read h (get_in h cfg "series") "0") as [first|] eqn:Hf; [|reflexivity].
    cbn [obind]. destruct (truthy first); [|reflexivity].
    apply read_old. now apply Hfirst.
  - destruct (truthy (get_in h cfg "series")); [|reflexivity].
    now apply read_old.
Qed.

Lemma first_series_type_copy (h : heap) (cfg : loc) (ps : props) :
  closed h = true -> cfg < length h -> assoc "series" ps = None ->
  first_series_type (h ++ [ODerived cfg ps]) (VObject (length h)) =
  first_series_type h (VObject cfg).
Proof.
  intros Hc Hlt Hs.
  pose proof (get_in_ok h cfg "series" Hc) as Hsv.
  apply first_series_type_copy_at; try assumption.
  intros first Hf. eapply read_ok; eauto.
Qed.

Lemma setComponentType_root_at (h : heap) (cfg : loc) (ty : value) :
  cfg < length h ->
  first_series_type (h ++ [ODerived cfg []]) (VObject (length h)) =
    first_series_type h (VObject cfg) ->
  chart_type h (VObject cfg) = Ret ty ->
  exists ps,
    setComponentType (VObject (length h)) None (h ++ [ODerived cfg []])
      = (Ret tt, h ++ [ODerived cfg ps]) /\
    read (h ++ [ODerived cfg ps]) (VObject (length h)) "type" = Ret ty /\
    (forall k, k <> "type" -> assoc k ps = None) /\
    (forall v, In v (map snd ps) -> exists s, v = VString s) /\
    (ps = [] \/ exists s, ps = [("type", VString s)]).
Proof.
  intros Hlt Hcopy Hty. unfold setComponentType. cbn [path_falsy path_is].
  unfold chart_type in Hty. cbn [read obind] in Hty.
  destruct (truthy (get_in h cfg "type")) eqn:Ht.
  - inversion Hty; subst ty. exists [].
    split; [|split; [|split; [|split; [intros v []|now left]]]].
    + unfold setChartType.
      rewrite (bind_ret _ _ _ (h ++ [ODerived cfg []]) tt); [reflexivity|].
      rewrite (bind_ret _ _ _ (h ++ [ODerived cfg []]) (get_in h cfg "type")).
      * now rewrite Ht.
      * unfold get_prop. now rewrite read_copy.
    + now rewrite read_copy.
    + reflexivity.
  - destruct (first_series_type h (VObject cfg)) as [st|] eqn:Hst; [|discriminate].
    cbn [obind] in Hty. inversion Hty; subst ty.
    exists [("type", VString (infer_kind st))].
    split; [|split; [|split; [|split; [intros v [<-|[]]; eauto|right; eauto]]]].
    + rewrite (bind_ret _ _ _ (h ++ [ODerived cfg [("type", VString (infer_kind st))]]) tt);
        [reflexivity|].
      rewrite (setChartType_run _ _ (get_in h cfg "type") st).
      * apply set_copy.
      * now rewrite read_copy.
      * exact Ht.
      * exact Hcopy.
    + now rewrite read_copy.
    + intros k Hk. simpl. destruct (String.eqb_spec k "type"); [congruence|reflexivity].
Qed.

Lemma setComponentType_root (h : heap) (cfg : loc) (ty : value) :
  closed h = true -> cfg < length h ->
  chart_type h (VObject cfg) = Ret ty ->
  exists ps,
    setComponentType (VObject (length h)) None (h ++ [ODerived cfg []])
      = (Ret tt, h ++ [ODerived cfg ps]) /\
    read (h ++ [ODerived cfg ps]) (VObject (length h)) "type" = Ret ty /\
    (forall k, k <> "type" -> assoc k ps = None) /\
    (forall v, In v (map snd ps) -> exists s, v = VString s) /\
    (ps = [] \/ exists s, ps = [("type", VString s)]).
Proof.
  intros Hc Hlt Hty. apply setComponentType_root_at; try assumption.
  now apply first_series_type_copy.
Qed.

Lemma for_each_merge_copy (h : heap) (cfg : loc) (d : props)
    (keys : list string) (ps : props) :
  cfg < length h ->
  exists ps',
    for_each keys (merge_default (VObject (length h)) d) (h ++ [ODerived cfg ps])
      = (Ret tt, h ++ [ODerived cfg ps']) /\
    (forall k, ~ In k keys -> assoc k ps' = assoc k ps) /\
    (forall v, In v (map snd ps') ->
       In v (map snd ps) \/ In v (VUndefined :: map snd d)).
Proof.
  intros Hlt. revert ps. induction keys as [|key keys IH]; intros ps; simpl.
  - exists ps. split; [reflexivity|]. split; auto.
  - unfold merge_default at 1.
    set (cur := match assoc key ps with Some v => v | None => get_in h cfg key end).
    assert (Hcur : get_prop (VObject (length h)) key (h ++ [ODerived cfg ps])
                   = (Ret cur, h ++ [ODerived cfg ps]))
      by (unfold get_prop; now rewrite read_copy).
    destruct (truthy cur) eqn:Htc.
    + destruct (IH ps) as (ps' & Hrun & Hav & Hvals). exists ps'.
      split; [|split; [|exact Hvals]].
      * rewrite (bind_ret _ _ _ (h ++ [ODerived cfg ps]) tt); [exact Hrun|].
        rewrite (bind_ret _ _ _ _ _ Hcur). now rewrite Htc.
      * intros k Hk. apply Hav. tauto.
    + set (x := default VUndefined (assoc key d)).
      destruct (IH (assoc_set key x ps)) as (ps' & Hrun & Hav & Hvals).
      exists ps'. split; [|split].
      * rewrite (bind_ret _ _ _ (h ++ [ODerived cfg (assoc_set key x ps)]) tt);
          [exact Hrun|].
        rewrite (bind_ret _ _ _ _ _ Hcur). rewrite Htc. apply set_copy.
      * intros k Hk. rewrite Hav by tauto. apply assoc_set_other. tauto.
      * intros v Hv. destruct (Hvals v Hv) as [Hin|Hin]; [|now right].
        destruct (assoc_set_values _ _ _ _ Hin) as [->|Hps]; [|now left].
        right. subst x. destruct (assoc key d) as [w|] eqn:E; simpl.
        -- right. eapply assoc_In; eauto.
        -- now left.
Qed.

Lemma setComponentDefaults_copy (h : heap) (cfg : loc) (fields : list (string * mapping))
    (ps : props) :
  defaults_ok fields = true -> cfg < length h ->
  exists ps',
    setComponentDefaults (VObject (length h)) fields (h ++ [ODerived cfg ps])
      = (Ret tt, h ++ [ODerived cfg ps']) /\
    (forall k, ~ In k (defaults_keys fields) -> assoc k ps' = assoc k ps) /\
    (forall v, In v (map snd ps') ->
       In v (map snd ps) \/ v = VUndefined \/
       exists d, assoc "defaults" fields = Some (MDefaults d) /\ In v (map snd d)).
Proof.
  intros Hok Hlt. unfold setComponentDefaults, defaults_keys.
  unfold defaults_ok in Hok.
  destruct (assoc "defaults" fields) as [[c|l|d|fs]|]; try discriminate.
  - destruct (for_each_merge_copy h cfg d (dedup (map fst d)) ps Hlt)
      as (ps' & Hrun & Hav & Hvals).
    exists ps'. split; [exact Hrun|split].
    + intros k Hk. apply Hav. intros Hin. apply Hk. exact (proj1 (In_dedup _ _) Hin).
    + intros v Hv. destruct (Hvals v Hv) as [H|[<-|H]]; eauto.
  - exists ps. split; [reflexivity|]. split; auto.
Qed.

(** The merge of the defaults leaves alone a key whose value is truthy. *)
Lemma for_each_merge_copy_truthy (h : heap) (cfg : loc) (d : props)
    (keys : list string) (ps : props) :
  cfg < length h ->
  exists ps',
    for_each keys (merge_default (VObject (length h)) d) (h ++ [ODerived cfg ps])
      = (Ret tt, h ++ [ODerived cfg ps']) /\
    (forall k,
       truthy (match assoc k ps with Some v => v | None => get_in h cfg k end) = true ->
       assoc k ps' = assoc k ps).
Proof.
  intros Hlt. revert ps. induction keys as [|key keys IH]; intros ps; simpl.
  - exists ps. split; [reflexivity|]. auto.
  - unfold merge_default at 1.
    set (cur := match assoc key ps with Some v => v | None => get_in h cfg key end).
    assert (Hcur : get_prop (VObject (length h)) key (h ++ [ODerived cfg ps])
                   = (Ret cur, h ++ [ODerived cfg ps]))
      by (unfold get_prop; now rewrite read_copy).
    destruct (truthy cur) eqn:Htc.
    + destruct (IH ps) as (ps' & Hrun & Hkeep). exists ps'. split; [|exact Hkeep].
      rewrite (bind_ret _ _ _ (h ++ [ODerived cfg ps]) tt); [exact Hrun|].
      rewrite (bind_ret _ _ _ _ _ Hcur). now rewrite Htc.
    + set (x := default VUndefined (assoc key d)).
      destruct (IH (assoc_set key x ps)) as (ps' & Hrun & Hkeep).
      exists ps'. split.
      * rewrite (bind_ret _ _ _ (h ++ [ODerived cfg (assoc_set key x ps)]) tt);
          [exact Hrun|].
        rewrite (bind_ret _ _ _ _ _ Hcur). rewrite Htc. apply set_copy.
      * intros k Hk.
        assert (Hne : k <> key) by (intros ->; fold cur in Hk; congruence).
        rewrite Hkeep; rewrite assoc_set_other by congruence; auto.
Qed.

Lemma setComponentDefaults_copy_truthy (h : heap) (cfg : loc)
    (fields : list (string * mapping)) (ps ps' : props) :
  cfg < length h ->
  setComponentDefaults (VObject (length h)) fields (h ++ [ODerived cfg ps])
    = (Ret tt, h ++ [ODerived cfg ps']) ->
  forall k,
    truthy (match assoc k ps with Some v => v | None => get_in h cfg k end) = true ->
    assoc k ps' = assoc k ps.
Proof.
  intros Hlt. unfold setComponentDefaults.
  destruct (assoc "defaults" fields) as [[c|l|d|fs]|]; try discriminate.
  - destruct (for_each_merge_copy_truthy h cfg d (dedup (map fst d)) ps Hlt)
      as (ps'' & Hrun & Hkeep).
    rewrite Hrun. intros E. inversion E as [E'].
    apply app_inv_head in E'. inversion E'; subst ps''. exact Hkeep.
  - intros E. inversion E as [E']. apply app_inv_head in E'. now inversion E'.
Qed.

Lemma defaults_ok_legend (fields : list (string * mapping)) :
  defaults_ok fields = true -> ~ In "legend" (defaults_keys fields).
Proof.
  unfold defaults_ok, defaults_keys.
  destruct (assoc "defaults" fields) as [[c|l|d|fs]|]; try discriminate; auto.
  intros Hok Hin. apply negb_true_iff in Hok.
  apply (proj2 (existsb_eqb_In _ _)) in Hin. congruence.
Qed.

(** ** [update] *)

Lemma lookup_chain_set_other (h : heap) (a : loc) (o o' : object) (k k' : string)
    (x : value) (n : nat) (l : loc) :
  h !! a = Some o -> set_own o k x = Some o' -> is_array_object o = false ->
  k <> k' ->
  lookup_chain (<[a:=o']> h) n l k' = lookup_chain h n l k'.
Proof.
  intros Ha Hs Harr Hne. revert l.
  assert (Hown : get_own o' k' = get_own o k').
  { destruct o; try discriminate; simpl in Hs; inversion Hs; subst; simpl;
      now apply assoc_set_other. }
  assert (Hshape : shape_of o' = shape_of o) by (eapply set_own_shape; eauto).
  assert (Hlt : a < length h) by (eapply lookup_lt_Some; eauto).
  induction n as [|n IH]; intros l; cbn [lookup_chain];
    (destruct (Nat.eq_dec l a) as [->|Hla];
     [rewrite list_lookup_insert_eq by assumption; rewrite Ha, Hown
     |rewrite list_lookup_insert_ne by congruence]).
  - destruct (get_own o k'); [reflexivity|]. destruct o, o'; try discriminate; reflexivity.
  - reflexivity.
  - destruct (get_own o k'); [reflexivity|].
    destruct o as [?|p ?|? ?|? ? ?], o' as [?|p' ?|? ?|? ? ?];
      try discriminate; try reflexivity.
    inversion Hshape; subst. destruct (Nat.ltb p a); [apply IH|reflexivity].
  - destruct (h !! l) as [ol|]; [|reflexivity].
    destruct (get_own ol k'); [reflexivity|]. destruct ol; try reflexivity.
    destruct (Nat.ltb proto l); [apply IH|reflexivity].
Qed.

Lemma get_in_inst (h : heap) (l : loc) (cls : ctor) (args : list value) (ps : props)
    (k : string) :
  h !! l = Some (OInst cls args ps) ->
  get_in h l k = default VUndefined (assoc k ps).
Proof.
  intros Hl. unfold get_in. destruct l; cbn [lookup_chain]; rewrite Hl; simpl;
    now destruct (assoc k ps).
Qed.

Lemma get_in_plain (h : heap) (l : loc) (ps : props) (k : string) :
  h !! l = Some (OPlain ps) ->
  get_in h l k = default VUndefined (assoc k ps).
Proof.
  intros Hl. unfold get_in. destruct l; cbn [lookup_chain]; rewrite Hl; simpl;
    now destruct (assoc k ps).
Qed.

Section UpdateFacts.

Variable instance_of : ctor -> ctor -> bool.
Variable Legend_defaults : props.

Lemma instanceof_pure (chart : value) (fields : list (string * mapping)) (h : heap) :
  snd (instanceof instance_of chart fields h) = h.
Proof.
  unfold instanceof. destruct (assoc "constructor" fields) as [[]|]; try reflexivity.
  destruct chart; try reflexivity. now destruct (class_of h l).
Qed.

Lemma instanceof_old (chart : value) (fields : list (string * mapping)) (h ext : heap) :
  val_ok (length h) chart = true ->
  fst (instanceof instance_of chart fields (h ++ ext))
    = fst (instanceof instance_of chart fields h).
Proof.
  intros Hv. unfold instanceof.
  destruct (assoc "constructor" fields) as [[]|]; try reflexivity.
  destruct chart; try reflexivity. simpl in Hv. apply Nat.ltb_lt in Hv.
  rewrite (class_of_prefix h (h ++ ext)).
  - now destruct (class_of h l).
  - intros j Hj. apply lookup_app_old. lia.
Qed.

Lemma instanceof_run_old (chart : value) (fields : list (string * mapping))
    (h ext : heap) (b : bool) :
  val_ok (length h) chart = true ->
  instanceof instance_of chart fields h = (Ret b, h) ->
  instanceof instance_of chart fields (h ++ ext) = (Ret b, h ++ ext).
Proof.
  intros Hv Hrun.
  pose proof (instanceof_old chart fields h ext Hv) as Hf.
  pose proof (instanceof_pure chart fields (h ++ ext)) as Hs.
  rewrite Hrun in Hf. simpl in Hf.
  destruct (instanceof instance_of chart fields (h ++ ext)) as [r h2].
  simpl in *. now subst.
Qed.

(** The head of [update]: the protective copy, the inferred type, the path. *)
Lemma update_head (chart : value) (h : heap) (cfg : loc) (p : string) :
  closed h = true -> cfg < length h ->
  chart_type h (VObject cfg) = Ret (VString p) ->
  exists ps,
    (forall k, k <> "type" -> assoc k ps = None) /\
    update instance_of Legend_defaults chart (VObject cfg) h =
      (let* mapping := lift (getMapping p) in
       let* proceed :=
         match mapping with
         | None => ret true
         | Some (MObject fields) =>
             let* ok := instanceof instance_of chart fields in
             if ok then setComponentDefaults (VObject (length h)) fields >> ret true
             else ret false
         | Some _ => throw Unmodelled
         end in
       if proceed then
         let* optLegend := get_prop (VObject (length h)) "legend" in
         if truthy optLegend then
           for_each (dedup (map fst Legend_defaults))
                    (update_legend_key Legend_defaults chart (VObject (length h)))
         else ret tt
       else ret tt) (h ++ [ODerived cfg ps]).
Proof.
  intros Hc Hlt Hty.
  destruct (setComponentType_root h cfg (VString p) Hc Hlt Hty)
    as (ps & Hrun & Hread & Hps & _ & _).
  exists ps. split; [exact Hps|].
  unfold update, _update.
  rewrite (bind_ret _ _ h (h ++ [ODerived cfg []]) (VObject (length h))) by reflexivity.
  cbn [is_object negb].
  rewrite (bind_ret _ _ _ _ _ Hrun).
  rewrite (bind_ret _ _ _ (h ++ [ODerived cfg ps]) (VString p))
    by (unfold get_prop; now rewrite Hread).
  rewrite (bind_ret _ _ _ (h ++ [ODerived cfg ps]) p) by reflexivity.
  reflexivity.
Qed.

(** C5.  When the descriptor resolved for the configuration is not of the
    kind of the instance ([component instanceof mapping.constructor] is
    false), [update] returns without an exception and without assigning to
    any object: the heap afterwards is the heap before, followed by the
    protective copy of the configuration, which nothing refers to.  No
    property of the instance, of its legend or of any other component is
    modified. *)
Theorem update_kind_mismatch_noop (h : heap) (chart : value) (cfg : loc) (p : string)
    (fields : list (string * mapping)) :
  closed h = true -> cfg < length h -> val_ok (length h) chart = true ->
  chart_type h (VObject cfg) = Ret (VString p) ->
  getMapping p = Ret (Some (MObject fields)) ->
  instanceof instance_of chart fields h = (Ret false, h) ->
  exists ps,
    update instance_of Legend_defaults chart (VObject cfg) h
      = (Ret tt, h ++ [ODerived cfg ps]).
Proof.
  intros Hc Hlt Hv Hty Hmap Hinst.
  destruct (update_head chart h cfg p Hc Hlt Hty) as (ps & _ & ->).
  exists ps.
  rewrite (bind_ret _ _ _ (h ++ [ODerived cfg ps]) (Some (MObject fields)))
    by (unfold lift; now rewrite Hmap).
  rewrite (bind_ret _ _ _ (h ++ [ODerived cfg ps]) false); [reflexivity|].
  rewrite (bind_ret _ _ _ (h ++ [ODerived cfg ps]) false); [reflexivity|].
  now apply instanceof_run_old.
Qed.


Lemma legend_frame_refl ch o c lg (h : heap) : legend_frame ch o c lg h h.
Proof. intros H. split; auto. Qed.

Lemma legend_frame_trans ch o c lg (h1 h2 h3 : heap) :
  legend_frame ch o c lg h1 h2 -> legend_frame ch o c lg h2 h3 ->
  legend_frame ch o c lg h1 h3.
Proof.
  intros H12 H23 H1. destruct (H12 H1) as [H2 F12]. destruct (H23 H2) as [H3 F23].
  split; [exact H3|]. intros j Hj Hl. rewrite F23, F12; auto.
Qed.

Lemma legend_frame_set_copy ch o c lg (k : string) (x : value) :
  ch <> c -> preserves (legend_frame ch o c lg) (set_prop (VObject c) k x).
Proof.
  intros Hne h r h' Hrun Hch. apply set_prop_touches in Hrun.
  destruct Hrun as (_ & Hother & _). split.
  - rewrite Hother; [exact Hch|congruence].
  - intros j Hj _. apply Hother. congruence.
Qed.

Lemma legend_frame_instanceof ch o c lg (chart : value) (fields : list (string * mapping)) :
  preserves (legend_frame ch o c lg) (instanceof instance_of chart fields).
Proof.
  intros h r h' Hrun. pose proof (instanceof_pure chart fields h) as Hs.
  rewrite Hrun in Hs. simpl in Hs. subst. apply legend_frame_refl.
Qed.

Lemma legend_frame_key ch cls args cps c (options : value) (key : string) :
  assoc "legend" cps <> Some (VObject ch) ->
  preserves
    (legend_frame ch (OInst cls args cps) c (default VUndefined (assoc "legend" cps)))
    (update_legend_key Legend_defaults (VObject ch) options key).
Proof.
  intros Hself h r h' Hrun Hch.
  assert (Hlg : read h (VObject ch) "legend"
                = Ret (default VUndefined (assoc "legend" cps)))
    by (simpl; f_equal; eapply get_in_inst; eauto).
  assert (Hset : forall v,
            set_prop (default VUndefined (assoc "legend" cps)) key v h = (r, h') ->
            h' !! ch = Some (OInst cls args cps) /\
            forall j, j <> c ->
              default VUndefined (assoc "legend" cps) <> VObject j ->
              h' !! j = h !! j).
  { intros v Hv. apply set_prop_touches in Hv. destruct Hv as (_ & Hother & _). split.
    - rewrite Hother; [exact Hch|].
      intros E. apply Hself. destruct (assoc "legend" cps); simpl in E; congruence.
    - intros j _ Hj. now apply Hother. }
  unfold update_legend_key, bind, get_prop, has_prop in Hrun. rewrite Hlg in Hrun.
  repeat match type of Hrun with
         | (Err _, _) = _ => inversion Hrun; subst; split; auto
         | set_prop _ _ _ _ = _ => eapply Hset; eauto
         | context [match ?x with _ => _ end] => destruct x eqn:?
         end.
Qed.

Lemma legend_frame_update ch cls args cps c (path : option string) :
  ch <> c -> assoc "legend" cps <> Some (VObject ch) ->
  preserves
    (legend_frame ch (OInst cls args cps) c (default VUndefined (assoc "legend" cps)))
    (_update instance_of Legend_defaults (VObject ch) (VObject c) path).
Proof.
  intros Hne Hself.
  set (R := legend_frame ch (OInst cls args cps) c (default VUndefined (assoc "legend" cps))).
  assert (R_refl : forall h, R h h) by (intros; apply legend_frame_refl).
  assert (R_trans : forall h1 h2 h3, R h1 h2 -> R h2 h3 -> R h1 h3)
    by (intros; eapply legend_frame_trans; eauto).
  assert (R_set : forall k x, preserves R (set_prop (VObject c) k x))
    by (intros; now apply legend_frame_set_copy).
  unfold _update. cbn [is_object negb].
  repeat first
    [ apply preserves_setComponentType; assumption
    | apply preserves_setComponentDefaults; assumption
    | apply preserves_resolve_path; assumption
    | apply legend_frame_instanceof
    | apply preserves_for_each; [assumption|assumption|intros; now apply legend_frame_key]
    | pres_step ].
Qed.

(** C9.  [update] assigns to no component of the chart other than its
    legend: every object that existed before the call, except the one the
    chart's [legend] property refers to, is afterwards exactly what it was.
    This covers the chart itself (so its [axes], [series], [title] and
    [subtitle] properties hold the same references) and the objects those
    properties refer to, for every configuration and whether the call
    returns or raises. *)
Theorem update_touches_only_legend (h : heap) (ch : loc) (cls : ctor)
    (args : list value) (cps : props) (options : value)
    (r : outcome unit) (h' : heap) :
  h !! ch = Some (OInst cls args cps) ->
  assoc "legend" cps <> Some (VObject ch) ->
  update instance_of Legend_defaults (VObject ch) options h = (r, h') ->
  forall j, j < length h -> assoc "legend" cps <> Some (VObject j) ->
            h' !! j = h !! j.
Proof.
  intros Hch Hself Hrun j Hj Hlg.
  assert (Hlt : ch < length h) by (eapply lookup_lt_Some; eauto).
  assert (Hstep : forall o0,
            _update instance_of Legend_defaults (VObject ch) (VObject (length h)) None
              (h ++ [o0]) = (r, h') -> h' !! j = h !! j).
  { intros o0 Hu.
    apply (legend_frame_update ch cls args cps (length h) None) in Hu;
      [|lia|assumption].
    destruct Hu as [_ Hf]; [rewrite lookup_app_old by lia; exact Hch|].
    rewrite Hf.
    - apply lookup_app_old; lia.
    - lia.
    - intros E. apply Hlg. destruct (assoc "legend" cps); simpl in E; congruence. }
  unfold update in Hrun.
  destruct options; try (inversion Hrun; subst; reflexivity).
  - apply (Hstep (OPlain [])). exact Hrun.
  - apply (Hstep (ODerived l [])). exact Hrun.
Qed.

Lemma legend_loop (ch lg c cfg ol : loc) (cls : ctor) (args : list value)
    (cps ps cfps : props) (keys : list string) :
  assoc "legend" cps = Some (VObject lg) -> lg <> ch -> cfg < c ->
  assoc "legend" ps = None -> assoc "legend" cfps = Some (VObject ol) ->
  NoDup keys ->
  forall H : heap,
  legend_state ch lg c cfg (OInst cls args cps) (ODerived cfg ps) (OPlain cfps) H ->
  exists H',
    for_each keys (update_legend_key Legend_defaults (VObject ch) (VObject c)) H
      = (Ret tt, H') /\
    legend_state ch lg c cfg (OInst cls args cps) (ODerived cfg ps) (OPlain cfps) H' /\
    (forall key, In key keys ->
       get_in H' lg key = legend_value Legend_defaults H ol key) /\
    (forall n l k, ~ In k keys -> lookup_chain H' n l k = lookup_chain H n l k) /\
    (forall j, j <> lg -> H' !! j = H !! j).
Proof.
  intros Hlegend Hne Hlt Hps Hol Hnd.
  induction Hnd as [|key keys Hnotin Hnd IH]; intros H Hst.
  - exists H. simpl. repeat split; try assumption; try reflexivity.
    + apply Hst. + apply Hst. + apply Hst. + apply Hst. + intros key [].
  - rewrite list_elem_of_In in Hnotin.
    destruct Hst as (Hch & Hc & Hcfg & lcls & largs & lps & Hlg).
    assert (Hlc : lg <> c) by (intros ->; congruence).
    assert (Hlcfg : lg <> cfg) by (intros ->; congruence).
    set (x := legend_value Legend_defaults H ol key).
    set (lo' := OInst lcls largs (assoc_set key x lps)).
    assert (E1 : get_prop (VObject c) "legend" H = (Ret (VObject ol), H)).
    { unfold get_prop. simpl. rewrite (get_in_derived H c cfg ps) by assumption.
      rewrite Hps. rewrite (get_in_plain H cfg cfps) by assumption. now rewrite Hol. }
    assert (E3 : get_prop (VObject ch) "legend" H = (Ret (VObject lg), H)).
    { unfold get_prop. simpl. rewrite (get_in_inst H ch cls args cps) by assumption.
      now rewrite Hlegend. }
    assert (Hstep : update_legend_key Legend_defaults (VObject ch) (VObject c) key H
                    = (Ret tt, <[lg:=lo']> H)).
    { unfold update_legend_key.
      rewrite (bind_ret _ _ _ _ _ E1).
      rewrite (bind_ret _ _ H H (has_in H ol key)) by reflexivity.
      rewrite (bind_ret _ _ _ _ _ E3).
      assert (Hset : set_prop (VObject lg) key x H = (Ret tt, <[lg:=lo']> H))
        by (unfold set_prop; now rewrite Hlg).
      subst x. unfold legend_value in *. destruct (has_in H ol key).
      - rewrite (bind_ret _ _ _ _ _ E1).
        rewrite (bind_ret _ _ H H (get_in H ol key)) by reflexivity. exact Hset.
      - exact Hset. }
    assert (Hlen : lg < length H) by (eapply lookup_lt_Some; eauto).
    destruct (IH (<[lg:=lo']> H)) as (H' & Hrun & Hst' & Hval & Hsame & Hframe).
    { repeat split.
      - rewrite list_lookup_insert_ne by assumption. exact Hch.
      - rewrite list_lookup_insert_ne by assumption. exact Hc.
      - rewrite list_lookup_insert_ne by assumption. exact Hcfg.
      - exists lcls, largs, (assoc_set key x lps). now apply list_lookup_insert_eq. }
    assert (Hother : forall n l k, key <> k ->
              lookup_chain (<[lg:=lo']> H) n l k = lookup_chain H n l k).
    { intros n l k Hk.
      apply (lookup_chain_set_other H lg (OInst lcls largs lps) lo' key k x);
        auto. }
    exists H'. split; [|split; [|split; [|split]]].
    + cbn [for_each]. rewrite (bind_ret _ _ _ _ _ Hstep). exact Hrun.
    + exact Hst'.
    + intros key' [<-|Hin].
      * unfold get_in. rewrite Hsame by assumption. fold (get_in (<[lg:=lo']> H) lg key).
        rewrite (get_in_inst _ lg lcls largs (assoc_set key x lps))
          by (now apply list_lookup_insert_eq).
        now rewrite assoc_set_same.
      * rewrite (Hval key' Hin). unfold legend_value, has_in, get_in.
        assert (key <> key') by (intros ->; contradiction).
        now rewrite !Hother.
    + intros n l k Hk. rewrite Hsame by (intros Hin; apply Hk; now right).
      apply Hother. intros ->. apply Hk. now left.
    + intros j Hj. rewrite Hframe by assumption.
      apply list_lookup_insert_ne. congruence.
Qed.

(** What [update] does once the kind check has let it through, for a chart
    with a legend of its own and a configuration literal with a [legend]
    object. *)
Lemma update_overwrites_legend (h : heap) (ch lg cfg ol : loc) (cls lcls : ctor)
    (args largs : list value) (cps lps cfps : props) (p : string) :
  closed h = true ->
  h !! cfg = Some (OPlain cfps) -> assoc "legend" cfps = Some (VObject ol) ->
  h !! ch = Some (OInst cls args cps) -> assoc "legend" cps = Some (VObject lg) ->
  lg <> ch -> h !! lg = Some (OInst lcls largs lps) ->
  chart_type h (VObject cfg) = Ret (VString p) ->
  (getMapping p = Ret None \/
   exists fields, getMapping p = Ret (Some (MObject fields)) /\
     instanceof instance_of (VObject ch) fields h = (Ret true, h)) ->
  exists h',
    update instance_of Legend_defaults (VObject ch) (VObject cfg) h = (Ret tt, h') /\
    (forall key, In key (map fst Legend_defaults) ->
       get_in h' lg key = legend_value Legend_defaults h ol key) /\
    (forall j, j < length h -> j <> lg -> h' !! j = h !! j).
Proof.
  intros Hc Hcfg Hol Hch Hlegend Hne Hlg Hty Hcheck.
  assert (Hcfglt : cfg < length h) by (eapply lookup_lt_Some; eauto).
  assert (Hchlt : ch < length h) by (eapply lookup_lt_Some; eauto).
  assert (Hollt : ol < length h).
  { apply Nat.ltb_lt. change (val_ok (length h) (VObject ol) = true).
    apply (get_own_ok _ (OPlain cfps) "legend");
      [eapply closed_lookup; eauto|exact Hol]. }
  destruct (update_head (VObject ch) h cfg p Hc Hcfglt Hty) as (ps1 & Hps1 & ->).
  assert (Hproceed : exists ps,
            assoc "legend" ps = None /\
            (let* mapping := lift (getMapping p) in
             match mapping with
             | None => ret true
             | Some (MObject fields) =>
                 let* ok := instanceof instance_of (VObject ch) fields in
                 if ok then setComponentDefaults (VObject (length h)) fields >> ret true
                 else ret false
             | Some _ => throw Unmodelled
             end) (h ++ [ODerived cfg ps1]) = (Ret true, h ++ [ODerived cfg ps])).
  { destruct Hcheck as [Hnone|(fields & Hsome & Hinst)].
    - exists ps1. split; [apply Hps1; discriminate|].
      rewrite (bind_ret _ _ _ (h ++ [ODerived cfg ps1]) None)
        by (unfold lift; now rewrite Hnone).
      reflexivity.
    - assert (Hdok : defaults_ok fields = true)
        by (eapply getMapping_defaults_ok; eauto).
      destruct (setComponentDefaults_copy h cfg fields ps1 Hdok Hcfglt)
        as (ps & Hrun & Hps & _).
      exists ps. split.
      { rewrite Hps by now apply defaults_ok_legend. apply Hps1. discriminate. }
      rewrite (bind_ret _ _ _ (h ++ [ODerived cfg ps1]) (Some (MObject fields)))
        by (unfold lift; now rewrite Hsome).
      rewrite (bind_ret _ _ _ (h ++ [ODerived cfg ps1]) true)
        by (apply instanceof_run_old; [simpl; now apply Nat.ltb_lt|exact Hinst]).
      rewrite (bind_ret _ _ _ _ _ Hrun). reflexivity. }
  destruct Hproceed as (ps & Hps & Hrun).
  destruct (legend_loop ch lg (length h) cfg ol cls args cps ps cfps
              (dedup (map fst Legend_defaults)) Hlegend Hne Hcfglt Hps Hol
              (NoDup_dedup _) (h ++ [ODerived cfg ps]))
    as (h' & Hloop & _ & Hval & _ & Hframe).
  { repeat split.
    - rewrite lookup_app_old by assumption. exact Hch.
    - apply lookup_app_new.
    - rewrite lookup_app_old by assumption. exact Hcfg.
    - exists lcls, largs, lps. rewrite lookup_app_old; [exact Hlg|].
      eapply lookup_lt_Some; eauto. }
  exists h'. split; [|split].
  - unfold bind at 1. unfold bind at 1 in Hrun.
    destruct (lift (getMapping p) (h ++ [ODerived cfg ps1])) as [[m|e] h1];
      [|discriminate].
    unfold bind at 1. rewrite Hrun.
    rewrite (bind_ret _ _ _ (h ++ [ODerived cfg ps]) (VObject ol)).
    + exact Hloop.
    + unfold get_prop. rewrite read_copy by assumption. rewrite Hps.
      rewrite (get_in_plain h cfg cfps) by assumption. now rewrite Hol.
  - intros key Hin. rewrite Hval.
    + unfold legend_value. now rewrite has_in_old, get_in_old.
    + exact (proj2 (In_dedup _ _) Hin).
  - intros j Hj Hjl. rewrite Hframe by assumption. now apply lookup_app_old.
Qed.

(** C4 (amended).  Whenever the kind check of [update] does not stop the
    call (no descriptor is resolved for the configuration, or the chart is
    an instance of the resolved descriptor's constructor) and the
    configuration carries a [legend] object, the call returns and every key
    of [Legend.defaults] has been written on the chart's legend: with the
    value the configuration's legend has under that key when it has the key,
    else with the default of the table.  Nothing but the legend is assigned
    to. *)
Theorem update_legend_full_overwrite (h : heap) (ch lg cfg ol : loc) (cls lcls : ctor)
    (args largs : list value) (cps lps cfps : props) (p : string) :
  closed h = true ->
  h !! cfg = Some (OPlain cfps) -> assoc "legend" cfps = Some (VObject ol) ->
  h !! ch = Some (OInst cls args cps) -> assoc "legend" cps = Some (VObject lg) ->
  lg <> ch -> h !! lg = Some (OInst lcls largs lps) ->
  chart_type h (VObject cfg) = Ret (VString p) ->
  (getMapping p = Ret None \/
   exists fields, getMapping p = Ret (Some (MObject fields)) /\
     instanceof instance_of (VObject ch) fields h = (Ret true, h)) ->
  exists h',
    update instance_of Legend_defaults (VObject ch) (VObject cfg) h = (Ret tt, h') /\
    (forall key, In key (map fst Legend_defaults) ->
       get_in h' lg key =
         if has_in h ol key then get_in h ol key
         else default VUndefined (assoc key Legend_defaults)) /\
    (forall j, j < length h -> j <> lg -> h' !! j = h !! j).
Proof. apply update_overwrites_legend. Qed.

(** C10.  When the path resolved for the configuration has no descriptor in
    the registry, [update] makes no kind check (whatever the class of the
    chart and whatever [instanceof] would answer) and, the configuration
    carrying a [legend] object, still runs the legend loop on the chart's
    legend: every key of [Legend.defaults] is written there. *)
Theorem update_unresolved_type_overwrites_legend (h : heap) (ch lg cfg ol : loc)
    (cls lcls : ctor) (args largs : list value) (cps lps cfps : props) (p : string) :
  closed h = true ->
  h !! cfg = Some (OPlain cfps) -> assoc "legend" cfps = Some (VObject ol) ->
  h !! ch = Some (OInst cls args cps) -> assoc "legend" cps = Some (VObject lg) ->
  lg <> ch -> h !! lg = Some (OInst lcls largs lps) ->
  chart_type h (VObject cfg) = Ret (VString p) ->
  getMapping p = Ret None ->
  exists h',
    update instance_of Legend_defaults (VObject ch) (VObject cfg) h = (Ret tt, h') /\
    (forall key, In key (map fst Legend_defaults) ->
       get_in h' lg key =
         if has_in h ol key then get_in h ol key
         else default VUndefined (assoc key Legend_defaults)).
Proof.
  intros Hc Hcfg Hol Hch Hlegend Hne Hlg Hty Hnone.
  destruct (update_overwrites_legend h ch lg cfg ol cls lcls args largs cps lps cfps p)
    as (h' & Hrun & Hval & _); auto.
  exists h'. split; assumption.
Qed.

End UpdateFacts.

(** [setChartType] on a configuration without a truthy [type] assigns
    [options.type] the kind inferred from the type [st] of the first
    element under [series]; the kind is a function of [st] alone. *)
Lemma setChartType_infers (h : heap) (options t st : value) :
  read h options "type" = Ret t -> truthy t = false ->
  first_series_type h options = Ret st ->
  setChartType options h = set_prop options "type" (VString (infer_kind st)) h /\
  (registered (infer_kind st) st \/
   (infer_kind st = "cartesian" /\ forall c, ~ registered c st)) /\
  (st = VString "pie" -> infer_kind st = "polar") /\
  (forall h2 options2 t2,
     read h2 options2 "type" = Ret t2 -> truthy t2 = false ->
     first_series_type h2 options2 = Ret st ->
     setChartType options2 h2
       = set_prop options2 "type" (VString (infer_kind st)) h2) /\
  (truthy st = false -> infer_kind (VString "line") = infer_kind st).
Proof.
  intros Ht Hf Hst. split; [|split; [|split; [|split]]].
  - eapply setChartType_run; eauto.
  - apply infer_kind_spec.
  - intros ->. reflexivity.
  - intros h2 options2 t2 Ht2 Hf2 Hst2. eapply setChartType_run; eauto.
  - intros Hfalsy. unfold infer_kind at 2. now rewrite find_chart_type_falsy.
Qed.

(** ** Defaults *)

Lemma set_prop_object (h : heap) (l : loc) (o : object) (k : string) (x : value) :
  h !! l = Some o -> is_array_object o = false ->
  exists o', set_own o k x = Some o' /\ is_array_object o' = false /\
             set_prop (VObject l) k x h = (Ret tt, <[l:=o']> h).
Proof.
  intros Hl Ha. unfold set_prop. rewrite Hl.
  destruct o; try discriminate; simpl; eexists; repeat split.
Qed.

Lemma existsb_eqb_cons_ne (k k' : string) (l : list string) :
  k' <> k -> existsb (String.eqb k) (k' :: l) = existsb (String.eqb k) l.
Proof.
  intros H. simpl. destruct (String.eqb_spec k k'); [congruence|reflexivity].
Qed.

Lemma for_each_merge (d : props) (l : loc) (keys : list string) :
  NoDup keys ->
  forall (h : heap) (o : object),
  h !! l = Some o -> is_array_object o = false ->
  exists h',
    for_each keys (merge_default (VObject l) d) h = (Ret tt, h') /\
    (forall key,
       get_in h' l key =
         if existsb (String.eqb key) keys && negb (truthy (get_in h l key))
         then default VUndefined (assoc key d) else get_in h l key) /\
    (forall j, j <> l -> h' !! j = h !! j).
Proof.
  induction 1 as [|key keys Hnotin Hnd IH]; intros h o Hl Ha.
  - exists h. repeat split; auto.
  - rewrite list_elem_of_In in Hnotin.
    assert (Hnk : existsb (String.eqb key) keys = false).
    { destruct (existsb (String.eqb key) keys) eqn:E; [|reflexivity].
      apply existsb_eqb_In in E. contradiction. }
    set (x := default VUndefined (assoc key d)).
    destruct (truthy (get_in h l key)) eqn:Ht.
    + assert (Hstep : merge_default (VObject l) d key h = (Ret tt, h)).
      { unfold merge_default.
        rewrite (bind_ret _ _ h h (get_in h l key)) by reflexivity.
        now rewrite Ht. }
      destruct (IH h o Hl Ha) as (h' & Hrun & Hval & Hframe).
      exists h'. split; [|split; [|exact Hframe]].
      * cbn [for_each]. now rewrite (bind_ret _ _ _ _ _ Hstep).
      * intros key'. rewrite Hval. destruct (String.eqb_spec key' key) as [->|Hne].
        -- rewrite Hnk. simpl. rewrite String.eqb_refl, Ht. reflexivity.
        -- rewrite existsb_eqb_cons_ne by congruence. reflexivity.
    + destruct (set_prop_object h l o key x Hl Ha) as (o' & Hset & Ha' & Hsp).
      assert (Hlt : l < length h) by (eapply lookup_lt_Some; eauto).
      assert (Hstep : merge_default (VObject l) d key h = (Ret tt, <[l:=o']> h)).
      { unfold merge_default.
        rewrite (bind_ret _ _ h h (get_in h l key)) by reflexivity.
        rewrite Ht. exact Hsp. }
      destruct (IH (<[l:=o']> h) o') as (h' & Hrun & Hval & Hframe);
        [now apply list_lookup_insert_eq|assumption|].
      exists h'. split; [|split].
      * cbn [for_each]. now rewrite (bind_ret _ _ _ _ _ Hstep).
      * intros key'. rewrite Hval. destruct (String.eqb_spec key' key) as [->|Hne].
        -- rewrite Hnk. simpl. rewrite String.eqb_refl, Ht. simpl.
           unfold get_in. erewrite lookup_chain_here; [reflexivity| |].
           ++ now apply list_lookup_insert_eq.
           ++ eapply get_own_set_own; eauto.
        -- rewrite existsb_eqb_cons_ne by congruence.
           assert (E : get_in (<[l:=o']> h) l key' = get_in h l key').
           { unfold get_in. erewrite lookup_chain_set_other; eauto. }
           now rewrite E.
      * intros j Hj. rewrite Hframe by assumption.
        apply list_lookup_insert_ne. congruence.
Qed.

(** The defaults merge on any object that is not an array: a key of the
    defaults whose value in the object is absent or falsy gets the default;
    every other property reads as before. *)
Lemma setComponentDefaults_merge (h : heap) (l : loc) (o : object)
    (fields : list (string * mapping)) (d : props) :
  h !! l = Some o -> is_array_object o = false ->
  assoc "defaults" fields = Some (MDefaults d) ->
  exists h',
    setComponentDefaults (VObject l) fields h = (Ret tt, h') /\
    (forall key,
       get_in h' l key =
         if existsb (String.eqb key) (map fst d) && negb (truthy (get_in h l key))
         then default VUndefined (assoc key d) else get_in h l key) /\
    (forall j, j <> l -> h' !! j = h !! j).
Proof.
  intros Hl Ha Hd. unfold setComponentDefaults. rewrite Hd.
  destruct (for_each_merge d l (dedup (map fst d)) (NoDup_dedup _) h o Hl Ha)
    as (h' & Hrun & Hval & Hframe).
  exists h'. split; [exact Hrun|split; [|exact Hframe]].
  intros key. rewrite Hval.
  replace (existsb (String.eqb key) (dedup (map fst d)))
    with (existsb (String.eqb key) (map fst d)); [reflexivity|].
  apply eq_true_iff_eq. rewrite !existsb_eqb_In. symmetry. apply In_dedup.
Qed.

(** ** Runs that keep away from a region of the heap *)

Lemma get_own_values (o : object) (k : string) (v : value) :
  get_own o k = Some v -> In v (obj_values o) \/ exists z, v = VNumber z.
Proof.
  destruct o; simpl; intros H.
  - left. eapply assoc_In; eauto.
  - left. right. eapply assoc_In; eauto.
  - destruct (array_index k).
    + left. apply in_or_app. left. apply list_elem_of_In.
      eapply list_elem_of_lookup_2; eauto.
    + destruct (String.eqb k "length").
      * right. inversion H. eauto.
      * left. apply in_or_app. right. eapply assoc_In; eauto.
  - left. apply in_or_app. right. eapply assoc_In; eauto.
Qed.

Lemma lookup_chain_values (h : heap) (n : nat) (l : loc) (k : string) (v : value) :
  lookup_chain h n l k = Some v ->
  exists l' o, h !! l' = Some o /\ get_own o k = Some v.
Proof.
  revert l. induction n as [|n IH]; intros l; cbn [lookup_chain];
    destruct (h !! l) as [o|] eqn:Hl; try discriminate;
    destruct (get_own o k) eqn:Hg.
  - intros H; inversion H; subst. eauto.
  - destruct o; discriminate.
  - intros H; inversion H; subst. eauto.
  - destruct o; try discriminate. destruct (Nat.ltb proto l); [apply IH|discriminate].
Qed.

Lemma set_own_values (o o' : object) (k : string) (x v : value) :
  set_own o k x = Some o' -> In v (obj_values o') ->
  v = x \/ v = VUndefined \/ In v (obj_values o).
Proof.
  destruct o; simpl; intros H Hv.
  - inversion H; subst. simpl in Hv. destruct (assoc_set_values _ _ _ _ Hv); auto.
  - inversion H; subst. simpl in Hv. destruct Hv as [<-|Hv]; [right; right; now left|].
    destruct (assoc_set_values _ _ _ _ Hv); simpl; auto.
  - destruct (array_index k).
    + destruct (Nat.ltb n (length elems)); inversion H; subst; simpl in Hv;
        apply in_app_or in Hv; destruct Hv as [Hv|Hv].
      * apply list_elem_of_In in Hv. apply list_elem_of_lookup in Hv.
        destruct Hv as [i Hi]. destruct (Nat.eq_dec n i) as [->|Hne].
        -- apply list_lookup_insert_Some in Hi.
           destruct Hi as [(_ & -> & _)|(Hc & _)]; [now left|congruence].
        -- rewrite list_lookup_insert_ne in Hi by assumption.
           right; right. apply in_or_app. left. apply list_elem_of_In.
           eapply list_elem_of_lookup_2; eauto.
      * right; right. apply in_or_app. now right.
      * apply in_app_or in Hv. destruct Hv as [Hv|Hv].
        -- right; right. apply in_or_app. now left.
        -- apply in_app_or in Hv. destruct Hv as [Hv|Hv].
           ++ right; left. apply list_elem_of_In, elem_of_replicate in Hv. tauto.
           ++ destruct Hv as [<-|[]]. now left.
      * right; right. apply in_or_app. now right.
    + destruct (String.eqb k "length"); [discriminate|]. inversion H; subst.
      simpl in Hv. apply in_app_or in Hv. destruct Hv as [Hv|Hv].
      * right; right. apply in_or_app. now left.
      * destruct (assoc_set_values _ _ _ _ Hv); auto.
        right; right. apply in_or_app. now right.
  - inversion H; subst. simpl in Hv. apply in_app_or in Hv. destruct Hv as [Hv|Hv].
    + right; right. apply in_or_app. now left.
    + destruct (assoc_set_values _ _ _ _ Hv); auto.
      right; right. apply in_or_app. now right.
Qed.

Lemma lookup_chain_outside (T : loc -> Prop) (h : heap) (n : nat) (l : loc)
    (k : string) (v : value) :
  (forall l o v, h !! l = Some o -> ~ T l -> In v (obj_values o) -> outside T v) ->
  (forall o w, h !! l = Some o -> In w (obj_values o) -> outside T w) ->
  lookup_chain h n l k = Some v -> outside T v.
Proof.
  intros Hcl. revert l.
  assert (Hown : forall o, (forall w, In w (obj_values o) -> outside T w) ->
            get_own o k = Some v -> outside T v).
  { intros o Hfirst Hg. apply get_own_values in Hg.
    destruct Hg as [Hin|[z ->]]; [now apply Hfirst|intros j E; discriminate]. }
  induction n as [|n IH]; intros l Hfirst; cbn [lookup_chain];
    destruct (h !! l) as [o|] eqn:Hl; try discriminate;
    destruct (get_own o k) eqn:Hg.
  - intros H; inversion H; subst. exact (Hown o (fun w => Hfirst o w eq_refl) Hg).
  - destruct o; discriminate.
  - intros H; inversion H; subst. exact (Hown o (fun w => Hfirst o w eq_refl) Hg).
  - destruct o as [ps|proto ps|elems ps|cls args ps]; try discriminate.
    destruct (Nat.ltb proto l); [|discriminate]. apply IH.
    intros o w Ho Hw. apply (Hcl proto o w Ho); [|assumption].
    apply (Hfirst _ (VObject proto) eq_refl); [now left|reflexivity].
Qed.

Lemma outside_string (T : loc -> Prop) (s : string) : outside T (VString s).
Proof. intros l E. discriminate. Qed.

Lemma outside_undefined (T : loc -> Prop) : outside T VUndefined.
Proof. intros l E. discriminate. Qed.

Lemma outside_number (T : loc -> Prop) (z : Z) : outside T (VNumber z).
Proof. intros l E. discriminate. Qed.

Section Safe.

Variable components : ctor -> list (string * ctor).
Variable T : loc -> Prop.
Variable Inv : heap -> Prop.
Hypothesis Inv_framed : framed T Inv.

Local Abbreviation okv := (outside T).
Local Abbreviation Safe := (safe T Inv).

Lemma safe_ret {A : Type} (a : A) (post : A -> Prop) : post a -> Safe (ret a) post.
Proof. intros Ha h r h' Hi H. inversion H; subst. auto. Qed.

Lemma safe_throw {A : Type} (e : error) (post : A -> Prop) : Safe (throw e) post.
Proof. intros h r h' Hi H. inversion H; subst. auto. Qed.

Lemma safe_lift {A : Type} (o : outcome A) : Safe (lift o) (fun _ => True).
Proof. intros h r h' Hi H. inversion H; subst. split; [auto|now destruct r]. Qed.

Lemma safe_bind {A B : Type} (m : M A) (f : A -> M B) (P : A -> Prop) (Q : B -> Prop) :
  Safe m P -> (forall a, P a -> Safe (f a) Q) -> Safe (bind m f) Q.
Proof.
  intros Hm Hf h r h' Hi H. apply bind_inv in H.
  destruct H as [(a & h1 & H1 & H2)|(e & H1 & ->)].
  - destruct (Hm _ _ _ Hi H1) as [Hi1 Ha]. eapply Hf; eauto.
  - destruct (Hm _ _ _ Hi H1) as [Hi1 _]. auto.
Qed.

Lemma safe_weaken {A : Type} (m : M A) (P Q : A -> Prop) :
  Safe m P -> (forall a, P a -> Q a) -> Safe m Q.
Proof.
  intros Hm HPQ h r h' Hi H. destruct (Hm _ _ _ Hi H) as [Hi' Hr].
  split; [assumption|]. destruct r; auto.
Qed.

Lemma read_outside (h : heap) (v w : value) (k : string) :
  guards T Inv h -> okv v -> read h v k = Ret w -> okv w.
Proof.
  intros (_ & Hcl & _) Hv. destruct v; simpl; try discriminate; intros H;
    inversion H; subst; try (intros j E; discriminate).
  - unfold string_prop. destruct (array_index k).
    + destruct (String.get n s); intros j E; discriminate.
    + destruct (String.eqb k "length"); intros j E; discriminate.
  - unfold get_in. destruct (lookup_chain h l l k) as [w|] eqn:E;
      [|apply outside_undefined].
    simpl. apply (lookup_chain_outside T) in E; [assumption|assumption|].
    intros o w' Ho Hw. apply (Hcl l o w' Ho); [now apply Hv|assumption].
Qed.

Lemma safe_get_prop (v : value) (k : string) : okv v -> Safe (get_prop v k) okv.
Proof.
  intros Hv h r h' Hi H. inversion H; subst. split; [assumption|].
  destruct (read h' v k) eqn:E; [|exact I].
  eapply read_outside; eauto.
Qed.

(** A read from an object of the region, when what it finds is outside. *)
Lemma safe_get_when (v : value) (k : string) :
  (forall h w, guards T Inv h -> read h v k = Ret w -> okv w) ->
  Safe (get_prop v k) okv.
Proof.
  intros Hv h r h' Hi H. inversion H; subst. split; [assumption|].
  destruct (read h' v k) eqn:E; [|exact I]. eapply Hv; eauto.
Qed.

Lemma safe_has_prop (v : value) (k : string) : Safe (has_prop k v) (fun _ => True).
Proof.
  intros h r h' Hi H. inversion H; subst. split; [assumption|]. now destruct (has h' k v).
Qed.

Lemma safe_to_string (v : value) : Safe (to_string v) (fun _ => True).
Proof.
  intros h r h' Hi H. unfold to_string in H.
  destruct v as [| |[]|z| | |]; try destruct (Z.ltb _ _); inversion H; subst; auto.
Qed.

Lemma safe_forin_keys (v : value) : Safe (forin_keys v) (fun _ => True).
Proof. intros h r h' Hi H. destruct v; inversion H; subst; auto. Qed.

Lemma safe_is_array (v : value) : Safe (is_array v) (fun _ => True).
Proof.
  intros h r h' Hi H. unfold is_array in H.
  destruct v; try (inversion H; subst; auto; fail).
  destruct (h !! l) as [[]|]; inversion H; subst; auto.
Qed.

Lemma safe_array_elems (v : value) : okv v -> Safe (array_elems v) (Forall okv).
Proof.
  intros Hv h r h' Hi H. unfold array_elems in H.
  destruct v; try (inversion H; subst; auto; fail).
  destruct (h !! l) as [[]|] eqn:Hl; inversion H; subst; auto.
  split; [assumption|]. apply List.Forall_forall. intros x Hx.
  destruct Hi as (_ & Hcl & _). apply (Hcl l _ x Hl); [now apply Hv|].
  simpl. apply in_or_app. now left.
Qed.

Lemma safe_resolve_path (path : option string) (t : value) :
  Safe (resolve_path path t) (fun _ => True).
Proof.
  unfold resolve_path. destruct (path_falsy path).
  - destruct t; try apply safe_throw; now apply safe_ret.
  - destruct (truthy t); [|now apply safe_ret].
    eapply safe_bind; [apply safe_to_string|]. intros. now apply safe_ret.
Qed.

(** An assignment on an object outside the region. *)
Lemma safe_set_prop (v x : value) (k : string) :
  okv v -> okv x -> Safe (set_prop v k x) (fun _ => True).
Proof.
  intros Hv Hx h r h' Hi H.
  destruct v; simpl in H; try (inversion H; subst; split; [assumption|exact I]).
  destruct (h !! l) as [o|] eqn:Hl;
    [|inversion H; subst; split; [assumption|exact I]].
  destruct (set_own o k x) as [o'|] eqn:Hs;
    [|inversion H; subst; split; [assumption|exact I]].
  inversion H; subst. split; [|exact I].
  destruct Hi as (Hdom & Hcl & HI).
  assert (HTl : ~ T l) by now apply Hv.
  assert (Hll : l < length h) by (eapply lookup_lt_Some; eauto).
  split; [|split].
  - intros j Hj. rewrite length_insert. now apply Hdom.
  - intros j oj w Hj HTj Hin. destruct (Nat.eq_dec l j) as [->|Hne].
    + rewrite list_lookup_insert_eq in Hj by assumption. inversion Hj; subst oj.
      destruct (set_own_values _ _ _ _ _ Hs Hin) as [E|[E|E]].
      * now subst.
      * subst. apply outside_undefined.
      * eapply Hcl; eauto.
    + rewrite list_lookup_insert_ne in Hj by assumption. eapply Hcl; eauto.
  - apply (Inv_framed h); [assumption|]. intros j Hj.
    apply list_lookup_insert_ne. intros ->. contradiction.
Qed.

(** An assignment on an object of the region, when [Inv] allows it. *)
Lemma safe_set_inside (l : loc) (x : value) (k : string) :
  T l ->
  (forall h o o', guards T Inv h -> h !! l = Some o -> set_own o k x = Some o' ->
     Inv (<[l := o']> h)) ->
  Safe (set_prop (VObject l) k x) (fun _ => True).
Proof.
  intros HTl Hstep h r h' Hi H. simpl in H.
  destruct (h !! l) as [o|] eqn:Hl;
    [|inversion H; subst; split; [assumption|exact I]].
  destruct (set_own o k x) as [o'|] eqn:Hs;
    [|inversion H; subst; split; [assumption|exact I]].
  inversion H; subst. split; [|exact I].
  pose proof Hi as (Hdom & Hcl & HI).
  split; [|split].
  - intros j Hj. rewrite length_insert. now apply Hdom.
  - intros j oj w Hj HTj Hin.
    rewrite list_lookup_insert_ne in Hj by (intros ->; contradiction).
    eapply Hcl; eauto.
  - eapply Hstep; eauto.
Qed.

Lemma guards_app (h ext : heap) :
  guards T Inv h ->
  (forall o v, In o ext -> In v (obj_values o) -> okv v) ->
  guards T Inv (h ++ ext).
Proof.
  intros (Hdom & Hcl & HI) Hext. split; [|split].
  - intros l Hl. rewrite length_app. specialize (Hdom l Hl). lia.
  - intros l o v Hl HTl Hin. destruct (Nat.lt_ge_cases l (length h)) as [Hlo|Hhi].
    + rewrite lookup_app_l in Hl by assumption. eapply Hcl; eauto.
    + rewrite lookup_app_r in Hl by assumption.
      assert (Ho : In o ext)
        by (apply list_elem_of_In; eapply list_elem_of_lookup_2; eauto).
      now apply (Hext o _ Ho Hin).
  - apply (Inv_framed h); [assumption|]. intros l Hl.
    apply lookup_app_l. now apply Hdom.
Qed.

Lemma fresh_outside (h : heap) (l : loc) :
  guards T Inv h -> length h <= l -> okv (VObject l).
Proof.
  intros (Hdom & _) Hl j E HT. inversion E; subst j. specialize (Hdom l HT). lia.
Qed.

Lemma safe_alloc (o : object) :
  (forall v, In v (obj_values o) -> okv v) -> Safe (alloc o) okv.
Proof.
  intros Ho h r h' Hi H. inversion H; subst. split.
  - apply guards_app; [assumption|]. intros o' v [<-|[]] Hv. now apply Ho.
  - eapply fresh_outside; eauto.
Qed.

Lemma safe_new_instance (cls : ctor) (args : list value) :
  Forall okv args -> Safe (new_instance components cls args) okv.
Proof.
  intros Hargs h r h' Hi H. unfold new_instance in H. inversion H; subst.
  split.
  - apply guards_app; [assumption|]. intros o v Ho Hv.
    apply in_app_or in Ho. destruct Ho as [Ho|[<-|[]]].
    + apply in_map_iff in Ho. destruct Ho as (nc & <- & _). destruct Hv.
    + simpl in Hv. apply in_app_or in Hv. destruct Hv as [Hv|Hv].
      * rewrite List.Forall_forall in Hargs. now apply Hargs.
      * apply in_map_iff in Hv. destruct Hv as ([k w] & <- & Hkw). simpl.
        apply list_elem_of_In, list_elem_of_lookup in Hkw. destruct Hkw as [i Hi'].
        rewrite list_lookup_imap in Hi'.
        destruct (components cls !! i) as [nc|]; simpl in Hi'; [|discriminate].
        inversion Hi'; subst. eapply fresh_outside; eauto. lia.
  - eapply fresh_outside; eauto. lia.
Qed.

Lemma safe_construct (fields : list (string * mapping)) (args : list value) :
  Forall okv args -> Safe (construct components fields args) okv.
Proof.
  intros Hargs. unfold construct.
  destruct (assoc "constructor" fields) as [[]|]; try apply safe_throw.
  - now apply safe_new_instance.
  - destruct args; [|apply safe_throw]. apply safe_alloc. intros v [].
Qed.

Lemma safe_for_each {A : Type} (l : list A) (body : A -> M unit) :
  (forall x, In x l -> Safe (body x) (fun _ => True)) ->
  Safe (for_each l body) (fun _ => True).
Proof.
  induction l as [|x l IH]; intros Hb; simpl.
  - now apply safe_ret.
  - eapply safe_bind; [apply Hb; now left|].
    intros _ _. apply IH. intros y Hy. apply Hb. now right.
Qed.

Section Options.

(** The configuration may be an object of the region: what is read from it
    must then be outside, and an assignment to it must keep the invariant. *)
Variable options : value.
Hypothesis safe_get_option : forall k, Safe (get_prop options k) okv.
Hypothesis safe_set_option :
  forall k x, okv x -> Safe (set_prop options k x) (fun _ => True).

Lemma safe_setChartType : Safe (setChartType options) (fun _ => True).
Proof.
  unfold setChartType.
  eapply safe_bind; [apply safe_get_option|]. intros t _.
  destruct (truthy t); [now apply safe_ret|].
  eapply safe_bind; [apply safe_get_option|]. intros sv Hsv.
  eapply safe_bind with (P := okv).
  { destruct (truthy sv); [now apply safe_get_prop|now apply safe_ret]. }
  intros series Hs.
  eapply safe_bind with (P := okv).
  { destruct (truthy series); [now apply safe_get_prop|now apply safe_ret]. }
  intros st _.
  eapply safe_bind with (P := fun _ => True).
  { destruct (truthy st); [|now apply safe_ret].
    destruct (find_chart_type st); [|now apply safe_ret].
    apply safe_set_option, outside_string. }
  intros _ _. eapply safe_bind; [apply safe_get_option|]. intros t' _.
  destruct (truthy t'); [now apply safe_ret|]. apply safe_set_option, outside_string.
Qed.

Lemma safe_default_type (t : string) : Safe (default_type options t) (fun _ => True).
Proof.
  unfold default_type. eapply safe_bind; [apply safe_get_option|]. intros cur _.
  destruct (truthy cur); [now apply safe_ret|]. apply safe_set_option, outside_string.
Qed.

Lemma safe_setComponentType (path : option string) :
  Safe (setComponentType options path) (fun _ => True).
Proof.
  unfold setComponentType.
  eapply safe_bind with (P := fun _ => True).
  { destruct (path_falsy path); [apply safe_setChartType|now apply safe_ret]. }
  intros _ _. eapply safe_bind with (P := fun _ => True).
  { destruct (path_is path "cartesian.series");
      [apply safe_default_type|now apply safe_ret]. }
  intros _ _.
  destruct (path_is path "polar.series"); [apply safe_default_type|now apply safe_ret].
Qed.

Lemma safe_setComponentDefaults (fields : list (string * mapping)) :
  ~ T default_axes -> defaults_values_ok fields = true ->
  Safe (setComponentDefaults options fields) (fun _ => True).
Proof.
  intros Hc Hok. unfold setComponentDefaults. unfold defaults_values_ok in Hok.
  destruct (assoc "defaults" fields) as [[cl|l|d|fs]|];
    try apply safe_throw; [|now apply safe_ret].
  apply safe_for_each. intros key _. unfold merge_default.
  eapply safe_bind; [apply safe_get_option|]. intros cur _.
  destruct (truthy cur); [now apply safe_ret|]. apply safe_set_option.
  destruct (assoc key d) as [v|] eqn:E; simpl; [|apply outside_undefined].
  rewrite forallb_forall in Hok. pose proof (Hok v (assoc_In _ _ _ E)) as Hv.
  destruct v; try (intros j Ej; discriminate). apply Nat.eqb_eq in Hv. subst.
  intros j Ej. inversion Ej; subst j. exact Hc.
Qed.

Lemma safe_read_params (params : list string) :
  Safe (read_params options params) (Forall okv).
Proof.
  induction params as [|p params IH]; simpl.
  - now apply safe_ret.
  - eapply safe_bind; [apply safe_get_option|]. intros v Hv.
    eapply safe_bind; [apply IH|]. intros vs Hvs. apply safe_ret.
    destruct (defined v); auto.
Qed.

End Options.

Local Abbreviation rec_safe := (rec_safe T Inv).

Lemma safe_map_create (rec : value -> option string -> value -> M value)
    (elems : list value) (path : string) :
  rec_safe rec -> Forall okv elems -> Safe (map_create rec elems path) (Forall okv).
Proof.
  intros Hrec. induction 1 as [|config elems Hc Hel IH]; simpl.
  - now apply safe_ret.
  - eapply safe_bind; [apply Hrec; [assumption|apply outside_undefined]|].
    intros sub Hsub.
    eapply safe_bind; [apply IH|]. intros subs Hsubs. apply safe_ret.
    destruct (truthy sub); auto.
Qed.

(** One round of the loop over the keys.  The configuration and the
    component may be objects of the region: what is read from them under
    [key] must then be outside, and an assignment to the component under
    [key] must keep the invariant. *)
Lemma safe_process_key_at (rec : value -> option string -> value -> M value)
    (fields : list (string * mapping)) (path : string) (params : list string)
    (options component : value) (key : string) :
  rec_safe rec ->
  Safe (get_prop options key) okv ->
  (key <> "type" -> ~ In key params -> Safe (get_prop component key) okv) ->
  (key <> "type" -> ~ In key params ->
   forall x, okv x -> Safe (set_prop component key x) (fun _ => True)) ->
  Safe (process_key rec fields path params options component key) (fun _ => True).
Proof.
  intros Hrec Hopt Hget Hset. unfold process_key.
  destruct (String.eqb_spec key "type") as [|Hkt]; [now apply safe_ret|].
  destruct (existsb (String.eqb key) params) eqn:Hkp; [now apply safe_ret|].
  assert (Hnp : ~ In key params)
    by (intros Hin; apply existsb_eqb_In in Hin; congruence).
  cbn [orb].
  eapply safe_bind; [exact Hopt|]. intros value Hvalue.
  eapply safe_bind with (P := fun _ => True).
  { unfold key_in_mapping.
    destruct (assoc key fields), (builtin_name key);
      try apply safe_throw; now apply safe_ret. }
  intros known _.
  eapply safe_bind with (P := fun _ => True).
  { destruct known; [|now apply safe_ret]. unfold excluded.
    destruct (assoc "exclude" fields) as [[]|]; try apply safe_throw; now apply safe_ret. }
  intros excl _.
  destruct (known && negb excl); [|now apply Hset].
  eapply safe_bind; [apply safe_is_array|]. intros arr _. destruct arr.
  - eapply safe_bind; [now apply safe_array_elems|]. intros elems Helems.
    eapply safe_bind; [now apply safe_map_create|]. intros subs Hsubs.
    eapply safe_bind.
    + apply safe_alloc. simpl. intros v Hv. rewrite app_nil_r in Hv.
      rewrite List.Forall_forall in Hsubs. now apply Hsubs.
    + intros a Ha. now apply Hset.
  - eapply safe_bind; [now apply Hget|]. intros existing Hex.
    destruct (truthy existing).
    + eapply safe_bind; [now apply Hrec|]. intros. now apply safe_ret.
    + eapply safe_bind; [now apply safe_get_prop|]. intros t _.
      eapply safe_bind; [apply Hrec; [assumption|apply outside_undefined]|].
      intros sub Hsub. destruct (truthy sub); [now apply Hset|now apply safe_ret].
Qed.

Lemma safe_process_key (rec : value -> option string -> value -> M value)
    (fields : list (string * mapping)) (path : string) (params : list string)
    (options component : value) (key : string) :
  rec_safe rec -> okv options ->
  (key <> "type" -> ~ In key params -> Safe (get_prop component key) okv) ->
  (key <> "type" -> ~ In key params ->
   forall x, okv x -> Safe (set_prop component key x) (fun _ => True)) ->
  Safe (process_key rec fields path params options component key) (fun _ => True).
Proof.
  intros Hrec Hopt Hget Hset. apply safe_process_key_at; try assumption.
  now apply safe_get_prop.
Qed.


Lemma other_values_ok (fields : list (string * mapping)) (path : string) :
  getMapping path = Ret (Some (MObject fields)) -> defaults_values_ok fields = true.
Proof.
  intros H. apply (all_nodes_getMapping defaults_values_ok) in H; [|reflexivity].
  simpl in H. now apply andb_true_iff in H.
Qed.

Lemma safe_lift_eq {A : Type} (o : outcome A) : Safe (lift o) (fun a => o = Ret a).
Proof. intros h r h' Hi H. inversion H; subst. split; [auto|now destruct r]. Qed.

(** The body of [_create], on a configuration that may be an object of the
    region. *)
Lemma safe_create_body_at (rec : value -> option string -> value -> M value)
    (options : value) (path : option string) (component : value) :
  ~ T default_axes -> rec_safe rec ->
  (forall k, Safe (get_prop options k) okv) ->
  (forall k x, okv x -> Safe (set_prop options k x) (fun _ => True)) ->
  okv component ->
  Safe (create_body components rec options path component) okv.
Proof.
  intros Hc Hrec Hoget Hoset Hcomp. unfold create_body.
  destruct (is_object options); cbn [negb]; [|apply safe_ret, outside_undefined].
  eapply safe_bind; [now apply safe_setComponentType|]. intros _ _.
  eapply safe_bind; [apply Hoget|]. intros t _.
  eapply safe_bind; [apply safe_resolve_path|]. intros p _.
  eapply safe_bind; [apply safe_lift_eq|]. intros mapping Hmap.
  destruct mapping as [[cl|l|d|fields]|];
    try apply safe_throw; [|apply safe_ret, outside_undefined].
  eapply safe_bind;
    [apply safe_setComponentDefaults; eauto using other_values_ok|].
  intros _ _.
  eapply safe_bind with (P := fun _ => True).
  { unfold constructorParams.
    destruct (assoc "constructorParams" fields) as [[]|];
      try apply safe_throw; now apply safe_ret. }
  intros params _.
  eapply safe_bind; [now apply safe_read_params|]. intros values Hvalues.
  eapply safe_bind with (P := okv).
  { destruct (truthy component); [now apply safe_ret|now apply safe_construct]. }
  intros component' Hcomp'.
  eapply safe_bind; [apply safe_forin_keys|]. intros keys _.
  eapply safe_bind with (P := fun _ => True).
  - apply safe_for_each. intros key _. apply safe_process_key_at; try assumption.
    + apply Hoget.
    + intros _ _. now apply safe_get_prop.
    + intros _ _ x Hx. now apply safe_set_prop.
  - intros _ _. now apply safe_ret.
Qed.

Lemma safe_create_body (rec : value -> option string -> value -> M value)
    (options : value) (path : option string) (component : value) :
  ~ T default_axes -> rec_safe rec -> okv options -> okv component ->
  Safe (create_body components rec options path component) okv.
Proof.
  intros Hc Hrec Hopt Hcomp. apply safe_create_body_at; try assumption.
  - intros k. now apply safe_get_prop.
  - intros k x Hx. now apply safe_set_prop.
Qed.

End Safe.

(** [_create] keeps away from a region that nothing outside refers to, when
    it is not given an object of the region. *)
Lemma safe_create (components : ctor -> list (string * ctor)) (T : loc -> Prop)
    (Inv : heap -> Prop) (fuel : nat) :
  framed T Inv -> ~ T default_axes -> rec_safe T Inv (_create components fuel).
Proof.
  intros Hf Hc. induction fuel as [|n IH]; intros options path component Ho Hcomp.
  - apply safe_throw.
  - cbn [_create]. now apply safe_create_body.
Qed.

(** ** Constructor parameters *)

Lemma getMapping_params_ok (path : string) (fields : list (string * mapping)) :
  getMapping path = Ret (Some (MObject fields)) -> params_ok fields = true.
Proof.
  intros H. apply (all_nodes_getMapping params_ok) in H; [|reflexivity].
  simpl in H. now apply andb_true_iff in H.
Qed.

Lemma constructorParams_run (fields : list (string * mapping)) :
  params_ok fields = true -> constructorParams fields = ret (params_of fields).
Proof.
  unfold params_ok, constructorParams, params_of. intros H.
  apply andb_true_iff in H. destruct H as [_ H].
  destruct (assoc "constructorParams" fields) as [[]|]; try discriminate; reflexivity.
Qed.

Lemma params_ok_In (fields : list (string * mapping)) (p : string) :
  params_ok fields = true -> In p (params_of fields) ->
  p <> "type" /\ ~ In p (defaults_keys fields).
Proof.
  unfold params_ok. intros H Hin. apply andb_true_iff in H. destruct H as [H _].
  rewrite forallb_forall in H. specialize (H p Hin).
  apply andb_true_iff in H. destruct H as [H1 H2].
  apply negb_true_iff in H1, H2. split.
  - now apply String.eqb_neq.
  - intros Hd. apply (proj2 (existsb_eqb_In _ _)) in Hd. congruence.
Qed.

Lemma read_params_copy (h : heap) (cfg : loc) (ps : props) (params : list string) :
  cfg < length h -> (forall p, In p params -> assoc p ps = None) ->
  read_params (VObject (length h)) params (h ++ [ODerived cfg ps])
    = (Ret (List.filter defined (map (get_in h cfg) params)), h ++ [ODerived cfg ps]).
Proof.
  intros Hlt. induction params as [|p params IH]; intros Hps; simpl; [reflexivity|].
  rewrite (bind_ret _ _ _ (h ++ [ODerived cfg ps]) (get_in h cfg p)).
  - rewrite (bind_ret _ _ _ _ _ (IH (fun q Hq => Hps q (or_intror Hq)))).
    unfold ret. now destruct (defined (get_in h cfg p)).
  - unfold get_prop. rewrite read_copy by assumption.
    now rewrite (Hps p (or_introl eq_refl)).
Qed.

Lemma set_own_props (o o' : object) (k : string) (x : value) :
  set_own o k x = Some o' -> is_array_object o = false ->
  own_props o' = assoc_set k x (own_props o).
Proof. destruct o; simpl; intros H Ha; try discriminate; now inversion H. Qed.

Lemma closed_all_below (h : heap) : closed h = true -> all_below (length h) h.
Proof.
  intros Hc l o v Hl Hv. pose proof (closed_lookup h l o Hc Hl) as Ho.
  unfold obj_ok in Ho. rewrite forallb_forall in Ho. now apply Ho.
Qed.

Lemma val_ok_mono (n m : nat) (v : value) :
  n <= m -> val_ok n v = true -> val_ok m v = true.
Proof.
  intros Hle. destruct v; simpl; auto. intros H. apply Nat.ltb_lt in H.
  apply Nat.ltb_lt. lia.
Qed.

Section ConstructorParams.

Variable components : ctor -> list (string * ctor).

Lemma imap_assoc_None (base : nat) (subs : list (string * ctor)) (k : string) :
  ~ In k (map fst subs) ->
  assoc k (imap (fun i nc => (fst nc, VObject (base + i))) subs) = None.
Proof.
  revert base. induction subs as [|[n cl] subs IH]; intros base Hk; [reflexivity|].
  cbn [imap assoc fst]. destruct (String.eqb_spec k n) as [->|Hne].
  - exfalso. apply Hk. now left.
  - rewrite (imap_ext _ (fun i nc => (fst nc, VObject (S base + i)))).
    + apply IH. intros Hin. apply Hk. now right.
    + intros i x _. simpl. f_equal. f_equal. lia.
Qed.

Lemma construct_fresh (fields : list (string * mapping)) (args : list value)
    (h h3 : heap) (comp : value) :
  construct components fields args h = (Ret comp, h3) ->
  exists c o0,
    comp = VObject c /\ length h <= c /\ c < length h3 /\ h3 !! c = Some o0 /\
    (forall l, l < length h -> h3 !! l = h !! l) /\
    (forall l o v, h3 !! l = Some o -> length h <= l -> In v (obj_values o) ->
       In v args \/ exists j, v = VObject j /\ j < c) /\
    shape_of o0 = constructed_shape fields args /\
    (forall k, ~ In k (auto_names components fields) ->
       assoc k (own_props o0) = None).
Proof.
  unfold construct, constructed_shape, auto_names.
  destruct (assoc "constructor" fields) as [[cls|l|d|fs]|]; try discriminate.
  - unfold new_instance. intros H. inversion H; subst. clear H.
    set (subs := components cls).
    set (inst := OInst cls args
                   (imap (fun i nc => (fst nc, VObject (length h + i))) subs)).
    exists (length h + length subs), inst.
    assert (Hlen : length (h ++ map (fun nc => OInst (snd nc) [] []) subs)
                   = length h + length subs)
      by (rewrite length_app, length_map; reflexivity).
    assert (Hinst : (h ++ map (fun nc => OInst (snd nc) [] []) subs ++ [inst])
                      !! (length h + length subs) = Some inst).
    { rewrite app_assoc. rewrite <- Hlen. apply lookup_app_new. }
    repeat split; try assumption; try lia.
    + rewrite !length_app, length_map. simpl. lia.
    + intros l Hl. now apply lookup_app_old.
    + intros l o v Hl Hge Hv. rewrite lookup_app_r in Hl by assumption.
      apply list_elem_of_lookup_2, list_elem_of_In in Hl.
      apply in_app_or in Hl. destruct Hl as [Hl|[<-|[]]].
      * apply in_map_iff in Hl. destruct Hl as (nc & <- & _). destruct Hv.
      * simpl in Hv. apply in_app_or in Hv. destruct Hv as [Hv|Hv]; [now left|].
        right. apply in_map_iff in Hv. destruct Hv as ([k w] & <- & Hkw). simpl.
        apply list_elem_of_In, list_elem_of_lookup in Hkw. destruct Hkw as [i Hi].
        rewrite list_lookup_imap in Hi.
        destruct (subs !! i) as [nc|] eqn:Hsi; simpl in Hi; [|discriminate].
        inversion Hi; subst. exists (length h + i). split; [reflexivity|].
        apply lookup_lt_Some in Hsi. lia.
    + intros k Hk. simpl. now apply imap_assoc_None.
  - destruct args; [|discriminate]. intros H. inversion H; subst. clear H.
    exists (length h), (OPlain []). repeat split; try lia.
    + rewrite length_app. simpl. lia.
    + apply lookup_app_new.
    + intros l Hl. now apply lookup_app_old.
    + intros l o v Hl Hge Hv. rewrite lookup_app_r in Hl by assumption.
      apply list_elem_of_lookup_2, list_elem_of_In in Hl.
      destruct Hl as [<-|[]]. destruct Hv.
Qed.

(** C8.  A root configuration whose descriptor is [fields]: the instance
    that [create] returns was made by the descriptor's constructor from the
    values the configuration has under the names in [constructorParams], in
    that order, the undefined ones left out (not padded); and no property
    named like a constructor parameter has been assigned on the instance: it
    has none, unless the constructor itself made one of that name. *)
Theorem constructor_params_consumed (fuel : nat) (h h' : heap) (cfg c : loc)
    (p : string) (fields : list (string * mapping)) :
  closed h = true -> cfg < length h ->
  chart_type h (VObject cfg) = Ret (VString p) ->
  getMapping p = Ret (Some (MObject fields)) ->
  create components fuel (VObject cfg) h = (Ret (VObject c), h') ->
  exists o,
    h' !! c = Some o /\
    shape_of o =
      constructed_shape fields
        (List.filter defined (map (get_in h cfg) (params_of fields))) /\
    forall param, In param (params_of fields) ->
      ~ In param (auto_names components fields) ->
      assoc param (own_props o) = None.
Proof.
  intros Hc Hlt Hty Hmap Hrun.
  unfold create in Hrun.
  rewrite (bind_ret _ _ h (h ++ [ODerived cfg []]) (VObject (length h))) in Hrun
    by reflexivity.
  destruct fuel as [|n]; [discriminate|].
  cbn [_create] in Hrun. unfold create_body in Hrun. cbn [is_object negb] in Hrun.
  destruct (setComponentType_root h cfg (VString p) Hc Hlt Hty)
    as (ps1 & Hrun1 & Hread1 & Hps1 & Hvals1 & _).
  rewrite (bind_ret _ _ _ _ _ Hrun1) in Hrun.
  rewrite (bind_ret _ _ _ (h ++ [ODerived cfg ps1]) (VString p)) in Hrun
    by (unfold get_prop; now rewrite Hread1).
  rewrite (bind_ret _ _ _ (h ++ [ODerived cfg ps1]) p) in Hrun by reflexivity.
  rewrite (bind_ret _ _ _ (h ++ [ODerived cfg ps1]) (Some (MObject fields))) in Hrun
    by (unfold lift; now rewrite Hmap).
  assert (Hdok : defaults_ok fields = true) by (eapply getMapping_defaults_ok; eauto).
  assert (Hpok : params_ok fields = true) by (eapply getMapping_params_ok; eauto).
  assert (Hvok : defaults_values_ok fields = true) by (eapply other_values_ok; eauto).
  destruct (setComponentDefaults_copy h cfg fields ps1 Hdok Hlt)
    as (ps2 & Hrun2 & Hkeep & Hvals2).
  rewrite (bind_ret _ _ _ _ _ Hrun2) in Hrun.
  rewrite (constructorParams_run fields Hpok) in Hrun.
  rewrite (bind_ret _ _ _ (h ++ [ODerived cfg ps2]) (params_of fields)) in Hrun
    by reflexivity.
  assert (Hnone : forall q, In q (params_of fields) -> assoc q ps2 = None).
  { intros q Hq. destruct (params_ok_In fields q Hpok Hq) as [Hqt Hqd].
    rewrite Hkeep by assumption. now apply Hps1. }
  rewrite (bind_ret _ _ _ _ _ (read_params_copy h cfg ps2 (params_of fields) Hlt Hnone))
    in Hrun.
  cbn [truthy] in Hrun.
  set (values := List.filter defined (map (get_in h cfg) (params_of fields))) in *.
  set (H2 := h ++ [ODerived cfg ps2]) in *.
  apply bind_inv in Hrun.
  destruct Hrun as [(comp & H3 & Hcons & Hrun)|(e & _ & E)]; [|discriminate].
  apply bind_inv in Hrun.
  destruct Hrun as [(keys & H3' & Hkeys & Hrun)|(e & _ & E)]; [|discriminate].
  apply bind_inv in Hrun.
  destruct Hrun as [(u & h4 & Hloop & Hret)|(e & _ & E)]; [|discriminate].
  inversion Hret; subst comp h4. clear Hret.
  assert (H3' = H3) by (unfold forin_keys in Hkeys; now inversion Hkeys). subst H3'.
  destruct (construct_fresh fields values H2 H3 (VObject c) Hcons)
    as (c0 & o0 & Ec & Hge & Hlt3 & Hc0 & Hold & Hnew & Hshape & Hnames).
  inversion Ec; subst c0. clear Ec.
  assert (HlenH2 : length H2 = S (length h))
    by (unfold H2; rewrite length_app; simpl; lia).
  assert (Hvalues : forall v, In v values -> val_ok (length h) v = true).
  { intros v Hv. unfold values in Hv. apply filter_In in Hv. destruct Hv as [Hv _].
    apply in_map_iff in Hv. destruct Hv as (q & <- & _). now apply get_in_ok. }
  assert (Hbelow : all_below (length H2) H2).
  { intros l o v Hl Hv. unfold H2 in Hl.
    destruct (Nat.lt_ge_cases l (length h)) as [Hlo|Hhi].
    - rewrite lookup_app_old in Hl by assumption.
      apply (val_ok_mono (length h)); [lia|].
      eapply closed_all_below; eauto.
    - rewrite lookup_app_r in Hl by assumption.
      apply list_elem_of_lookup_2, list_elem_of_In in Hl.
      destruct Hl as [<-|[]]. simpl in Hv. destruct Hv as [<-|Hv].
      + simpl. apply Nat.ltb_lt. lia.
      + destruct (Hvals2 v Hv) as [H1|[->|(d & Hd & Hin)]]; [|reflexivity|].
        * destruct (Hvals1 v H1) as [s ->]. reflexivity.
        * unfold defaults_values_ok in Hvok. rewrite Hd in Hvok.
          rewrite forallb_forall in Hvok. specialize (Hvok v Hin).
          destruct v; try reflexivity. apply Nat.eqb_eq in Hvok. subst.
          simpl. apply Nat.ltb_lt. unfold default_axes. lia. }
  set (T := fun l : loc => l = c).
  set (Inv := fun H : heap =>
                exists o, H !! c = Some o /\
                  (forall v, In v (obj_values o) -> outside T v) /\
                  shape_of o = constructed_shape fields values /\
                  forall param, In param (params_of fields) ->
                    ~ In param (auto_names components fields) ->
                    assoc param (own_props o) = None).
  assert (Hframed : framed T Inv).
  { intros H H' (o & Ho & Hrest) Hsame. exists o. split; [|exact Hrest].
    now rewrite (Hsame c eq_refl). }
  assert (Hlow : forall v, val_ok (length H2) v = true -> outside T v).
  { intros v Hv j -> ->. simpl in Hv. apply Nat.ltb_lt in Hv. lia. }
  assert (Hnew' : forall l o v, H3 !! l = Some o -> length H2 <= l ->
                    In v (obj_values o) -> outside T v).
  { intros l o v Hl Hhi Hin. destruct (Hnew l o _ Hl Hhi Hin) as [Hv|(j & -> & Hj)].
    - apply Hlow. apply (val_ok_mono (length h)); [lia|]. now apply Hvalues.
    - intros j' E ->. inversion E. lia. }
  assert (Hprot : guards T Inv H3).
  { split; [|split].
    - intros l ->. exact Hlt3.
    - intros l o v Hl _ Hin. destruct (Nat.lt_ge_cases l (length H2)) as [Hlo|Hhi].
      + rewrite Hold in Hl by assumption. apply Hlow. eapply Hbelow; eauto.
      + eapply Hnew'; eauto.
    - exists o0. split; [exact Hc0|]. split; [|split; [exact Hshape|]].
      + intros v Hv. eapply Hnew'; eauto.
      + intros param _ Hn. now apply Hnames. }
  assert (Hc0ne : ~ T default_axes) by (unfold T, default_axes; lia).
  assert (Hbody : forall key, In key keys ->
            safe T Inv (process_key (_create components n) fields p (params_of fields)
                          (VObject (length h)) (VObject c) key) (fun _ => True)).
  { intros key _. apply safe_process_key.
    - exact Hframed.
    - now apply safe_create.
    - intros j E ->. inversion E. lia.
    - intros _ _. apply safe_get_when. intros H w (_ & Hcl & o & Ho & Hvals & _) Hr.
      simpl in Hr. inversion Hr; subst w. unfold get_in.
      destruct (lookup_chain H c c key) as [w|] eqn:E; [|apply outside_undefined].
      simpl. eapply lookup_chain_outside; [exact Hcl| |exact E].
      intros o' w' Ho' Hw'. rewrite Ho in Ho'. inversion Ho'; subst o'. now apply Hvals.
    - intros Hkt Hkp x Hx. apply safe_set_inside; [reflexivity|].
      intros H o o' (_ & _ & o1 & Ho1 & Hvals & Hsh & Hpr) Ho Hset.
      rewrite Ho1 in Ho. inversion Ho; subst o1. exists o'. split; [|split; [|split]].
      + apply list_lookup_insert_eq. eapply lookup_lt_Some; eauto.
      + intros v Hv. destruct (set_own_values _ _ _ _ _ Hset Hv) as [->|[->|Hin]];
          [exact Hx|apply outside_undefined|now apply Hvals].
      + rewrite <- Hsh. eapply set_own_shape; eauto.
      + intros param Hparam Hn.
        rewrite (set_own_props o o' key x Hset).
        * rewrite assoc_set_other; [now apply Hpr|]. intros ->. contradiction.
        * unfold constructed_shape in Hsh.
          destruct o; try reflexivity.
          destruct (assoc "constructor" fields) as [[]|]; discriminate. }
  destruct (safe_for_each T Inv keys _ Hbody H3 (Ret u) h' Hprot Hloop)
    as [(_ & _ & o & Ho & _ & Hsh & Hpr) _].
  exists o. repeat split; assumption.
Qed.

End ConstructorParams.

(** ** Runs of [_create] *)

Lemma get_prop_own (h : heap) (l : loc) (o : object) (k : string) (v : value) :
  h !! l = Some o -> get_own o k = Some v -> get_prop (VObject l) k h = (Ret v, h).
Proof.
  intros Hl Hg. unfold get_prop. simpl. unfold get_in.
  now rewrite (lookup_chain_here h l l o k v).
Qed.

Lemma get_prop_absent (h : heap) (l : loc) (o : object) (k : string) :
  h !! l = Some o -> get_own o k = None ->
  (forall p, shape_of o <> SDerived p) ->
  get_prop (VObject l) k h = (Ret VUndefined, h).
Proof.
  intros Hl Hg Hs. unfold get_prop. simpl. unfold get_in.
  destruct l; cbn [lookup_chain]; rewrite Hl, Hg; destruct o; try reflexivity;
    exfalso; eapply Hs; reflexivity.
Qed.

Lemma keys_in_plain (h : heap) (l : loc) (ps : props) :
  h !! l = Some (OPlain ps) -> keys_in h l = dedup (map fst ps).
Proof.
  intros Hl. unfold keys_in. destruct l; cbn [keys_chain]; rewrite Hl; simpl;
    now rewrite app_nil_r.
Qed.

Lemma keys_in_derived_plain (h : heap) (c p : loc) (ps cps : props) :
  h !! c = Some (ODerived p ps) -> p < c -> h !! p = Some (OPlain cps) ->
  keys_in h c = dedup (map fst ps ++ map fst cps).
Proof.
  intros Hc Hlt Hp. unfold keys_in. destruct c as [|c]; [lia|].
  cbn [keys_chain]. rewrite Hc. simpl own_keys.
  destruct (Nat.ltb_spec p (S c)); [|lia].
  destruct c; cbn [keys_chain]; rewrite Hp; simpl; now rewrite !app_nil_r.
Qed.

Lemma set_prop_last (pre : heap) (c : loc) (cls : ctor) (args : list value)
    (ps : props) (k : string) (x : value) :
  c = length pre ->
  set_prop (VObject c) k x (pre ++ [OInst cls args ps])
    = (Ret tt, pre ++ [OInst cls args (assoc_set k x ps)]).
Proof.
  intros ->. unfold set_prop. rewrite lookup_app_new. simpl.
  now rewrite insert_app_new.
Qed.

Section Runs.

Variable components : ctor -> list (string * ctor).

Lemma instance_heap_old (h : heap) (cls : ctor) (args : list value)
    (f : props -> props) (l : loc) :
  l < length h -> instance_heap components h cls args f !! l = h !! l.
Proof.
  intros H. unfold instance_heap. rewrite <- app_assoc. now apply lookup_app_old.
Qed.

Lemma instance_heap_length (h : heap) (cls : ctor) (args : list value)
    (f : props -> props) :
  length (instance_heap components h cls args f)
    = S (instance_loc components h cls).
Proof.
  unfold instance_heap, instance_loc. rewrite !length_app, length_map. simpl. lia.
Qed.

Lemma instance_heap_new (h : heap) (cls : ctor) (args : list value)
    (f : props -> props) :
  instance_heap components h cls args f !! instance_loc components h cls
    = Some (OInst cls args
              (f (imap (fun i nc => (fst nc, VObject (length h + i))) (components cls)))).
Proof.
  unfold instance_heap, instance_loc.
  replace (length h + length (components cls))
    with (length (h ++ map (fun nc => OInst (snd nc) [] []) (components cls)))
    by (rewrite length_app, length_map; reflexivity).
  apply lookup_app_new.
Qed.

Lemma new_instance_run (h : heap) (cls : ctor) (args : list value) :
  new_instance components cls args h
    = (Ret (VObject (instance_loc components h cls)),
       instance_heap components h cls args (fun ps => ps)).
Proof. unfold new_instance, instance_heap. now rewrite app_assoc. Qed.

Lemma instance_heap_set (h : heap) (cls : ctor) (args : list value)
    (f : props -> props) (k : string) (x : value) :
  set_prop (VObject (instance_loc components h cls)) k x
    (instance_heap components h cls args f)
  = (Ret tt, instance_heap components h cls args (fun ps => assoc_set k x (f ps))).
Proof.
  unfold instance_heap. apply set_prop_last.
  unfold instance_loc. now rewrite length_app, length_map.
Qed.

(** An axis configuration [{ type: t, position: v }] under [cartesian.axes]
    becomes an axis of the class registered for [t], with the position. *)
Lemma create_axis (n : nat) (h : heap) (i : loc) (t : string) (cls : ctor) (v : value) :
  h !! i = Some (OPlain [("type", VString t); ("position", v)]) ->
  (t = "category" /\ cls = "CategoryAxis") \/ (t = "number" /\ cls = "NumberAxis") ->
  _create components (S n) (VObject i) (Some "cartesian.axes") VUndefined h
    = (Ret (VObject (instance_loc components h cls)),
       instance_heap components h cls [] (fun ps => assoc_set "position" v ps)).
Proof.
  intros Hi Ht.
  assert (Hlt : i < length h) by (eapply lookup_lt_Some; eauto).
  cbn [_create]. unfold create_body. cbn [is_object negb].
  rewrite (bind_ret _ _ h h tt) by reflexivity.
  rewrite (bind_ret _ _ h h (VString t))
    by (eapply get_prop_own; [exact Hi|reflexivity]).
  destruct Ht as [[-> ->]|[-> ->]].
  - rewrite (bind_ret _ _ h h "cartesian.axes.category") by reflexivity.
    rewrite (bind_ret _ _ h h (Some (MObject (descriptor_fields "cartesian.axes.category"))))
      by reflexivity.
    rewrite (bind_ret _ _ h h tt) by reflexivity.
    rewrite (bind_ret _ _ h h []) by reflexivity.
    rewrite (bind_ret _ _ h h []) by reflexivity.
    cbn [truthy].
    rewrite (bind_ret _ _ _ _ _ (new_instance_run h "CategoryAxis" [])).
    rewrite (bind_ret _ _ _ (instance_heap components h "CategoryAxis" [] (fun ps => ps))
               ["type"; "position"]).
    2:{ unfold forin_keys.
        rewrite (keys_in_plain _ i [("type", VString "category"); ("position", v)])
          by (rewrite instance_heap_old by assumption; exact Hi).
        reflexivity. }
    cbn [for_each].
    rewrite (bind_ret _ _ _
               (instance_heap components h "CategoryAxis" []
                  (fun ps => assoc_set "position" v ps)) tt); [reflexivity|].
    rewrite (bind_ret _ _ _ (instance_heap components h "CategoryAxis" [] (fun ps => ps)) tt)
      by reflexivity.
    rewrite (bind_ret _ _ _
               (instance_heap components h "CategoryAxis" []
                  (fun ps => assoc_set "position" v ps)) tt); [reflexivity|].
    unfold process_key. cbn [String.eqb Ascii.eqb Bool.eqb existsb orb].
    rewrite (bind_ret _ _ _ (instance_heap components h "CategoryAxis" [] (fun ps => ps)) v)
      by (eapply get_prop_own;
          [rewrite instance_heap_old by assumption; exact Hi|reflexivity]).
    rewrite (bind_ret _ _ _ (instance_heap components h "CategoryAxis" [] (fun ps => ps)) false)
      by reflexivity.
    rewrite (bind_ret _ _ _ (instance_heap components h "CategoryAxis" [] (fun ps => ps)) false)
      by reflexivity.
    cbn [andb]. apply instance_heap_set.
  - rewrite (bind_ret _ _ h h "cartesian.axes.number") by reflexivity.
    rewrite (bind_ret _ _ h h (Some (MObject (descriptor_fields "cartesian.axes.number"))))
      by reflexivity.
    rewrite (bind_ret _ _ h h tt) by reflexivity.
    rewrite (bind_ret _ _ h h []) by reflexivity.
    rewrite (bind_ret _ _ h h []) by reflexivity.
    cbn [truthy].
    rewrite (bind_ret _ _ _ _ _ (new_instance_run h "NumberAxis" [])).
    rewrite (bind_ret _ _ _ (instance_heap components h "NumberAxis" [] (fun ps => ps))
               ["type"; "position"]).
    2:{ unfold forin_keys.
        rewrite (keys_in_plain _ i [("type", VString "number"); ("position", v)])
          by (rewrite instance_heap_old by assumption; exact Hi).
        reflexivity. }
    cbn [for_each].
    rewrite (bind_ret _ _ _
               (instance_heap components h "NumberAxis" []
                  (fun ps => assoc_set "position" v ps)) tt); [reflexivity|].
    rewrite (bind_ret _ _ _ (instance_heap components h "NumberAxis" [] (fun ps => ps)) tt)
      by reflexivity.
    rewrite (bind_ret _ _ _
               (instance_heap components h "NumberAxis" []
                  (fun ps => assoc_set "position" v ps)) tt); [reflexivity|].
    unfold process_key. cbn [String.eqb Ascii.eqb Bool.eqb existsb orb].
    rewrite (bind_ret _ _ _ (instance_heap components h "NumberAxis" [] (fun ps => ps)) v)
      by (eapply get_prop_own;
          [rewrite instance_heap_old by assumption; exact Hi|reflexivity]).
    rewrite (bind_ret _ _ _ (instance_heap components h "NumberAxis" [] (fun ps => ps)) false)
      by reflexivity.
    rewrite (bind_ret _ _ _ (instance_heap components h "NumberAxis" [] (fun ps => ps)) false)
      by reflexivity.
    cbn [andb]. apply instance_heap_set.
Qed.

Lemma bind_ret_r {A : Type} (m : M A) (h : heap) : bind m (fun x => ret x) h = m h.
Proof. unfold bind, ret. now destruct (m h) as [[a|e] h1]. Qed.

Lemma setComponentType_typed (h : heap) (v : value) (p0 t : string) :
  read h v "type" = Ret (VString t) -> t <> "" -> p0 <> "" ->
  setComponentType v (Some p0) h = (Ret tt, h).
Proof.
  intros Hr Ht Hp. unfold setComponentType. cbn [path_falsy].
  destruct (String.eqb_spec p0 ""); [contradiction|].
  assert (Hd : forall d, default_type v d h = (Ret tt, h)).
  { intros d. unfold default_type.
    rewrite (bind_ret _ _ h h (VString t)) by (unfold get_prop; now rewrite Hr).
    simpl. destruct (String.eqb_spec t ""); [contradiction|reflexivity]. }
  rewrite (bind_ret _ _ h h tt) by reflexivity.
  rewrite (bind_ret _ _ h h tt)
    by (destruct (path_is (Some p0) "cartesian.series"); [apply Hd|reflexivity]).
  destruct (path_is (Some p0) "polar.series"); [apply Hd|reflexivity].
Qed.

Lemma resolve_path_typed (h : heap) (p0 t : string) :
  t <> "" -> p0 <> "" ->
  resolve_path (Some p0) (VString t) h = (Ret (dot p0 t), h).
Proof.
  intros Ht Hp. unfold resolve_path. cbn [path_falsy].
  destruct (String.eqb_spec p0 ""); [contradiction|]. simpl.
  destruct (String.eqb_spec t ""); [contradiction|reflexivity].
Qed.

(** An element whose type is not registered under the path resolves to
    [undefined]: no instance is made, nothing is assigned. *)
Lemma create_unresolved (n : nat) (h : heap) (p0 : string) (v : value) :
  p0 <> "" -> unresolved h p0 v ->
  _create components (S n) v (Some p0) VUndefined h = (Ret VUndefined, h).
Proof.
  intros Hp (e & t & -> & Htype & Ht & Hmap).
  assert (Hr : read h (VObject e) "type" = Ret (VString t)) by (simpl; now rewrite Htype).
  cbn [_create]. unfold create_body. cbn [is_object negb].
  rewrite (bind_ret _ _ _ _ _ (setComponentType_typed h (VObject e) p0 t Hr Ht Hp)).
  rewrite (bind_ret _ _ h h (VString t)) by (unfold get_prop; now rewrite Hr).
  rewrite (bind_ret _ _ _ _ _ (resolve_path_typed h p0 t Ht Hp)).
  rewrite (bind_ret _ _ h h None) by (unfold lift; now rewrite Hmap).
  reflexivity.
Qed.

(** It is dropped from the sequence made of an array. *)
Lemma map_create_drop (n : nat) (h : heap) (p0 : string) (v : value)
    (elems : list value) :
  p0 <> "" -> unresolved h p0 v ->
  map_create (_create components (S n)) (v :: elems) p0 h
    = map_create (_create components (S n)) elems p0 h.
Proof.
  intros Hp Hv. cbn [map_create].
  rewrite (bind_ret _ _ _ _ _ (create_unresolved n h p0 v Hp Hv)).
  cbn [truthy]. apply bind_ret_r.
Qed.

Lemma map_create_unresolved (n : nat) (h : heap) (p0 : string) (elems : list value) :
  p0 <> "" -> Forall (unresolved h p0) elems ->
  map_create (_create components (S n)) elems p0 h = (Ret [], h).
Proof.
  intros Hp. induction 1 as [|v elems Hv Hel IH]; [reflexivity|].
  rewrite map_create_drop by assumption. exact IH.
Qed.

(** The loop body on a recognized key that holds an array. *)
Lemma process_key_array (rec : value -> option string -> value -> M value)
    (fields : list (string * mapping)) (path : string) (params : list string)
    (options component : value) (key : string) (h : heap) (a : loc)
    (elems : list value) (aps : props) (m : mapping) :
  String.eqb key "type" = false -> existsb (String.eqb key) params = false ->
  assoc key fields = Some m -> builtin_name key = false ->
  excluded fields key = ret false ->
  get_prop options key h = (Ret (VObject a), h) ->
  h !! a = Some (OArray elems aps) ->
  process_key rec fields path params options component key h
    = (let* subComponents := map_create rec elems (dot path key) in
       let* arr := alloc (OArray subComponents []) in
       set_prop component key arr) h.
Proof.
  intros Hkt Hkp Hm Hb Hex Hget Ha. unfold process_key. rewrite Hkt, Hkp. cbn [orb].
  rewrite (bind_ret _ _ _ _ _ Hget).
  unfold key_in_mapping. rewrite Hm, Hb.
  rewrite (bind_ret _ _ h h true) by reflexivity.
  rewrite Hex. rewrite (bind_ret _ _ h h false) by reflexivity. cbn [andb negb].
  rewrite (bind_ret _ _ h h true) by (unfold is_array; now rewrite Ha).
  rewrite (bind_ret _ _ h h elems) by (unfold array_elems; now rewrite Ha).
  reflexivity.
Qed.

(** On an array all of whose elements resolve to no descriptor: the
    component gets a new, empty array under the key, and nothing else
    changes. *)
Lemma process_key_unresolved (n : nat) (fields : list (string * mapping))
    (path : string) (params : list string) (options : value) (c : loc)
    (key : string) (h : heap) (a : loc) (elems : list value) (aps : props)
    (m : mapping) (cls : ctor) (args : list value) (ps : props) :
  String.eqb key "type" = false -> existsb (String.eqb key) params = false ->
  assoc key fields = Some m -> builtin_name key = false ->
  excluded fields key = ret false ->
  get_prop options key h = (Ret (VObject a), h) ->
  h !! a = Some (OArray elems aps) ->
  Forall (unresolved h (dot path key)) elems ->
  h !! c = Some (OInst cls args ps) ->
  process_key (_create components (S n)) fields path params options (VObject c) key h
    = (Ret tt,
       <[c := OInst cls args (assoc_set key (VObject (length h)) ps)]>
         (h ++ [OArray [] []])).
Proof.
  intros Hkt Hkp Hm Hb Hex Hget Ha Hel Hc.
  rewrite (process_key_array _ fields path params options (VObject c) key h a elems aps m)
    by assumption.
  rewrite (bind_ret _ _ h h []).
  - rewrite (bind_ret _ _ h (h ++ [OArray [] []]) (VObject (length h))) by reflexivity.
    unfold set_prop. rewrite lookup_app_old by (eapply lookup_lt_Some; eauto).
    now rewrite Hc.
  - apply map_create_unresolved; [|assumption].
    unfold dot. destruct path; discriminate.
Qed.

Lemma axes_heap_old (axs : list (ctor * value)) (h : heap) (l : loc) :
  l < length h -> axes_heap components h axs !! l = h !! l.
Proof.
  revert h. induction axs as [|a r IH]; intros h Hl; [reflexivity|].
  cbn [axes_heap]. rewrite IH.
  - now apply instance_heap_old.
  - rewrite instance_heap_length. unfold instance_loc. lia.
Qed.

Lemma axes_heap_length (axs : list (ctor * value)) (h : heap) :
  length h <= length (axes_heap components h axs).
Proof.
  revert h. induction axs as [|a r IH]; intros h; [reflexivity|].
  cbn [axes_heap]. etransitivity; [|apply IH].
  rewrite instance_heap_length. unfold instance_loc. lia.
Qed.

Lemma axis_config_old (h h' : heap) (v : value) (a : ctor * value) :
  (forall l, l < length h -> h' !! l = h !! l) ->
  axis_config h v a -> axis_config h' v a.
Proof.
  intros Hold (i & t & -> & Hi & Ht). exists i, t. repeat split; try assumption.
  rewrite Hold; [exact Hi|]. eapply lookup_lt_Some; eauto.
Qed.

Lemma map_create_axes (n : nat) (elems : list value) (axs : list (ctor * value))
    (h : heap) :
  Forall2 (axis_config h) elems axs ->
  map_create (_create components (S n)) elems "cartesian.axes" h
    = (Ret (axes_locs components h axs), axes_heap components h axs).
Proof.
  intros HF. revert h HF. revert elems.
  induction axs as [|a r IH]; intros elems h HF.
  - apply Forall2_nil_inv_r in HF. subst. reflexivity.
  - apply Forall2_cons_inv_r in HF. destruct HF as (v & elems' & Hv & Hr & ->).
    destruct Hv as (i & t & -> & Hi & Ht).
    cbn [map_create axes_locs axes_heap].
    rewrite (bind_ret _ _ _ _ _ (create_axis n h i t (fst a) (snd a) Hi Ht)).
    assert (Hr' : Forall2 (axis_config (instance_heap components h (fst a) []
                                          (fun ps => assoc_set "position" (snd a) ps)))
                    elems' r).
    { eapply Forall2_impl; [exact Hr|]. intros x y Hxy.
      eapply axis_config_old; [|exact Hxy].
      intros l Hl. now apply instance_heap_old. }
    rewrite (bind_ret _ _ _ _ _ (IH elems' _ Hr')). reflexivity.
Qed.

Lemma axes_built (axs : list (ctor * value)) (h : heap) :
  Forall2 (axis_built (axes_heap components h axs)) (axes_locs components h axs) axs.
Proof.
  revert h. induction axs as [|a r IH]; intros h; [constructor|].
  cbn [axes_heap axes_locs]. constructor; [|apply IH].
  eexists _, _. split; [reflexivity|]. split.
  - rewrite axes_heap_old
      by (rewrite instance_heap_length; unfold instance_loc; lia).
    apply instance_heap_new.
  - apply assoc_set_same.
Qed.

(** The loop body on [axes] holding an array of axis configurations. *)
Lemma process_key_axes (n : nat) (options : value) (c a : loc) (h : heap)
    (elems : list value) (aps : props) (axs : list (ctor * value))
    (cls : ctor) (args : list value) (ps : props) :
  get_prop options "axes" h = (Ret (VObject a), h) ->
  h !! a = Some (OArray elems aps) ->
  Forall2 (axis_config h) elems axs ->
  h !! c = Some (OInst cls args ps) ->
  process_key (_create components (S n)) (descriptor_fields "cartesian") "cartesian"
    ["document"] options (VObject c) "axes" h
  = (Ret tt,
     <[c := OInst cls args
              (assoc_set "axes" (VObject (length (axes_heap components h axs))) ps)]>
       (axes_heap components h axs ++ [OArray (axes_locs components h axs) []])).
Proof.
  intros Hget Ha HF Hc.
  rewrite (process_key_array _ _ "cartesian" ["document"] options (VObject c) "axes"
             h a elems aps (MObject (descriptor_fields "cartesian.axes")))
    by (try assumption; reflexivity).
  change (dot "cartesian" "axes") with "cartesian.axes".
  rewrite (bind_ret _ _ _ _ _ (map_create_axes n elems axs h HF)).
  rewrite (bind_ret _ _ _
             (axes_heap components h axs ++ [OArray (axes_locs components h axs) []])
             (VObject (length (axes_heap components h axs)))) by reflexivity.
  assert (Hlt : c < length h) by (eapply lookup_lt_Some; eauto).
  unfold set_prop. rewrite lookup_app_old by (pose proof (axes_heap_length axs h); lia).
  rewrite axes_heap_old by assumption. now rewrite Hc.
Qed.

(** [create] on a configuration literal of type [cartesian] without a
    [document]: up to the loop over the keys. *)
Lemma create_cartesian (n : nat) (h : heap) (cfg : loc) (cps : props) :
  h !! cfg = Some (OPlain cps) ->
  assoc "type" cps = Some (VString "cartesian") ->
  assoc "document" cps = None ->
  create components (S n) (VObject cfg) h =
    (let* _ :=
       for_each (dedup (map fst (merged_axes cps) ++ map fst cps))
         (process_key (_create components n) (descriptor_fields "cartesian")
            "cartesian" ["document"] (VObject (length h))
            (VObject (instance_loc components (h ++ [ODerived cfg (merged_axes cps)])
                        "CartesianChart"))) in
     ret (VObject (instance_loc components (h ++ [ODerived cfg (merged_axes cps)])
                     "CartesianChart")))
    (instance_heap components (h ++ [ODerived cfg (merged_axes cps)])
       "CartesianChart" [] (fun ps => ps)).
Proof.
  intros Hcfg Htype Hdoc.
  assert (Hlt : cfg < length h) by (eapply lookup_lt_Some; eauto).
  assert (Hget : forall k, get_in h cfg k = default VUndefined (assoc k cps))
    by (intros k; now apply get_in_plain).
  unfold create.
  rewrite (bind_ret _ _ h (h ++ [ODerived cfg []]) (VObject (length h))) by reflexivity.
  cbn [_create]. unfold create_body. cbn [is_object negb].
  assert (Htype0 : get_prop (VObject (length h)) "type" (h ++ [ODerived cfg []])
                   = (Ret (VString "cartesian"), h ++ [ODerived cfg []])).
  { unfold get_prop. rewrite read_copy by assumption. simpl.
    now rewrite Hget, Htype. }
  rewrite (bind_ret _ _ _ (h ++ [ODerived cfg []]) tt).
  2:{ unfold setComponentType. cbn [path_falsy path_is].
      rewrite (bind_ret _ _ _ (h ++ [ODerived cfg []]) tt); [reflexivity|].
      unfold setChartType. now rewrite (bind_ret _ _ _ _ _ Htype0). }
  rewrite (bind_ret _ _ _ _ _ Htype0).
  rewrite (bind_ret _ _ _ (h ++ [ODerived cfg []]) "cartesian") by reflexivity.
  rewrite (bind_ret _ _ _ (h ++ [ODerived cfg []])
             (Some (MObject (descriptor_fields "cartesian")))) by reflexivity.
  rewrite (bind_ret _ _ _ (h ++ [ODerived cfg (merged_axes cps)]) tt).
  2:{ change (setComponentDefaults (VObject (length h)) (descriptor_fields "cartesian"))
        with (for_each ["axes"]
                (merge_default (VObject (length h)) [("axes", VObject default_axes)])).
      cbn [for_each]. unfold merge_default.
      rewrite (bind_ret _ _ _ (h ++ [ODerived cfg (merged_axes cps)]) tt); [reflexivity|].
      rewrite (bind_ret _ _ _ (h ++ [ODerived cfg []])
                 (default VUndefined (assoc "axes" cps)))
        by (unfold get_prop; rewrite read_copy by assumption; simpl; now rewrite Hget).
      unfold merged_axes.
      destruct (truthy (default VUndefined (assoc "axes" cps))); [reflexivity|].
      apply set_copy. }
  assert (Hdoc2 : assoc "document" (merged_axes cps) = None)
    by (unfold merged_axes; now destruct (truthy _)).
  rewrite (bind_ret _ _ _ (h ++ [ODerived cfg (merged_axes cps)]) ["document"])
    by reflexivity.
  rewrite (bind_ret _ _ _ (h ++ [ODerived cfg (merged_axes cps)]) []).
  2:{ cbn [read_params].
      rewrite (bind_ret _ _ _ (h ++ [ODerived cfg (merged_axes cps)]) VUndefined);
        [reflexivity|].
      unfold get_prop. rewrite read_copy by assumption.
      now rewrite Hdoc2, Hget, Hdoc. }
  cbn [truthy].
  rewrite (bind_ret _ _ _ _ _
             (new_instance_run (h ++ [ODerived cfg (merged_axes cps)]) "CartesianChart" [])).
  rewrite (bind_ret _ _ _
             (instance_heap components (h ++ [ODerived cfg (merged_axes cps)])
                "CartesianChart" [] (fun ps => ps))
             (dedup (map fst (merged_axes cps) ++ map fst cps))).
  - reflexivity.
  - unfold forin_keys.
    rewrite (keys_in_derived_plain _ (length h) cfg (merged_axes cps) cps).
    + reflexivity.
    + rewrite instance_heap_old by (rewrite length_app; simpl; lia).
      apply lookup_app_new.
    + exact Hlt.
    + rewrite instance_heap_old by (rewrite length_app; simpl; lia).
      rewrite lookup_app_old by assumption. exact Hcfg.
Qed.

Lemma get_prop_derived_plain (h : heap) (c p : loc) (ps cps : props) (k : string) :
  h !! c = Some (ODerived p ps) -> p < c -> h !! p = Some (OPlain cps) ->
  get_prop (VObject c) k h
    = (Ret (match assoc k ps with
            | Some v => v
            | None => default VUndefined (assoc k cps)
            end), h).
Proof.
  intros Hc Hlt Hp. unfold get_prop. simpl.
  rewrite (get_in_derived h c p ps) by assumption.
  now rewrite (get_in_plain h p cps).
Qed.

Lemma axes_locs_fresh (axs : list (ctor * value)) (h : heap) :
  Forall (fun v => exists l, v = VObject l /\ length h <= l) (axes_locs components h axs).
Proof.
  revert h. induction axs as [|a r IH]; intros h; [constructor|].
  cbn [axes_locs]. constructor.
  - eexists. split; [reflexivity|]. unfold instance_loc. lia.
  - eapply Forall_impl; [apply IH|]. intros v (l & -> & Hl). exists l.
    split; [reflexivity|]. rewrite instance_heap_length in Hl. unfold instance_loc in Hl.
    lia.
Qed.

Lemma Forall2_Forall_impl {A B : Type} (P R : A -> B -> Prop) (Q : A -> Prop)
    (l : list A) (k : list B) :
  Forall2 P l k -> Forall Q l -> (forall x y, P x y -> Q x -> R x y) ->
  Forall2 R l k.
Proof.
  intros HP HQ Himp. induction HP as [|x y l k Hxy HP IH]; [constructor|].
  inversion HQ; subst. constructor; auto.
Qed.

Lemma axis_built_old (h h' : heap) (c : loc) (v : value) (a : ctor * value) :
  (forall l, l < length h -> l <> c -> h' !! l = h !! l) ->
  v <> VObject c -> axis_built h v a -> axis_built h' v a.
Proof.
  intros Hold Hv (l & ps & -> & Hl & Hp). exists l, ps. repeat split; try assumption.
  rewrite Hold; [exact Hl| |congruence]. eapply lookup_lt_Some; eauto.
Qed.

(** The heap that [process_key_axes] ends in: the chart refers to a new
    array of the new axes, and the rest is as before. *)
Lemma axes_result (h : heap) (c : loc) (cls : ctor) (args : list value) (ps : props)
    (axs : list (ctor * value)) :
  h !! c = Some (OInst cls args ps) ->
  let ax := length (axes_heap components h axs) in
  let h' := <[c := OInst cls args (assoc_set "axes" (VObject ax) ps)]>
              (axes_heap components h axs ++ [OArray (axes_locs components h axs) []]) in
  h' !! c = Some (OInst cls args (assoc_set "axes" (VObject ax) ps)) /\
  h' !! ax = Some (OArray (axes_locs components h axs) []) /\
  Forall2 (axis_built h') (axes_locs components h axs) axs /\
  (forall l, l < length h -> l <> c -> h' !! l = h !! l) /\
  length h < length h' /\ c < ax.
Proof.
  intros Hc ax h'.
  assert (Hlt : c < length h) by (eapply lookup_lt_Some; eauto).
  pose proof (axes_heap_length axs h) as Hlen.
  assert (Hcax : c < ax) by (unfold ax; lia).
  assert (Hold : forall l, l < ax -> l <> c ->
                   h' !! l = axes_heap components h axs !! l).
  { intros l Hl Hne. unfold h'. rewrite list_lookup_insert_ne by congruence.
    now apply lookup_app_old. }
  split; [|split; [|split; [|split; [|split]]]].
  - unfold h'. apply list_lookup_insert_eq. rewrite length_app. simpl. lia.
  - unfold h'. rewrite list_lookup_insert_ne by lia. apply lookup_app_new.
  - eapply Forall2_Forall_impl;
      [apply (axes_built axs h)|apply (axes_locs_fresh axs h)|].
    intros v a Hva (l & -> & Hl).
    apply (axis_built_old (axes_heap components h axs) h' c); [| |exact Hva].
    + intros l' Hl' Hne. now apply Hold.
    + intros E. inversion E. lia.
  - intros l Hl Hne. rewrite Hold by (unfold ax; lia || assumption).
    now apply axes_heap_old.
  - unfold h'. rewrite length_insert, length_app. simpl. lia.
  - exact Hcax.
Qed.

End Runs.
(** ** The default axes of a cartesian chart *)

Lemma keys_in_derived (h : heap) (c p : loc) (ps : props) :
  h !! c = Some (ODerived p ps) -> exists K, keys_in h c = dedup (map fst ps ++ K).
Proof.
  intros Hc. unfold keys_in. destruct c; cbn [keys_chain]; rewrite Hc;
    eexists; reflexivity.
Qed.

(** In the keys of the protective copy that got the default axes, [axes]
    comes first, or second after [type], and only once. *)
Lemma keys_after_axes (v : value) (ps : props) (K : list string) :
  ps = [] \/ (exists s, ps = [("type", VString s)]) ->
  exists pre rest,
    dedup (map fst (assoc_set "axes" v ps) ++ K) = pre ++ "axes" :: rest /\
    (pre = [] \/ pre = ["type"]) /\ ~ In "axes" rest.
Proof.
  intros [->|(s & ->)].
  - exists [], (List.filter (fun y => negb (String.eqb y "axes")) (dedup K)).
    split; [reflexivity|]. split; [now left|].
    intros Hin. apply filter_In in Hin. destruct Hin as [_ Hin].
    now rewrite String.eqb_refl in Hin.
  - exists ["type"],
      (List.filter (fun y => negb (String.eqb y "type"))
         (List.filter (fun y => negb (String.eqb y "axes")) (dedup K))).
    split; [reflexivity|]. split; [now right|].
    intros Hin. apply filter_In in Hin. destruct Hin as [Hin _].
    apply filter_In in Hin. destruct Hin as [_ Hin].
    now rewrite String.eqb_refl in Hin.
Qed.

Section DefaultAxes.

Variable components : ctor -> list (string * ctor).

(** Whatever else a cartesian configuration without axes holds: if [create]
    returns a chart for it, the chart has the two default axes. *)
Lemma create_default_axes (n : nat) (h h' : heap) (cfg c : loc) :
  closed h = true -> module_loaded h -> cfg < length h ->
  chart_type h (VObject cfg) = Ret (VString "cartesian") ->
  truthy (get_in h cfg "axes") = false ->
  create components (S (S n)) (VObject cfg) h = (Ret (VObject c), h') ->
  exists args ps ax locs,
    h' !! c = Some (OInst "CartesianChart" args ps) /\
    assoc "axes" ps = Some (VObject ax) /\ h' !! ax = Some (OArray locs []) /\
    Forall2 (axis_built h') locs default_axes_spec.
Proof.
  intros Hc (Hm0 & Hm1 & Hm2) Hlt Hty Hax Hrun.
  assert (H0lt : 0 < length h) by (eapply lookup_lt_Some; eauto).
  assert (H1lt : 1 < length h) by (eapply lookup_lt_Some; eauto).
  assert (H2lt : 2 < length h) by (eapply lookup_lt_Some; eauto).
  unfold create in Hrun.
  rewrite (bind_ret _ _ h (h ++ [ODerived cfg []]) (VObject (length h))) in Hrun
    by reflexivity.
  remember (S n) as m eqn:Hm.
  cbn [_create] in Hrun. unfold create_body in Hrun. cbn [is_object negb] in Hrun.
  destruct (setComponentType_root h cfg (VString "cartesian") Hc Hlt Hty)
    as (ps1 & Hrun1 & Hread1 & Hps1 & Hvals1 & Hshape1).
  rewrite (bind_ret _ _ _ _ _ Hrun1) in Hrun.
  rewrite (bind_ret _ _ _ (h ++ [ODerived cfg ps1]) (VString "cartesian")) in Hrun
    by (unfold get_prop; now rewrite Hread1).
  rewrite (bind_ret _ _ _ (h ++ [ODerived cfg ps1]) "cartesian") in Hrun by reflexivity.
  rewrite (bind_ret _ _ _ (h ++ [ODerived cfg ps1])
             (Some (MObject (descriptor_fields "cartesian")))) in Hrun by reflexivity.
  set (ps2 := assoc_set "axes" (VObject default_axes) ps1) in *.
  rewrite (bind_ret _ _ _ (h ++ [ODerived cfg ps2]) tt) in Hrun.
  2:{ change (setComponentDefaults (VObject (length h)) (descriptor_fields "cartesian"))
        with (for_each ["axes"]
                (merge_default (VObject (length h)) [("axes", VObject default_axes)])).
      cbn [for_each]. unfold merge_default.
      rewrite (bind_ret _ _ _ (h ++ [ODerived cfg ps2]) tt); [reflexivity|].
      rewrite (bind_ret _ _ _ (h ++ [ODerived cfg ps1]) (get_in h cfg "axes")).
      - rewrite Hax. apply set_copy.
      - unfold get_prop. rewrite read_copy by assumption.
        now rewrite (Hps1 "axes") by discriminate. }
  rewrite (bind_ret _ _ _ (h ++ [ODerived cfg ps2]) ["document"]) in Hrun
    by reflexivity.
  assert (Hdoc2 : forall q, In q ["document"] -> assoc q ps2 = None).
  { intros q [<-|[]]. unfold ps2. rewrite assoc_set_other by discriminate.
    apply Hps1. discriminate. }
  rewrite (bind_ret _ _ _ _ _ (read_params_copy h cfg ps2 ["document"] Hlt Hdoc2))
    in Hrun.
  cbn [truthy] in Hrun.
  set (values := List.filter defined (map (get_in h cfg) ["document"])) in *.
  set (H2 := h ++ [ODerived cfg ps2]) in *.
  assert (Hcons : construct components (descriptor_fields "cartesian") values H2
                  = (Ret (VObject (instance_loc components H2 "CartesianChart")),
                     instance_heap components H2 "CartesianChart" values (fun ps => ps)))
    by exact (new_instance_run components H2 "CartesianChart" values).
  rewrite (bind_ret _ _ _ _ _ Hcons) in Hrun.
  set (c0 := instance_loc components H2 "CartesianChart") in *.
  set (H3 := instance_heap components H2 "CartesianChart" values (fun ps => ps)) in *.
  set (ps0 := imap (fun i nc => (fst nc, VObject (length H2 + i)))
                (components "CartesianChart")).
  assert (HlenH2 : length H2 = S (length h))
    by (unfold H2; rewrite length_app; simpl; lia).
  assert (Hold3 : forall l, l < length H2 -> H3 !! l = H2 !! l)
    by (intros l Hl; now apply instance_heap_old).
  assert (Hcopy3 : H3 !! length h = Some (ODerived cfg ps2)).
  { rewrite Hold3 by lia. apply lookup_app_new. }
  assert (Hc3 : H3 !! c0 = Some (OInst "CartesianChart" values ps0))
    by apply instance_heap_new.
  assert (Hc0lt : length h < c0) by (unfold c0, instance_loc; lia).
  assert (HlenH3 : length H3 = S c0) by apply instance_heap_length.
  destruct (keys_in_derived H3 (length h) cfg ps2 Hcopy3) as [K HK].
  rewrite (bind_ret _ _ _ H3 (keys_in H3 (length h))) in Hrun by reflexivity.
  rewrite HK in Hrun.
  destruct (keys_after_axes (VObject default_axes) ps1 K Hshape1)
    as (pre & rest & Hkeys & Hpre & Hrest).
  fold ps2 in Hkeys. rewrite Hkeys in Hrun.
  apply bind_inv in Hrun.
  destruct Hrun as [(u & h4 & Hloop & Hret)|(e & _ & E)]; [|discriminate].
  injection Hret as Ec Eh. subst h4 c.
  assert (Hloop' :
            for_each ("axes" :: rest)
              (process_key (_create components m) (descriptor_fields "cartesian")
                 "cartesian" ["document"] (VObject (length h)) (VObject c0)) H3
            = (Ret u, h')).
  { destruct Hpre as [->| ->]; [exact Hloop|].
    cbn [app for_each] in Hloop.
    rewrite (bind_ret _ _ H3 H3 tt) in Hloop by reflexivity. exact Hloop. }
  clear Hloop. cbn [for_each] in Hloop'. subst m.
  destruct (axes_result components H3 c0 "CartesianChart" values ps0 default_axes_spec Hc3)
    as (Hc7 & Hax7 & Hbuilt7 & Hold7 & Hlen7 & Hcax).
  set (ax := length (axes_heap components H3 default_axes_spec)) in *.
  set (locs := axes_locs components H3 default_axes_spec) in *.
  set (H7 := <[c0 := OInst "CartesianChart" values (assoc_set "axes" (VObject ax) ps0)]>
               (axes_heap components H3 default_axes_spec ++ [OArray locs []])) in *.
  assert (Hold30 : forall l, l < length h -> H3 !! l = h !! l).
  { intros l Hl. rewrite Hold3 by lia. now apply lookup_app_old. }
  assert (Hrun_axes :
            process_key (_create components (S n)) (descriptor_fields "cartesian")
              "cartesian" ["document"] (VObject (length h)) (VObject c0) "axes" H3
            = (Ret tt, H7)).
  { apply (process_key_axes components n (VObject (length h)) c0 0 H3
             [VObject 1; VObject 2] [] default_axes_spec "CartesianChart" values ps0).
    - apply (get_prop_own H3 (length h) (ODerived cfg ps2)); [exact Hcopy3|].
      simpl. unfold ps2. apply assoc_set_same.
    - rewrite Hold30 by assumption. exact Hm0.
    - repeat constructor.
      + exists 1, "category". rewrite Hold30 by assumption. auto.
      + exists 2, "number". rewrite Hold30 by assumption. auto.
    - exact Hc3. }
  rewrite (bind_ret _ _ _ _ _ Hrun_axes) in Hloop'.
  (* the region: the chart, its axes and their array *)
  set (T := fun l : loc => c0 <= l /\ l < length H7).
  set (Inv := fun H : heap =>
                (exists ps, H !! c0 = Some (OInst "CartesianChart" values ps) /\
                   assoc "axes" ps = Some (VObject ax) /\
                   forall k v, k <> "axes" -> assoc k ps = Some v -> outside T v) /\
                forall l, c0 < l -> l < length H7 -> H !! l = H7 !! l).
  assert (HTc0 : T c0) by (unfold T; lia).
  assert (Hframed : framed T Inv).
  { intros H H' ((ps & Hps & Hrest') & Hfrozen) Hsame. split.
    - exists ps. split; [|exact Hrest']. now rewrite (Hsame c0 HTc0).
    - intros l Hl1 Hl2. rewrite Hsame by (unfold T; lia). now apply Hfrozen. }
  assert (Hlow : forall v, (forall j, v = VObject j -> j < c0) -> outside T v).
  { intros v Hv j E [Hj _]. specialize (Hv j E). lia. }
  assert (Hvalues : forall v, In v values -> forall j, v = VObject j -> j < c0).
  { intros v Hv j ->. unfold values in Hv. apply filter_In in Hv. destruct Hv as [Hv _].
    apply in_map_iff in Hv. destruct Hv as (q & Hq & _).
    pose proof (get_in_ok h cfg q Hc) as Hok. rewrite Hq in Hok. simpl in Hok.
    apply Nat.ltb_lt in Hok. lia. }
  destruct (construct_fresh components (descriptor_fields "cartesian") values H2 H3
              (VObject c0) Hcons)
    as (c1 & o0 & Ec & _ & _ & Hc1 & _ & Hnew & _ & _).
  injection Ec as <-.
  assert (Hlow3 : forall l o v, H3 !! l = Some o -> In v (obj_values o) ->
                    forall j, v = VObject j -> j < c0).
  { intros l o v Hl Hin j ->. destruct (Nat.lt_ge_cases l (length H2)) as [Hlo|Hhi].
    - rewrite Hold3 in Hl by assumption. unfold H2 in Hl.
      destruct (Nat.lt_ge_cases l (length h)) as [Hlo'|Hhi'].
      + rewrite lookup_app_old in Hl by assumption.
        pose proof (closed_all_below h Hc l o _ Hl Hin) as Hok. simpl in Hok.
        apply Nat.ltb_lt in Hok. lia.
      + rewrite lookup_app_r in Hl by assumption.
        apply list_elem_of_lookup_2, list_elem_of_In in Hl.
        destruct Hl as [<-|[]]. simpl in Hin. destruct Hin as [E|Hin].
        * inversion E. lia.
        * unfold ps2 in Hin. destruct (assoc_set_values _ _ _ _ Hin) as [E|Hin'].
          -- inversion E. unfold default_axes. lia.
          -- destruct (Hvals1 _ Hin') as [s E]. discriminate.
    - destruct (Hnew l o _ Hl Hhi Hin) as [Hv|(j' & E & Hj)].
      + now apply (Hvalues _ Hv).
      + inversion E. lia. }
  assert (Hguard : guards T Inv H7).
  { split; [|split].
    - intros l [_ Hl]. exact Hl.
    - intros l o v Hl HT Hin. apply Hlow. intros j Ej.
      assert (Hll : l < length H7) by (eapply lookup_lt_Some; eauto).
      assert (Hlc : l < c0) by (unfold T in HT; lia).
      rewrite Hold7 in Hl by lia. eapply Hlow3; eauto.
    - split.
      + exists (assoc_set "axes" (VObject ax) ps0). split; [exact Hc7|].
        split; [apply assoc_set_same|]. intros k v Hk Hv.
        rewrite assoc_set_other in Hv by congruence.
        apply Hlow. intros j Ej. apply (Hlow3 c0 _ v Hc3); [|exact Ej].
        simpl. apply in_or_app. right. eapply assoc_In; eauto.
      + reflexivity. }
  assert (Hbody : forall key, In key rest ->
            safe T Inv
              (process_key (_create components (S n)) (descriptor_fields "cartesian")
                 "cartesian" ["document"] (VObject (length h)) (VObject c0) key)
              (fun _ => True)).
  { intros key Hkey.
    assert (Hka : key <> "axes") by (intros ->; contradiction).
    apply safe_process_key.
    - exact Hframed.
    - apply safe_create; [exact Hframed|]. unfold T, default_axes. lia.
    - apply Hlow. intros j E. inversion E. lia.
    - intros _ _. apply safe_get_when.
      intros H w (_ & _ & (ps & Hps & _ & Hother) & _) Hr.
      simpl in Hr. rewrite (get_in_inst H c0 _ _ ps key Hps) in Hr.
      inversion Hr; subst w.
      destruct (assoc key ps) as [w|] eqn:E; simpl; [|apply outside_undefined].
      eapply Hother; eauto.
    - intros _ _ x Hx. apply safe_set_inside; [exact HTc0|].
      intros H o o' (_ & _ & (ps & Hps & Haxes & Hother) & Hfrozen) Ho Hset.
      rewrite Hps in Ho. inversion Ho; subst o. simpl in Hset.
      inversion Hset; subst o'. split.
      + exists (assoc_set key x ps). split; [|split].
        * apply list_lookup_insert_eq. eapply lookup_lt_Some; eauto.
        * now rewrite assoc_set_other.
        * intros k v Hk Hv. destruct (String.eqb_spec k key) as [->|Hne].
          -- rewrite assoc_set_same in Hv. inversion Hv; subst v. exact Hx.
          -- rewrite assoc_set_other in Hv by congruence. eapply Hother; eauto.
      + intros l Hl1 Hl2. rewrite list_lookup_insert_ne by lia. now apply Hfrozen. }
  destruct (safe_for_each T Inv rest _ Hbody H7 (Ret u) h' Hguard Hloop')
    as [(_ & _ & (ps & Hps & Haxes & _) & Hfrozen) _].
  assert (Hax_lt : ax < length H7) by (eapply lookup_lt_Some; eauto).
  exists values, ps, ax, locs.
  split; [exact Hps|]. split; [exact Haxes|]. split.
  - rewrite Hfrozen by assumption. exact Hax7.
  - eapply Forall2_Forall_impl;
      [exact Hbuilt7|apply (axes_locs_fresh components default_axes_spec H3)|].
    intros v a (l & aps & -> & Hl & Hp) (l' & E & Hge). inversion E; subst l'.
    exists l, aps. split; [reflexivity|]. split; [|exact Hp].
    rewrite Hfrozen; [exact Hl|lia|]. eapply lookup_lt_Some; eauto.
Qed.

End DefaultAxes.

Section CreateClaims.

Variable components : ctor -> list (string * ctor).

Lemma unresolved_old (h h' : heap) (path : string) (v : value) :
  (forall l, l < length h -> h' !! l = h !! l) ->
  unresolved h path v -> unresolved h' path v.
Proof.
  intros Hold (e & t & -> & Htype & Ht & Hmap). exists e, t.
  repeat split; try assumption.
  assert (He : e < length h).
  { destruct (Nat.lt_ge_cases e (length h)) as [H|H]; [exact H|].
    exfalso. unfold get_in in Htype.
    destruct e; cbn [lookup_chain] in Htype;
      rewrite (lookup_ge_None_2 h) in Htype by assumption; discriminate. }
  rewrite <- Htype. apply get_in_prefix. intros j Hj. apply Hold. lia.
Qed.

Lemma create_unresolved_series (n : nat) (h : heap) (cfg a : loc)
    (elems : list value) (aps : props) :
  module_loaded h ->
  h !! cfg = Some (OPlain [("type", VString "cartesian"); ("series", VObject a)]) ->
  h !! a = Some (OArray elems aps) ->
  Forall (unresolved h "cartesian.series") elems ->
  exists c s ax locs ps h',
    create components (S (S n)) (VObject cfg) h = (Ret (VObject c), h') /\
    h' !! c = Some (OInst "CartesianChart" [] ps) /\
    assoc "series" ps = Some (VObject s) /\ h' !! s = Some (OArray [] []) /\
    assoc "axes" ps = Some (VObject ax) /\ h' !! ax = Some (OArray locs []) /\
    Forall2 (axis_built h') locs default_axes_spec /\
    (forall l, l < length h -> h' !! l = h !! l).
Proof.
  intros (Hm0 & Hm1 & Hm2) Hcfg Ha Hel.
  assert (Hcfglt : cfg < length h) by (eapply lookup_lt_Some; eauto).
  assert (Halt : a < length h) by (eapply lookup_lt_Some; eauto).
  assert (H0lt : 0 < length h) by (eapply lookup_lt_Some; eauto).
  assert (H1lt : 1 < length h) by (eapply lookup_lt_Some; eauto).
  assert (H2lt : 2 < length h) by (eapply lookup_lt_Some; eauto).
  set (cps := [("type", VString "cartesian"); ("series", VObject a)]) in *.
  rewrite (create_cartesian components (S n) h cfg cps Hcfg eq_refl eq_refl).
  change (merged_axes cps) with [("axes", VObject default_axes)].
  change (dedup (map fst [("axes", VObject default_axes)] ++ map fst cps))
    with ["axes"; "type"; "series"].
  set (Hb := h ++ [ODerived cfg [("axes", VObject default_axes)]]).
  set (c := instance_loc components Hb "CartesianChart").
  set (H3 := instance_heap components Hb "CartesianChart" [] (fun ps => ps)).
  set (ps0 := imap (fun i nc => (fst nc, VObject (length Hb + i)))
                (components "CartesianChart")).
  assert (HlenHb : length Hb = S (length h))
    by (unfold Hb; rewrite length_app; simpl; lia).
  assert (Hold3 : forall l, l < length h -> H3 !! l = h !! l).
  { intros l Hl. unfold H3. rewrite instance_heap_old by lia.
    now apply lookup_app_old. }
  assert (Hcopy3 : H3 !! length h = Some (ODerived cfg [("axes", VObject default_axes)])).
  { unfold H3. rewrite instance_heap_old by lia. apply lookup_app_new. }
  assert (Hc3 : H3 !! c = Some (OInst "CartesianChart" [] ps0))
    by apply instance_heap_new.
  assert (Hclt : length h < c) by (unfold c, instance_loc; lia).
  assert (HlenH3 : length H3 = S c) by apply instance_heap_length.
  (* the key axes *)
  pose proof (process_key_axes components n (VObject (length h)) c 0 H3
                [VObject 1; VObject 2] [] default_axes_spec "CartesianChart" [] ps0)
    as Haxes.
  destruct (axes_result components H3 c "CartesianChart" [] ps0 default_axes_spec Hc3)
    as (Hc7 & Hax7 & Hbuilt7 & Hold7 & Hlen7 & Hcax).
  set (ax := length (axes_heap components H3 default_axes_spec)) in *.
  set (H7 := <[c := OInst "CartesianChart" [] (assoc_set "axes" (VObject ax) ps0)]>
               (axes_heap components H3 default_axes_spec ++
                [OArray (axes_locs components H3 default_axes_spec) []])) in *.
  assert (Hrun_axes :
            process_key (_create components (S n)) (descriptor_fields "cartesian")
              "cartesian" ["document"] (VObject (length h)) (VObject c) "axes" H3
            = (Ret tt, H7)).
  { apply Haxes.
    - rewrite (get_prop_derived_plain H3 (length h) cfg
                 [("axes", VObject default_axes)] cps); auto.
      rewrite Hold3 by assumption. exact Hcfg.
    - rewrite Hold3 by assumption. exact Hm0.
    - repeat constructor.
      + exists 1, "category". rewrite Hold3 by assumption. auto.
      + exists 2, "number". rewrite Hold3 by assumption. auto.
    - exact Hc3. }
  assert (Hold : forall l, l < length h -> H7 !! l = h !! l).
  { intros l Hl. rewrite Hold7 by lia. now apply Hold3. }
  assert (Hrun_series :
            process_key (_create components (S n)) (descriptor_fields "cartesian")
              "cartesian" ["document"] (VObject (length h)) (VObject c) "series" H7
            = (Ret tt,
               <[c := OInst "CartesianChart" []
                        (assoc_set "series" (VObject (length H7))
                           (assoc_set "axes" (VObject ax) ps0))]>
                 (H7 ++ [OArray [] []]))).
  { apply (process_key_unresolved components n _ "cartesian" ["document"]
             (VObject (length h)) c "series" H7 a elems aps
             (MObject (descriptor_fields "cartesian.series")) "CartesianChart" []);
      try reflexivity.
    - rewrite (get_prop_derived_plain H7 (length h) cfg
                 [("axes", VObject default_axes)] cps); auto.
      + rewrite Hold7 by lia. exact Hcopy3.
      + rewrite Hold by assumption. exact Hcfg.
    - rewrite Hold by assumption. exact Ha.
    - eapply Forall_impl; [exact Hel|]. intros v Hv.
      eapply unresolved_old; eauto.
    - exact Hc7. }
  set (H9 := <[c := OInst "CartesianChart" []
                      (assoc_set "series" (VObject (length H7))
                         (assoc_set "axes" (VObject ax) ps0))]>
               (H7 ++ [OArray [] []])).
  assert (Hold9 : forall l, l < length H7 -> l <> c -> H9 !! l = H7 !! l).
  { intros l Hl Hne. unfold H9. rewrite list_lookup_insert_ne by congruence.
    now apply lookup_app_old. }
  assert (Haxlt : ax < length H7).
  { eapply lookup_lt_Some; eauto. }
  exists c, (length H7), ax, (axes_locs components H3 default_axes_spec),
    (assoc_set "series" (VObject (length H7)) (assoc_set "axes" (VObject ax) ps0)), H9.
  split; [|split; [|split; [|split; [|split; [|split; [|split]]]]]].
  - cbn [for_each].
    rewrite (bind_ret _ _ H3 H9 tt); [reflexivity|].
    rewrite (bind_ret _ _ _ _ _ Hrun_axes).
    rewrite (bind_ret _ _ H7 H7 tt) by reflexivity.
    rewrite (bind_ret _ _ _ _ _ Hrun_series). reflexivity.
  - unfold H9. apply list_lookup_insert_eq. rewrite length_app. simpl. lia.
  - apply assoc_set_same.
  - unfold H9. rewrite list_lookup_insert_ne by lia. apply lookup_app_new.
  - rewrite assoc_set_other by discriminate. apply assoc_set_same.
  - rewrite Hold9 by (assumption || lia). exact Hax7.
  - eapply Forall2_Forall_impl; [exact Hbuilt7|apply (axes_locs_fresh components)|].
    intros v b Hvb (l & -> & Hl).
    apply (axis_built_old H7 H9 c); [exact Hold9| |exact Hvb].
    intros E. inversion E. lia.
  - intros l Hl. rewrite Hold9 by lia. rewrite Hold7 by lia. now apply Hold3.
Qed.

Lemma create_without_axes (n : nat) (h : heap) (cfg : loc) :
  module_loaded h ->
  h !! cfg = Some (OPlain [("type", VString "cartesian")]) ->
  exists c ax locs ps h',
    create components (S (S n)) (VObject cfg) h = (Ret (VObject c), h') /\
    h' !! c = Some (OInst "CartesianChart" [] ps) /\
    assoc "axes" ps = Some (VObject ax) /\ h' !! ax = Some (OArray locs []) /\
    Forall2 (axis_built h') locs default_axes_spec /\
    (forall l, l < length h -> h' !! l = h !! l).
Proof.
  intros (Hm0 & Hm1 & Hm2) Hcfg.
  assert (Hcfglt : cfg < length h) by (eapply lookup_lt_Some; eauto).
  assert (H0lt : 0 < length h) by (eapply lookup_lt_Some; eauto).
  assert (H1lt : 1 < length h) by (eapply lookup_lt_Some; eauto).
  assert (H2lt : 2 < length h) by (eapply lookup_lt_Some; eauto).
  set (cps := [("type", VString "cartesian")]) in *.
  rewrite (create_cartesian components (S n) h cfg cps Hcfg eq_refl eq_refl).
  change (merged_axes cps) with [("axes", VObject default_axes)].
  change (dedup (map fst [("axes", VObject default_axes)] ++ map fst cps))
    with ["axes"; "type"].
  set (Hb := h ++ [ODerived cfg [("axes", VObject default_axes)]]).
  set (c := instance_loc components Hb "CartesianChart").
  set (H3 := instance_heap components Hb "CartesianChart" [] (fun ps => ps)).
  set (ps0 := imap (fun i nc => (fst nc, VObject (length Hb + i)))
                (components "CartesianChart")).
  assert (HlenHb : length Hb = S (length h))
    by (unfold Hb; rewrite length_app; simpl; lia).
  assert (Hold3 : forall l, l < length h -> H3 !! l = h !! l).
  { intros l Hl. unfold H3. rewrite instance_heap_old by lia.
    now apply lookup_app_old. }
  assert (Hcopy3 : H3 !! length h = Some (ODerived cfg [("axes", VObject default_axes)])).
  { unfold H3. rewrite instance_heap_old by lia. apply lookup_app_new. }
  assert (Hc3 : H3 !! c = Some (OInst "CartesianChart" [] ps0))
    by apply instance_heap_new.
  assert (Hclt : length h < c) by (unfold c, instance_loc; lia).
  assert (HlenH3 : length H3 = S c) by apply instance_heap_length.
  pose proof (process_key_axes components n (VObject (length h)) c 0 H3
                [VObject 1; VObject 2] [] default_axes_spec "CartesianChart" [] ps0)
    as Haxes.
  destruct (axes_result components H3 c "CartesianChart" [] ps0 default_axes_spec Hc3)
    as (Hc7 & Hax7 & Hbuilt7 & Hold7 & Hlen7 & Hcax).
  set (ax := length (axes_heap components H3 default_axes_spec)) in *.
  set (H7 := <[c := OInst "CartesianChart" [] (assoc_set "axes" (VObject ax) ps0)]>
               (axes_heap components H3 default_axes_spec ++
                [OArray (axes_locs components H3 default_axes_spec) []])) in *.
  assert (Hrun_axes :
            process_key (_create components (S n)) (descriptor_fields "cartesian")
              "cartesian" ["document"] (VObject (length h)) (VObject c) "axes" H3
            = (Ret tt, H7)).
  { apply Haxes.
    - rewrite (get_prop_derived_plain H3 (length h) cfg
                 [("axes", VObject default_axes)] cps); auto.
      rewrite Hold3 by assumption. exact Hcfg.
    - rewrite Hold3 by assumption. exact Hm0.
    - repeat constructor.
      + exists 1, "category". rewrite Hold3 by assumption. auto.
      + exists 2, "number". rewrite Hold3 by assumption. auto.
    - exact Hc3. }
  exists c, ax, (axes_locs components H3 default_axes_spec),
    (assoc_set "axes" (VObject ax) ps0), H7.
  split; [|split; [|split; [|split; [|split]]]].
  - cbn [for_each].
    rewrite (bind_ret _ _ H3 H7 tt); [reflexivity|].
    rewrite (bind_ret _ _ _ _ _ Hrun_axes).
    rewrite (bind_ret _ _ H7 H7 tt) by reflexivity. reflexivity.
  - exact Hc7.
  - apply assoc_set_same.
  - exact Hax7.
  - exact Hbuilt7.
  - intros l Hl. rewrite Hold7 by lia. now apply Hold3.
Qed.

Lemma create_with_axes (n : nat) (h : heap) (cfg a : loc) (elems : list value)
    (aps : props) (axs : list (ctor * value)) :
  h !! cfg = Some (OPlain [("type", VString "cartesian"); ("axes", VObject a)]) ->
  h !! a = Some (OArray elems aps) ->
  Forall2 (axis_config h) elems axs ->
  exists c ax locs ps h',
    create components (S (S n)) (VObject cfg) h = (Ret (VObject c), h') /\
    h' !! c = Some (OInst "CartesianChart" [] ps) /\
    assoc "axes" ps = Some (VObject ax) /\ h' !! ax = Some (OArray locs []) /\
    Forall2 (axis_built h') locs axs /\
    h' !! length h = Some (ODerived cfg []) /\
    (forall l, l < length h -> h' !! l = h !! l).
Proof.
  intros Hcfg Ha Hel.
  assert (Hcfglt : cfg < length h) by (eapply lookup_lt_Some; eauto).
  assert (Halt : a < length h) by (eapply lookup_lt_Some; eauto).
  set (cps := [("type", VString "cartesian"); ("axes", VObject a)]) in *.
  rewrite (create_cartesian components (S n) h cfg cps Hcfg eq_refl eq_refl).
  change (merged_axes cps) with (@nil (string * value)).
  change (dedup (map fst (@nil (string * value)) ++ map fst cps))
    with ["type"; "axes"].
  set (Hb := h ++ [ODerived cfg []]).
  set (c := instance_loc components Hb "CartesianChart").
  set (H3 := instance_heap components Hb "CartesianChart" [] (fun ps => ps)).
  set (ps0 := imap (fun i nc => (fst nc, VObject (length Hb + i)))
                (components "CartesianChart")).
  assert (HlenHb : length Hb = S (length h))
    by (unfold Hb; rewrite length_app; simpl; lia).
  assert (Hold3 : forall l, l < length h -> H3 !! l = h !! l).
  { intros l Hl. unfold H3. rewrite instance_heap_old by lia.
    now apply lookup_app_old. }
  assert (Hcopy3 : H3 !! length h = Some (ODerived cfg [])).
  { unfold H3. rewrite instance_heap_old by lia. apply lookup_app_new. }
  assert (Hc3 : H3 !! c = Some (OInst "CartesianChart" [] ps0))
    by apply instance_heap_new.
  assert (Hclt : length h < c) by (unfold c, instance_loc; lia).
  assert (HlenH3 : length H3 = S c) by apply instance_heap_length.
  pose proof (process_key_axes components n (VObject (length h)) c a H3
                elems aps axs "CartesianChart" [] ps0) as Haxes.
  destruct (axes_result components H3 c "CartesianChart" [] ps0 axs Hc3)
    as (Hc7 & Hax7 & Hbuilt7 & Hold7 & Hlen7 & Hcax).
  set (ax := length (axes_heap components H3 axs)) in *.
  set (H7 := <[c := OInst "CartesianChart" [] (assoc_set "axes" (VObject ax) ps0)]>
               (axes_heap components H3 axs ++
                [OArray (axes_locs components H3 axs) []])) in *.
  assert (Hrun_axes :
            process_key (_create components (S n)) (descriptor_fields "cartesian")
              "cartesian" ["document"] (VObject (length h)) (VObject c) "axes" H3
            = (Ret tt, H7)).
  { apply Haxes.
    - rewrite (get_prop_derived_plain H3 (length h) cfg [] cps); auto.
      rewrite Hold3 by assumption. exact Hcfg.
    - rewrite Hold3 by assumption. exact Ha.
    - eapply Forall2_impl; [exact Hel|]. intros v b Hvb.
      eapply axis_config_old; [|exact Hvb]. exact Hold3.
    - exact Hc3. }
  exists c, ax, (axes_locs components H3 axs), (assoc_set "axes" (VObject ax) ps0), H7.
  split; [|split; [|split; [|split; [|split; [|split]]]]].
  - cbn [for_each].
    rewrite (bind_ret _ _ H3 H7 tt); [reflexivity|].
    rewrite (bind_ret _ _ H3 H3 tt) by reflexivity.
    rewrite (bind_ret _ _ _ _ _ Hrun_axes). reflexivity.
  - exact Hc7.
  - apply assoc_set_same.
  - exact Hax7.
  - exact Hbuilt7.
  - rewrite Hold7 by lia. exact Hcopy3.
  - intros l Hl. rewrite Hold7 by lia. now apply Hold3.
Qed.

(** C7.  The defaults merge gives every key of the descriptor's defaults
    whose value in the configuration node is absent or falsy the default
    value, and leaves every other property, a provided truthy value in
    particular, as it reads.  A cartesian configuration without [axes]
    yields a chart with exactly the two default axes, a category axis at the
    bottom and a number axis on the left; a configuration with [axes] yields
    a chart with one axis per element provided (one for a single-element
    array) and its protective copy gets no default. *)
Theorem defaults_fill_never_override (n : nat) :
  (forall (h : heap) (l : loc) (o : object) (fields : list (string * mapping))
          (d : props),
     h !! l = Some o -> is_array_object o = false ->
     assoc "defaults" fields = Some (MDefaults d) ->
     exists h',
       setComponentDefaults (VObject l) fields h = (Ret tt, h') /\
       (forall key,
          get_in h' l key =
            if existsb (String.eqb key) (map fst d) && negb (truthy (get_in h l key))
            then default VUndefined (assoc key d) else get_in h l key) /\
       (forall j, j <> l -> h' !! j = h !! j)) /\
  (forall (h h' : heap) (cfg c : loc),
     closed h = true -> module_loaded h -> cfg < length h ->
     chart_type h (VObject cfg) = Ret (VString "cartesian") ->
     truthy (get_in h cfg "axes") = false ->
     create components (S (S n)) (VObject cfg) h = (Ret (VObject c), h') ->
     exists args ps ax locs,
       h' !! c = Some (OInst "CartesianChart" args ps) /\
       assoc "axes" ps = Some (VObject ax) /\ h' !! ax = Some (OArray locs []) /\
       Forall2 (axis_built h') locs default_axes_spec) /\
  (forall (h : heap) (cfg : loc),
     module_loaded h ->
     h !! cfg = Some (OPlain [("type", VString "cartesian")]) ->
     exists c ax locs ps h',
       create components (S (S n)) (VObject cfg) h = (Ret (VObject c), h') /\
       h' !! c = Some (OInst "CartesianChart" [] ps) /\
       assoc "axes" ps = Some (VObject ax) /\ h' !! ax = Some (OArray locs []) /\
       Forall2 (axis_built h') locs default_axes_spec /\
       (forall l, l < length h -> h' !! l = h !! l)) /\
  (forall (h : heap) (cfg a : loc) (elems : list value) (aps : props)
          (axs : list (ctor * value)),
     h !! cfg = Some (OPlain [("type", VString "cartesian"); ("axes", VObject a)]) ->
     h !! a = Some (OArray elems aps) ->
     Forall2 (axis_config h) elems axs ->
     exists c ax locs ps h',
       create components (S (S n)) (VObject cfg) h = (Ret (VObject c), h') /\
       h' !! c = Some (OInst "CartesianChart" [] ps) /\
       assoc "axes" ps = Some (VObject ax) /\ h' !! ax = Some (OArray locs []) /\
       Forall2 (axis_built h') locs axs /\
       h' !! length h = Some (ODerived cfg []) /\
       (forall l, l < length h -> h' !! l = h !! l)).
Proof.
  split; [|split; [|split]].
  - intros. eapply setComponentDefaults_merge; eauto.
  - intros. eapply create_default_axes; eauto.
  - intros. now apply create_without_axes.
  - intros. eapply create_with_axes; eauto.
Qed.

End CreateClaims.
(** ** Lookups in the registry *)

Lemma split_dot_append (s1 s2 cur : string) :
  split_dot cur (String.append s1 (String "." s2))
  = split_dot cur s1 ++ split_dot "" s2.
Proof.
  revert cur. induction s1 as [|c r IH]; intros cur; [reflexivity|].
  change (String.append (String c r) (String "." s2))
    with (String c (String.append r (String "." s2))).
  cbn [split_dot]. destruct (Ascii.eqb c "."); [|now apply IH].
  rewrite IH. reflexivity.
Qed.

Lemma append_empty (s : string) : String.append s "" = s.
Proof.
  induction s as [|a s IH]; [reflexivity|].
  change (String a (String.append s "") = String a s). now rewrite IH.
Qed.

Lemma append_char (s r : string) (c : ascii) :
  String.append (String.append s (String c "")) r = String.append s (String c r).
Proof.
  induction s as [|a s IH]; [reflexivity|].
  change (String a (String.append (String.append s (String c "")) r)
          = String a (String.append s (String c r))).
  now rewrite IH.
Qed.

Lemma split_dot_no_dot (s cur : string) :
  no_dot s = true -> split_dot cur s = [String.append cur s].
Proof.
  revert cur. induction s as [|c r IH]; intros cur Hs; cbn [split_dot].
  - now rewrite append_empty.
  - cbn [no_dot] in Hs. apply andb_true_iff in Hs. destruct Hs as [Hc Hr].
    apply negb_true_iff in Hc. rewrite Hc. rewrite IH by assumption.
    now rewrite append_char.
Qed.

Lemma split_dot_cons (s cur : string) :
  exists part rest, split_dot cur s = part :: rest.
Proof.
  revert cur. induction s as [|c r IH]; intros cur; cbn [split_dot]; [eauto|].
  destruct (Ascii.eqb c "."); eauto.
Qed.

Lemma descend_err (parts : list string) (e : error) :
  fold_left descend parts (Err e) = Err e.
Proof. induction parts as [|p parts IH]; [reflexivity|exact IH]. Qed.

Lemma getMapping_walk (p q : string) :
  getMapping (dot p q) = fold_left descend (split_dot "" q) (getMapping p).
Proof.
  unfold getMapping, dot.
  change (String.append "." q) with (String "." q).
  rewrite split_dot_append, fold_left_app. reflexivity.
Qed.

(** Looking up [p.q] is looking up [p] and walking on from what was found
    along the segments of [q]. *)
Theorem getMapping_dot (p q : string) :
  getMapping (dot p q) = fold_left descend (split_dot "" q) (getMapping p).
Proof. apply getMapping_walk. Qed.

(** Below a path that is not registered every lookup raises a TypeError:
    the walk indexes [undefined]. *)
Theorem getMapping_below_missing (p q : string) :
  getMapping p = Ret None -> getMapping (dot p q) = Err TypeError.
Proof.
  intros Hp. rewrite getMapping_walk, Hp.
  destruct (split_dot_cons q "") as (part & rest & ->).
  cbn [fold_left descend index_mapping]. apply descend_err.
Qed.

(** Below a registered descriptor an ordinary name never raises: the lookup
    returns the descriptor's field of that name, or not found. *)
Theorem getMapping_field (p k : string) (fields : list (string * mapping)) :
  getMapping p = Ret (Some (MObject fields)) ->
  no_dot k = true -> builtin_name k = false ->
  getMapping (dot p k) = Ret (assoc k fields).
Proof.
  intros Hp Hk Hb. rewrite getMapping_walk, Hp, (split_dot_no_dot k "" Hk).
  change (String.append "" k) with k.
  cbn [fold_left descend index_mapping]. rewrite Hb.
  now destruct (assoc k fields).
Qed.
(** ** What [setComponentType] assigns *)

Lemma get_own_set_type (o o' : object) (x : value) (k : string) :
  set_own o "type" x = Some o' -> k <> "type" -> get_own o' k = get_own o k.
Proof.
  intros Hs Hk. destruct o; simpl in Hs.
  - inversion Hs; subst. simpl. apply assoc_set_other. congruence.
  - inversion Hs; subst. simpl. apply assoc_set_other. congruence.
  - change (array_index "type") with (@None nat) in Hs. simpl in Hs.
    inversion Hs; subst. simpl. destruct (array_index k); [reflexivity|].
    destruct (String.eqb k "length"); [reflexivity|]. apply assoc_set_other. congruence.
  - inversion Hs; subst. simpl. apply assoc_set_other. congruence.
Qed.

Lemma lookup_chain_set_own (h : heap) (a : loc) (o o' : object) (k k' : string)
    (x : value) (n : nat) (l : loc) :
  h !! a = Some o -> set_own o k x = Some o' -> get_own o' k' = get_own o k' ->
  lookup_chain (<[a:=o']> h) n l k' = lookup_chain h n l k'.
Proof.
  intros Ha Hs Hown. revert l.
  assert (Hshape : shape_of o' = shape_of o) by (eapply set_own_shape; eauto).
  assert (Hlt : a < length h) by (eapply lookup_lt_Some; eauto).
  induction n as [|n IH]; intros l; cbn [lookup_chain];
    (destruct (Nat.eq_dec l a) as [->|Hla];
     [rewrite list_lookup_insert_eq by assumption; rewrite Ha, Hown
     |rewrite list_lookup_insert_ne by congruence]).
  - destruct (get_own o k'); [reflexivity|]. destruct o, o'; try discriminate; reflexivity.
  - reflexivity.
  - destruct (get_own o k'); [reflexivity|].
    destruct o as [?|p ?|? ?|? ? ?], o' as [?|p' ?|? ?|? ? ?];
      try discriminate; try reflexivity.
    inversion Hshape; subst. destruct (Nat.ltb p a); [apply IH|reflexivity].
  - destruct (h !! l) as [ol|]; [|reflexivity].
    destruct (get_own ol k'); [reflexivity|]. destruct ol; try reflexivity.
    destruct (Nat.ltb proto l); [apply IH|reflexivity].
Qed.

Lemma set_type_reads (options x : value) (h h1 : heap) (r : outcome unit) (k : string) :
  set_prop options "type" x h = (r, h1) -> k <> "type" ->
  read h1 options k = read h options k.
Proof.
  intros H Hk. destruct options; simpl in H; try (inversion H; subst; reflexivity).
  destruct (h !! l) as [o|] eqn:Hl; [|inversion H; subst; reflexivity].
  destruct (set_own o "type" x) as [o'|] eqn:Hs; [|inversion H; subst; reflexivity].
  inversion H; subst. simpl. f_equal. unfold get_in. f_equal.
  eapply lookup_chain_set_own; eauto. eapply get_own_set_type; eauto.
Qed.

Lemma setComponentType_typed_noop (options t : value) (path : option string) (h : heap) :
  read h options "type" = Ret t -> truthy t = true ->
  setComponentType options path h = (Ret tt, h).
Proof.
  intros Hr Ht.
  assert (Hc : setChartType options h = (Ret tt, h)).
  { unfold setChartType. rewrite (bind_ret _ _ h h t) by (unfold get_prop; now rewrite Hr).
    now rewrite Ht. }
  assert (Hd : forall s, default_type options s h = (Ret tt, h)).
  { intros s. unfold default_type.
    rewrite (bind_ret _ _ h h t) by (unfold get_prop; now rewrite Hr). now rewrite Ht. }
  unfold setComponentType.
  rewrite (bind_ret _ _ h h tt) by (destruct (path_falsy path); [exact Hc|reflexivity]).
  rewrite (bind_ret _ _ h h tt)
    by (destruct (path_is path "cartesian.series"); [apply Hd|reflexivity]).
  destruct (path_is path "polar.series"); [apply Hd|reflexivity].
Qed.

(** Type inference assigns nothing but [options.type]: no other object
    changes, every other property of [options] reads as before, and when
    [options.type] is truthy nothing is assigned at all, whatever the path
    and whether the call returns or raises. *)
Theorem setComponentType_assigns_only_type (options : value) (path : option string)
    (h h1 : heap) (r : outcome unit) :
  setComponentType options path h = (r, h1) ->
  touches options h h1 /\
  (forall k, k <> "type" -> read h1 options k = read h options k) /\
  (forall t, read h options "type" = Ret t -> truthy t = true ->
     r = Ret tt /\ h1 = h).
Proof.
  intros Hrun. split; [|split].
  - revert Hrun. apply (preserves_setComponentType (touches options)).
    + apply touches_refl.
    + apply touches_trans.
    + intros k x h0 r0 h2. apply set_prop_touches.
  - set (R := fun h h' : heap =>
                forall k, k <> "type" -> read h' options k = read h options k).
    assert (R_refl : forall h0, R h0 h0) by (intros h0 k _; reflexivity).
    assert (R_trans : forall h0 h2 h3, R h0 h2 -> R h2 h3 -> R h0 h3).
    { intros h0 h2 h3 H1 H2 k Hk. rewrite H2, H1 by assumption. reflexivity. }
    assert (R_type : forall x, preserves R (set_prop options "type" x)).
    { intros x h0 r0 h2 H k Hk. eapply set_type_reads; eauto. }
    assert (Hp : preserves R (setComponentType options path)).
    { unfold setComponentType, setChartType, default_type.
      repeat first [apply R_type | pres_step]. }
    exact (Hp h r h1 Hrun).
  - intros t Hr Ht. rewrite (setComponentType_typed_noop options t path h Hr Ht) in Hrun.
    inversion Hrun. auto.
Qed.

Lemma setChartType_sets (options : value) (h h1 : heap) :
  setChartType options h = (Ret tt, h1) ->
  exists t, read h1 options "type" = Ret t /\ truthy t = true.
Proof.
  unfold setChartType. intros H.
  apply bind_inv in H. destruct H as [(t & h0 & H1 & H)|(e & _ & E)]; [|discriminate].
  unfold get_prop in H1. injection H1 as Hr <-.
  destruct (truthy t) eqn:Ht.
  { inversion H; subst. exists t. split; assumption. }
  apply bind_inv in H. destruct H as [(sv & h0 & _ & H)|(e & _ & E)]; [|discriminate].
  apply bind_inv in H. destruct H as [(series & h2 & _ & H)|(e & _ & E)]; [|discriminate].
  apply bind_inv in H. destruct H as [(st & h3 & _ & H)|(e & _ & E)]; [|discriminate].
  apply bind_inv in H. destruct H as [(u & h4 & _ & H)|(e & _ & E)]; [|discriminate].
  apply bind_inv in H. destruct H as [(t' & h5 & H1 & H)|(e & _ & E)]; [|discriminate].
  unfold get_prop in H1. injection H1 as Hr' <-.
  destruct (truthy t') eqn:Ht'.
  - inversion H; subst. exists t'. split; assumption.
  - exists (VString "cartesian"). split; [|reflexivity]. eapply read_after_set; eauto.
Qed.

Lemma default_type_sets (options : value) (s : string) (h h1 : heap) :
  s <> "" -> default_type options s h = (Ret tt, h1) ->
  exists t, read h1 options "type" = Ret t /\ truthy t = true.
Proof.
  unfold default_type. intros Hs H.
  apply bind_inv in H. destruct H as [(t & h0 & H1 & H)|(e & _ & E)]; [|discriminate].
  unfold get_prop in H1. injection H1 as Hr <-.
  destruct (truthy t) eqn:Ht.
  - inversion H; subst. exists t. split; assumption.
  - exists (VString s). split; [eapply read_after_set; eauto|].
    destruct s; [congruence|reflexivity].
Qed.

(** Type inference is idempotent: after a call that returned, a second call
    on the same configuration and path returns and changes nothing. *)
Theorem setComponentType_idempotent (options : value) (path : option string)
    (h h1 : heap) :
  setComponentType options path h = (Ret tt, h1) ->
  setComponentType options path h1 = (Ret tt, h1).
Proof.
  intros Hrun.
  assert (Htyped : (exists t, read h1 options "type" = Ret t /\ truthy t = true) ->
                   setComponentType options path h1 = (Ret tt, h1)).
  { intros (t & Hr & Ht). eapply setComponentType_typed_noop; eauto. }
  unfold setComponentType in Hrun.
  apply bind_inv in Hrun.
  destruct Hrun as [(u1 & ha & H1 & Hrun)|(e & _ & E)]; [|discriminate].
  apply bind_inv in Hrun.
  destruct Hrun as [(u2 & hb & H2 & H3)|(e & _ & E)]; [|discriminate].
  destruct u1, u2.
  destruct (path_falsy path) eqn:Hpf.
  - assert (Hc : path_is path "cartesian.series" = false).
    { destruct path as [p|]; [|reflexivity]. simpl in Hpf. apply String.eqb_eq in Hpf.
      now subst. }
    assert (Hp : path_is path "polar.series" = false).
    { destruct path as [p|]; [|reflexivity]. simpl in Hpf. apply String.eqb_eq in Hpf.
      now subst. }
    rewrite Hc in H2. rewrite Hp in H3. inversion H2; subst hb. inversion H3; subst h1.
    apply Htyped. eapply setChartType_sets; eauto.
  - inversion H1; subst ha. clear H1.
    destruct (path_is path "cartesian.series") eqn:Hc.
    + assert (Hp : path_is path "polar.series" = false).
      { destruct path as [p|]; [|reflexivity]. simpl in Hc. apply String.eqb_eq in Hc.
        now subst. }
      rewrite Hp in H3. inversion H3; subst h1.
      apply Htyped. eapply default_type_sets; eauto. discriminate.
    + inversion H2; subst hb. clear H2.
      destruct (path_is path "polar.series") eqn:Hp.
      * apply Htyped. eapply default_type_sets; eauto. discriminate.
      * inversion H3; subst h1. unfold setComponentType.
        rewrite Hpf, Hc, Hp. reflexivity.
Qed.
(** ** The defaults merge, applied again *)

Lemma assoc_set_id (k : string) (x : value) (ps : props) :
  assoc k ps = Some x -> assoc_set k x ps = ps.
Proof.
  induction ps as [|[k' v'] r IH]; simpl; [discriminate|].
  destruct (String.eqb_spec k k') as [->|Hne].
  - intros H. inversion H. reflexivity.
  - intros H. now rewrite IH.
Qed.

Lemma set_own_same (o : object) (k : string) (x : value) :
  is_array_object o = false -> get_own o k = Some x -> set_own o k x = Some o.
Proof.
  destruct o; simpl; try discriminate; intros _ H; now rewrite assoc_set_id.
Qed.

Lemma get_own_set_other (o o' : object) (k k' : string) (x : value) :
  is_array_object o = false -> set_own o k x = Some o' -> k <> k' ->
  get_own o' k' = get_own o k'.
Proof.
  destruct o; simpl; try discriminate; intros _ H Hne; inversion H; subst; simpl;
    now apply assoc_set_other.
Qed.

(** The loop of the merge changes nothing when every key is settled: its
    value is truthy, or the object has the default as its own property. *)
Lemma for_each_merge_settled (d : props) (l : loc) (o : object) (h : heap)
    (keys : list string) :
  h !! l = Some o -> is_array_object o = false ->
  (forall key, In key keys ->
     truthy (get_in h l key) = true \/
     get_own o key = Some (default VUndefined (assoc key d))) ->
  for_each keys (merge_default (VObject l) d) h = (Ret tt, h).
Proof.
  intros Hl Ha. induction keys as [|key keys IH]; intros Hs; [reflexivity|].
  cbn [for_each]. rewrite (bind_ret _ _ h h tt).
  - apply IH. intros k Hk. apply Hs. now right.
  - unfold merge_default.
    rewrite (bind_ret _ _ h h (get_in h l key)) by reflexivity.
    destruct (truthy (get_in h l key)) eqn:Ht; [reflexivity|].
    destruct (Hs key (or_introl eq_refl)) as [E|Hown]; [congruence|].
    unfold set_prop. rewrite Hl, (set_own_same o key _ Ha Hown).
    now rewrite list_insert_id.
Qed.

(** After the loop of the merge every key is settled. *)
Lemma for_each_merge_settles (d : props) (l : loc) (keys : list string) :
  NoDup keys ->
  forall (h : heap) (o : object),
  h !! l = Some o -> is_array_object o = false ->
  exists h1 o1,
    for_each keys (merge_default (VObject l) d) h = (Ret tt, h1) /\
    h1 !! l = Some o1 /\ is_array_object o1 = false /\
    (forall k, ~ In k keys -> get_own o1 k = get_own o k) /\
    (forall key, In key keys ->
       truthy (get_in h1 l key) = true \/
       get_own o1 key = Some (default VUndefined (assoc key d))).
Proof.
  induction 1 as [|key keys Hnotin Hnd IH]; intros h o Hl Ha.
  - exists h, o. repeat split; auto; intros key [].
  - rewrite list_elem_of_In in Hnotin.
    assert (Hnk : existsb (String.eqb key) keys = false).
    { destruct (existsb (String.eqb key) keys) eqn:E; [|reflexivity].
      apply existsb_eqb_In in E. contradiction. }
    set (x := default VUndefined (assoc key d)).
    destruct (truthy (get_in h l key)) eqn:Ht.
    + assert (Hstep : merge_default (VObject l) d key h = (Ret tt, h)).
      { unfold merge_default.
        rewrite (bind_ret _ _ h h (get_in h l key)) by reflexivity.
        now rewrite Ht. }
      destruct (IH h o Hl Ha) as (h1 & o1 & Hrun & Hl1 & Ha1 & Hown & Hset).
      destruct (for_each_merge d l keys Hnd h o Hl Ha) as (h' & Hrun' & Hval & _).
      rewrite Hrun in Hrun'. injection Hrun' as <-.
      exists h1, o1. split; [|split; [exact Hl1|split; [exact Ha1|split]]].
      * cbn [for_each]. now rewrite (bind_ret _ _ _ _ _ Hstep).
      * intros k Hk. apply Hown. intros Hin. apply Hk. now right.
      * intros k [<-|Hk]; [|now apply Hset]. left. rewrite Hval, Hnk. exact Ht.
    + destruct (set_prop_object h l o key x Hl Ha) as (o' & Hso & Ha' & Hsp).
      assert (Hlt : l < length h) by (eapply lookup_lt_Some; eauto).
      assert (Hstep : merge_default (VObject l) d key h = (Ret tt, <[l:=o']> h)).
      { unfold merge_default.
        rewrite (bind_ret _ _ h h (get_in h l key)) by reflexivity.
        rewrite Ht. exact Hsp. }
      destruct (IH (<[l:=o']> h) o') as (h1 & o1 & Hrun & Hl1 & Ha1 & Hown & Hset);
        [now apply list_lookup_insert_eq|assumption|].
      exists h1, o1. split; [|split; [exact Hl1|split; [exact Ha1|split]]].
      * cbn [for_each]. now rewrite (bind_ret _ _ _ _ _ Hstep).
      * intros k Hk. rewrite Hown by (intros Hin; apply Hk; now right).
        eapply get_own_set_other; eauto. intros ->. apply Hk. now left.
      * intros k [<-|Hk]; [|now apply Hset]. right.
        rewrite Hown by assumption. eapply get_own_set_own; eauto.
Qed.

(** The defaults merge is idempotent: on an object that is not an array it
    returns, and a second merge of the same defaults returns and leaves the
    heap exactly as the first one left it. *)
Theorem setComponentDefaults_idempotent (h : heap) (l : loc) (o : object)
    (fields : list (string * mapping)) (d : props) :
  h !! l = Some o -> is_array_object o = false ->
  assoc "defaults" fields = Some (MDefaults d) ->
  exists h1,
    setComponentDefaults (VObject l) fields h = (Ret tt, h1) /\
    setComponentDefaults (VObject l) fields h1 = (Ret tt, h1).
Proof.
  intros Hl Ha Hd. unfold setComponentDefaults. rewrite Hd.
  destruct (for_each_merge_settles d l (dedup (map fst d)) (NoDup_dedup _) h o Hl Ha)
    as (h1 & o1 & Hrun & Hl1 & Ha1 & _ & Hset).
  exists h1. split; [exact Hrun|]. eapply for_each_merge_settled; eauto.
Qed.
(** ** What [create] returns and what it leaves alone *)

Section CreateFrame.

Variable components : ctor -> list (string * ctor).

(** A root configuration for whose type the lookup returns not found:
    [create] returns [undefined]; no component is made and no object that
    existed is assigned to: the heap only gains the protective copy. *)
Theorem create_unregistered_type (n : nat) (h : heap) (cfg : loc) (p : string) :
  closed h = true -> cfg < length h ->
  chart_type h (VObject cfg) = Ret (VString p) ->
  getMapping p = Ret None ->
  exists ps,
    create components (S n) (VObject cfg) h = (Ret VUndefined, h ++ [ODerived cfg ps]).
Proof.
  intros Hc Hlt Hty Hmap. unfold create.
  rewrite (bind_ret _ _ h (h ++ [ODerived cfg []]) (VObject (length h))) by reflexivity.
  cbn [_create]. unfold create_body. cbn [is_object negb].
  destruct (setComponentType_root h cfg (VString p) Hc Hlt Hty)
    as (ps & Hrun & Hread & _).
  exists ps.
  rewrite (bind_ret _ _ _ _ _ Hrun).
  rewrite (bind_ret _ _ _ (h ++ [ODerived cfg ps]) (VString p))
    by (unfold get_prop; now rewrite Hread).
  rewrite (bind_ret _ _ _ (h ++ [ODerived cfg ps]) p) by reflexivity.
  rewrite (bind_ret _ _ _ (h ++ [ODerived cfg ps]) None)
    by (unfold lift; now rewrite Hmap).
  reflexivity.
Qed.

Lemma set_prop_length (v x : value) (k : string) :
  preserves (fun h h' => length h <= length h') (set_prop v k x).
Proof.
  intros h r h' H. apply set_prop_touches in H. destruct H as [-> _]. lia.
Qed.

(** What [_create] returns is [undefined], or the component it was given,
    or an object that did not exist before the call. *)
Theorem create_returns_new_or_given (fuel : nat) (options : value) (path : option string)
    (component v : value) (h h' : heap) :
  _create components fuel options path component h = (Ret v, h') ->
  v = VUndefined \/ (truthy component = true /\ v = component) \/
  exists c, v = VObject c /\ length h <= c.
Proof.
  set (R := fun a b : heap => length a <= length b).
  assert (R_refl : forall a, R a a) by (intros a; unfold R; lia).
  assert (R_trans : forall a b c, R a b -> R b c -> R a c)
    by (intros a b c; unfold R; lia).
  assert (R_set : forall k x, preserves R (set_prop options k x))
    by (intros; apply set_prop_length).
  destruct fuel as [|n]; [discriminate|].
  cbn [_create]. unfold create_body. intros H.
  destruct (is_object options); cbn [negb] in H; [|inversion H; auto].
  apply bind_inv in H. destruct H as [(u & h1 & H1 & H)|(e & _ & E)]; [|discriminate].
  apply (preserves_setComponentType R R_refl R_trans options R_set) in H1.
  apply bind_inv in H. destruct H as [(t & h2 & H2 & H)|(e & _ & E)]; [|discriminate].
  unfold get_prop in H2. injection H2 as _ <-.
  apply bind_inv in H. destruct H as [(p & h3 & H3 & H)|(e & _ & E)]; [|discriminate].
  apply (preserves_resolve_path R _ _ R_refl R_trans) in H3.
  apply bind_inv in H. destruct H as [(m & h4 & H4 & H)|(e & _ & E)]; [|discriminate].
  unfold lift in H4. injection H4 as _ <-.
  destruct m as [[cl|l|d|fields]|]; try discriminate; [|inversion H; auto].
  apply bind_inv in H. destruct H as [(u' & h5 & H5 & H)|(e & _ & E)]; [|discriminate].
  apply (preserves_setComponentDefaults R R_refl R_trans options R_set) in H5.
  apply bind_inv in H. destruct H as [(params & h6 & H6 & H)|(e & _ & E)]; [|discriminate].
  assert (E6 : h6 = h5).
  { unfold constructorParams in H6.
    destruct (assoc "constructorParams" fields) as [[]|]; inversion H6; reflexivity. }
  subst h6.
  apply bind_inv in H. destruct H as [(vals & h7 & H7 & H)|(e & _ & E)]; [|discriminate].
  apply (preserves_read_params R R_refl R_trans options) in H7.
  apply bind_inv in H. destruct H as [(comp & h8 & H8 & H)|(e & _ & E)]; [|discriminate].
  apply bind_inv in H. destruct H as [(keys & h9 & _ & H)|(e & _ & E)]; [|discriminate].
  apply bind_inv in H. destruct H as [(u'' & h10 & _ & H)|(e & _ & E)]; [|discriminate].
  injection H as <- _.
  destruct (truthy component) eqn:Hcomp.
  - injection H8 as <- _. auto.
  - right. right.
    destruct (construct_fresh components fields vals h7 h8 comp H8)
      as (c & o0 & -> & Hge & _).
    exists c. split; [reflexivity|]. unfold R in *. lia.
Qed.

(** [create] leaves alone what the configuration does not reach: the
    objects of a region that no object outside of it refers to, and that
    holds neither the configuration nor the module's default axes, are the
    same after the call, whether it returns or raises. *)
Theorem create_leaves_unreachable (T : loc -> Prop) (fuel : nat) (options : value)
    (h h' : heap) (r : outcome value) :
  (forall l, T l -> l < length h) ->
  (forall l o v, h !! l = Some o -> ~ T l -> In v (obj_values o) -> outside T v) ->
  outside T options -> ~ T default_axes ->
  create components fuel options h = (r, h') ->
  forall l, T l -> h' !! l = h !! l.
Proof.
  intros Hdom Hcl Hopt Hax Hrun.
  set (Inv := fun H : heap => forall l, T l -> H !! l = h !! l).
  assert (Hframed : framed T Inv).
  { intros H H' HI Hsame l Hl. rewrite Hsame by assumption. now apply HI. }
  assert (Hguard : guards T Inv h).
  { split; [exact Hdom|]. split; [exact Hcl|]. intros l _. reflexivity. }
  assert (Hsafe : safe T Inv (create components fuel options) (fun _ => True)).
  { unfold create. eapply safe_bind with (P := outside T).
    - unfold object_create. destruct options; try apply safe_throw.
      + apply safe_alloc; [exact Hframed|]. intros v [].
      + apply safe_alloc; [exact Hframed|]. intros v [<-|[]]. exact Hopt.
    - intros copy Hcopy. eapply safe_weaken.
      + apply safe_create; [exact Hframed|exact Hax|exact Hcopy|apply outside_undefined].
      + auto. }
  destruct (Hsafe h r h' Hguard Hrun) as [(_ & _ & HI) _]. exact HI.
Qed.

(** [create] does not assign to the configuration object itself, provided
    no object of the heap refers to it (it is not part of its own tree):
    the object is the same after the call, whether it returns or raises. *)
Theorem create_keeps_configuration (fuel : nat) (h h' : heap) (cfg : loc)
    (r : outcome value) :
  closed h = true -> cfg < length h -> cfg <> default_axes ->
  (forall l o, h !! l = Some o -> ~ In (VObject cfg) (obj_values o)) ->
  create components fuel (VObject cfg) h = (r, h') ->
  h' !! cfg = h !! cfg.
Proof.
  intros Hc Hlt Hne Hunref Hrun.
  set (copy := length h).
  set (T := fun l : loc => l = cfg \/ l = copy).
  set (Inv := fun H : heap =>
                H !! cfg = h !! cfg /\
                exists ps, H !! copy = Some (ODerived cfg ps) /\
                           forall v, In v (map snd ps) -> outside T v).
  assert (Hframed : framed T Inv).
  { intros H H' (Hcfg & ps & Hcopy & Hps) Hsame. split.
    - rewrite Hsame by (now left). exact Hcfg.
    - exists ps. split; [|exact Hps]. rewrite Hsame by (now right). exact Hcopy. }
  assert (Hold : forall l o v, h !! l = Some o -> In v (obj_values o) -> outside T v).
  { intros l o v Hl Hin j -> [->| ->].
    - eapply Hunref; eauto.
    - pose proof (closed_all_below h Hc l o _ Hl Hin) as Hok. simpl in Hok.
      apply Nat.ltb_lt in Hok. unfold copy in Hok. lia. }
  assert (Hax : ~ T default_axes).
  { intros [E|E]; [congruence|]. unfold copy, default_axes in E. lia. }
  assert (Hguard : guards T Inv (h ++ [ODerived cfg []])).
  { split; [|split].
    - intros l [->| ->]; rewrite length_app; simpl; unfold copy; lia.
    - intros l o v Hl HT Hin.
      destruct (Nat.lt_ge_cases l (length h)) as [Hlo|Hhi].
      + rewrite lookup_app_old in Hl by assumption. eapply Hold; eauto.
      + exfalso. apply HT. right. apply lookup_lt_Some in Hl.
        rewrite length_app in Hl. simpl in Hl. unfold copy. lia.
    - split; [now apply lookup_app_old|]. exists []. split; [apply lookup_app_new|].
      intros v []. }
  assert (Hget : forall k, safe T Inv (get_prop (VObject copy) k) (outside T)).
  { intros k. apply safe_get_when.
    intros H w (_ & Hcl & Hcfg & ps & Hcopy & Hps) Hr.
    simpl in Hr. rewrite (get_in_derived H copy cfg ps k Hcopy Hlt) in Hr.
    inversion Hr; subst w. destruct (assoc k ps) as [w|] eqn:E.
    - apply Hps. eapply assoc_In; eauto.
    - unfold get_in. destruct (lookup_chain H cfg cfg k) as [w|] eqn:E';
        [|apply outside_undefined].
      simpl. eapply lookup_chain_outside; [exact Hcl| |exact E'].
      intros o w' Ho Hw'. rewrite Hcfg in Ho. eapply Hold; eauto. }
  assert (Hset : forall k x, outside T x ->
                   safe T Inv (set_prop (VObject copy) k x) (fun _ => True)).
  { intros k x Hx. apply safe_set_inside; [now right|].
    intros H o o' (_ & _ & Hcfg & ps & Hcopy & Hps) Ho Hso.
    rewrite Hcopy in Ho. inversion Ho; subst o. simpl in Hso. inversion Hso; subst o'.
    split.
    - rewrite list_lookup_insert_ne by (unfold copy; lia). exact Hcfg.
    - exists (assoc_set k x ps). split.
      + apply list_lookup_insert_eq. eapply lookup_lt_Some; eauto.
      + intros v Hv. destruct (assoc_set_values _ _ _ _ Hv) as [->|Hin]; auto. }
  unfold create in Hrun.
  rewrite (bind_ret _ _ h (h ++ [ODerived cfg []]) (VObject copy)) in Hrun
    by reflexivity.
  assert (Hsafe : safe T Inv (_create components fuel (VObject copy) None VUndefined)
                    (outside T)).
  { destruct fuel as [|n]; [apply safe_throw|]. cbn [_create].
    apply safe_create_body_at; try assumption.
    - apply safe_create; assumption.
    - apply outside_undefined. }
  destruct (Hsafe _ r h' Hguard Hrun) as [(_ & _ & Hcfg & _) _]. exact Hcfg.
Qed.

End CreateFrame.
(** ** [update] without a legend *)

Section UpdateNoop.

Variable instance_of : ctor -> ctor -> bool.
Variable Legend_defaults : props.

(** [update] does nothing at all without a legend: when the configuration's
    [legend] is absent or falsy no object that existed is assigned to,
    whatever else the configuration holds, whatever the chart, and whether
    the call returns or raises; the heap only gains the protective copy. *)
Theorem update_without_legend (h h' : heap) (chart : value) (cfg : loc)
    (r : outcome unit) :
  cfg < length h -> truthy (get_in h cfg "legend") = false ->
  update instance_of Legend_defaults chart (VObject cfg) h = (r, h') ->
  exists ps, h' = h ++ [ODerived cfg ps].
Proof.
  intros Hlt Hlegend Hrun.
  set (copy := VObject (length h)).
  set (Inv := fun H : heap =>
                exists ps, H = h ++ [ODerived cfg ps] /\ assoc "legend" ps = None).
  set (R := fun a b : heap => Inv a -> Inv b).
  assert (R_refl : forall a, R a a) by (intros a Ha; exact Ha).
  assert (R_trans : forall a b c, R a b -> R b c -> R a c)
    by (intros a b c Hab Hbc Ha; auto).
  assert (R_key : forall k x, k <> "legend" -> preserves R (set_prop copy k x)).
  { intros k x Hk a r0 b H (ps & -> & Hps). unfold copy in H. rewrite set_copy in H.
    inversion H; subst. exists (assoc_set k x ps). split; [reflexivity|].
    now rewrite assoc_set_other. }
  assert (P_type : preserves R (setComponentType copy None)).
  { unfold setComponentType, setChartType, default_type.
    repeat first [apply R_key; discriminate | pres_step]. }
  assert (P_defaults : forall fields, defaults_ok fields = true ->
                         preserves R (setComponentDefaults copy fields)).
  { intros fields Hok. pose proof (defaults_ok_legend fields Hok) as Hnl.
    unfold setComponentDefaults, defaults_keys in *.
    destruct (assoc "defaults" fields) as [[]|]; try (now apply preserves_throw);
      [|now apply preserves_ret].
    apply preserves_for_each; try assumption. intros key Hkey.
    apply (proj1 (In_dedup _ _)) in Hkey. unfold merge_default.
    repeat first [apply R_key; intros ->; contradiction | pres_step]. }
  assert (P_inst : forall fields, preserves R (instanceof instance_of chart fields)).
  { intros fields a r0 b H. pose proof (instanceof_pure instance_of chart fields a) as Hs.
    rewrite H in Hs. simpl in Hs. subst b. apply R_refl. }
  assert (P_tail :
            preserves R
              (let* optLegend := get_prop copy "legend" in
               if truthy optLegend then
                 for_each (dedup (map fst Legend_defaults))
                          (update_legend_key Legend_defaults chart copy)
               else ret tt)).
  { intros a r0 b H (ps & -> & Hps).
    rewrite (bind_ret _ _ _ (h ++ [ODerived cfg ps]) (get_in h cfg "legend")) in H.
    - rewrite Hlegend in H. inversion H; subst. exists ps. auto.
    - unfold get_prop, copy. rewrite read_copy by assumption. now rewrite Hps. }
  assert (P_update : preserves R (_update instance_of Legend_defaults chart copy None)).
  { unfold _update. cbn [is_object negb copy].
    pres_step; [exact P_type|].
    pres_step; [pres_step|].
    pres_step; [now apply preserves_resolve_path|].
    apply preserves_lift_bind; [exact R_refl|]. intros mapping Hmap.
    pres_step.
    - destruct mapping as [[cl|l|d|fields]|]; try (now apply preserves_throw);
        [|now apply preserves_ret].
      pres_step; [apply P_inst|]. pres_step; [|pres_step].
      pres_step; [|pres_step].
      apply P_defaults. eapply getMapping_defaults_ok; eauto.
    - pres_step; [exact P_tail|pres_step]. }
  unfold update in Hrun.
  rewrite (bind_ret _ _ h (h ++ [ODerived cfg []]) copy) in Hrun by reflexivity.
  destruct (P_update _ _ _ Hrun) as (ps & -> & _).
  - exists []. auto.
  - exists ps. reflexivity.
Qed.

(** A legend that is a truthy primitive ([true], a number, a string) makes
    [update] raise a TypeError at the first key of [Legend.defaults], when
    the kind check does not stop the call before: [key in options.legend]
    is applied to a primitive.  Nothing has been assigned to then. *)
Theorem update_primitive_legend_raises (h : heap) (chart v : value) (cfg : loc)
    (p : string) :
  closed h = true -> cfg < length h -> val_ok (length h) chart = true ->
  chart_type h (VObject cfg) = Ret (VString p) ->
  (getMapping p = Ret None \/
   exists fields, getMapping p = Ret (Some (MObject fields)) /\
     instanceof instance_of chart fields h = (Ret true, h)) ->
  get_in h cfg "legend" = v -> truthy v = true ->
  (forall l, v <> VObject l) -> (forall s, v <> VHost s) ->
  Legend_defaults <> [] ->
  exists ps,
    update instance_of Legend_defaults chart (VObject cfg) h
      = (Err TypeError, h ++ [ODerived cfg ps]).
Proof.
  intros Hc Hlt Hchart Hty Hcheck Hv Htruthy Hobj Hhost Hne.
  destruct (update_head instance_of Legend_defaults chart h cfg p Hc Hlt Hty)
    as (ps1 & Hps1 & ->).
  assert (Hproceed : exists ps,
            assoc "legend" ps = None /\
            (let* mapping := lift (getMapping p) in
             match mapping with
             | None => ret true
             | Some (MObject fields) =>
                 let* ok := instanceof instance_of chart fields in
                 if ok then setComponentDefaults (VObject (length h)) fields >> ret true
                 else ret false
             | Some _ => throw Unmodelled
             end) (h ++ [ODerived cfg ps1]) = (Ret true, h ++ [ODerived cfg ps])).
  { destruct Hcheck as [Hnone|(fields & Hsome & Hinst)].
    - exists ps1. split; [apply Hps1; discriminate|].
      rewrite (bind_ret _ _ _ (h ++ [ODerived cfg ps1]) None)
        by (unfold lift; now rewrite Hnone).
      reflexivity.
    - assert (Hdok : defaults_ok fields = true)
        by (eapply getMapping_defaults_ok; eauto).
      destruct (setComponentDefaults_copy h cfg fields ps1 Hdok Hlt)
        as (ps & Hrun & Hps & _).
      exists ps. split.
      { rewrite Hps by now apply defaults_ok_legend. apply Hps1. discriminate. }
      rewrite (bind_ret _ _ _ (h ++ [ODerived cfg ps1]) (Some (MObject fields)))
        by (unfold lift; now rewrite Hsome).
      rewrite (bind_ret _ _ _ (h ++ [ODerived cfg ps1]) true)
        by (apply instanceof_run_old; assumption).
      rewrite (bind_ret _ _ _ _ _ Hrun). reflexivity. }
  destruct Hproceed as (ps & Hps & Hrun). exists ps.
  assert (Hlegend : get_prop (VObject (length h)) "legend" (h ++ [ODerived cfg ps])
                    = (Ret v, h ++ [ODerived cfg ps])).
  { unfold get_prop. rewrite read_copy by assumption. now rewrite Hps, Hv. }
  unfold bind at 1. unfold bind at 1 in Hrun.
  destruct (lift (getMapping p) (h ++ [ODerived cfg ps1])) as [[m|e] h1];
    [|discriminate].
  unfold bind at 1. rewrite Hrun.
  rewrite (bind_ret _ _ _ _ _ Hlegend). rewrite Htruthy.
  destruct Legend_defaults as [|[k0 d0] rest]; [congruence|].
  cbn [map fst dedup for_each]. apply bind_err.
  unfold update_legend_key. rewrite (bind_ret _ _ _ _ _ Hlegend).
  apply bind_err. unfold has_prop.
  destruct v; try reflexivity; [exfalso; eapply Hobj|exfalso; eapply Hhost]; reflexivity.
Qed.

End UpdateNoop.
(** ** Configuring a component that exists, and the empty configuration *)

Lemma assoc_In_fst {A : Type} (k : string) (l : list (string * A)) :
  In k (map fst l) -> exists v, assoc k l = Some v.
Proof.
  induction l as [|[k0 v0] r IH]; simpl; [intros []|].
  destruct (String.eqb_spec k k0) as [->|Hne]; [eauto|].
  intros [E|Hin]; [congruence|now apply IH].
Qed.

Section Configure.

Variable components : ctor -> list (string * ctor).

(** The loop over the keys of a flat configuration: every key is assigned
    on the component as it is. *)
Lemma for_each_assign (rec : value -> option string -> value -> M value)
    (path : string) (o c : loc) (ps : props) (cls : ctor) (args : list value)
    (keys : list string) :
  o <> c ->
  (forall k, In k keys -> k <> "type" /\ builtin_name k = false) ->
  forall (h : heap) (cps : props),
  h !! o = Some (OPlain ps) -> h !! c = Some (OInst cls args cps) ->
  exists cps',
    for_each keys
      (process_key rec [("constructor", MFunction "Legend")] path []
         (VObject o) (VObject c)) h
    = (Ret tt, <[c := OInst cls args cps']> h) /\
    (forall k, In k keys -> assoc k cps' = Some (default VUndefined (assoc k ps))) /\
    (forall k, ~ In k keys -> assoc k cps' = assoc k cps).
Proof.
  intros Hoc. induction keys as [|key keys IH]; intros Hkeys h cps Ho Hc.
  - exists cps. split; [|split; [intros k []|reflexivity]].
    cbn [for_each]. unfold ret. now rewrite list_insert_id.
  - destruct (Hkeys key (or_introl eq_refl)) as [Hkt Hkb].
    assert (Hclt : c < length h) by (eapply lookup_lt_Some; eauto).
    set (x := default VUndefined (assoc key ps)).
    set (h1 := <[c := OInst cls args (assoc_set key x cps)]> h).
    assert (Hstep : process_key rec [("constructor", MFunction "Legend")] path []
                      (VObject o) (VObject c) key h = (Ret tt, h1)).
    { unfold process_key.
      destruct (String.eqb_spec key "type") as [|_]; [contradiction|]. cbn [existsb orb].
      rewrite (bind_ret _ _ h h x)
        by (unfold get_prop; simpl; now rewrite (get_in_plain h o ps key Ho)).
      assert (Hknown : key_in_mapping key [("constructor", MFunction "Legend")]
                       = ret false).
      { unfold key_in_mapping. cbn [assoc].
        destruct (String.eqb_spec key "constructor") as [->|_]; [discriminate|].
        now rewrite Hkb. }
      rewrite Hknown, (bind_ret _ _ h h false) by reflexivity.
      rewrite (bind_ret _ _ h h false) by reflexivity. cbn [andb].
      unfold set_prop. now rewrite Hc. }
    destruct (IH (fun k Hk => Hkeys k (or_intror Hk)) h1 (assoc_set key x cps))
      as (cps' & Hrun & Hin & Hout).
    + unfold h1. rewrite list_lookup_insert_ne by congruence. exact Ho.
    + unfold h1. now apply list_lookup_insert_eq.
    + exists cps'. split; [|split].
      * cbn [for_each]. rewrite (bind_ret _ _ _ _ _ Hstep), Hrun.
        unfold h1. now rewrite list_insert_insert_eq.
      * intros k [<-|Hk]; [|now apply Hin].
        destruct (in_dec String.string_dec key keys) as [Hk|Hk]; [now apply Hin|].
        rewrite Hout by assumption. apply assoc_set_same.
      * intros k Hk. rewrite Hout by (intros Hin'; apply Hk; now right).
        apply assoc_set_other. intros ->. apply Hk. now left.
Qed.

(** Given the legend that a chart already has, [_create] configures it and
    creates nothing: for a legend configuration without [type] (and without
    a key named like a member of [Object.prototype]) it returns the legend
    it was given, on which every property of the configuration has been
    assigned as it is; the other properties of the legend and all other
    objects, the configuration among them, are as before. *)
Theorem configure_existing_legend (n : nat) (h : heap) (o c : loc) (ps cps : props)
    (cls : ctor) (args : list value) (path : string) :
  h !! o = Some (OPlain ps) -> h !! c = Some (OInst cls args cps) -> o <> c ->
  assoc "type" ps = None ->
  forallb (fun k => negb (builtin_name k)) (map fst ps) = true ->
  path = "cartesian.legend" \/ path = "polar.legend" ->
  exists cps',
    _create components (S n) (VObject o) (Some path) (VObject c) h
    = (Ret (VObject c), <[c := OInst cls args cps']> h) /\
    (forall k, In k (map fst ps) -> assoc k cps' = assoc k ps) /\
    (forall k, ~ In k (map fst ps) -> assoc k cps' = assoc k cps).
Proof.
  intros Ho Hc Hoc Hty Hb Hpath.
  assert (Hkeys : forall k, In k (dedup (map fst ps)) ->
                    k <> "type" /\ builtin_name k = false).
  { intros k Hk. apply (proj1 (In_dedup _ _)) in Hk. split.
    - intros ->. destruct (assoc_In_fst "type" ps Hk) as [v E]. congruence.
    - rewrite forallb_forall in Hb. now apply negb_true_iff, Hb. }
  destruct (for_each_assign (_create components n) path o c ps cls args
              (dedup (map fst ps)) Hoc Hkeys h cps Ho Hc)
    as (cps' & Hrun & Hin & Hout).
  exists cps'. split; [|split].
  - cbn [_create]. unfold create_body. cbn [is_object negb].
    assert (Htype : get_prop (VObject o) "type" h = (Ret VUndefined, h)).
    { unfold get_prop. simpl. now rewrite (get_in_plain h o ps "type" Ho), Hty. }
    rewrite (bind_ret _ _ h h tt)
      by (destruct Hpath as [->| ->]; reflexivity).
    rewrite (bind_ret _ _ _ _ _ Htype).
    rewrite (bind_ret _ _ h h path) by (destruct Hpath as [->| ->]; reflexivity).
    rewrite (bind_ret _ _ h h (Some (MObject [("constructor", MFunction "Legend")])))
      by (destruct Hpath as [->| ->]; reflexivity).
    rewrite (bind_ret _ _ h h tt) by reflexivity.
    rewrite (bind_ret _ _ h h []) by reflexivity.
    rewrite (bind_ret _ _ h h []) by reflexivity.
    cbn [truthy]. rewrite (bind_ret _ _ h h (VObject c)) by reflexivity.
    rewrite (bind_ret _ _ h h (dedup (map fst ps)))
      by (unfold forin_keys; now rewrite (keys_in_plain h o ps Ho)).
    now rewrite (bind_ret _ _ _ _ _ Hrun).
  - intros k Hk. rewrite Hin by (now apply In_dedup).
    destruct (assoc_In_fst k ps Hk) as [v ->]. reflexivity.
  - intros k Hk. apply Hout. intros Hd. apply Hk. now apply In_dedup.
Qed.

(** The empty configuration gives the default chart: [create] returns a new
    cartesian chart with the two default axes.  The inferred type and the
    default axes are assigned on the protective copy; no object that
    existed, the configuration among them, is assigned to. *)
Theorem create_empty_configuration (n : nat) (h : heap) (cfg : loc) :
  module_loaded h -> h !! cfg = Some (OPlain []) ->
  exists c ax locs ps h',
    create components (S (S n)) (VObject cfg) h = (Ret (VObject c), h') /\
    h' !! c = Some (OInst "CartesianChart" [] ps) /\
    assoc "axes" ps = Some (VObject ax) /\ h' !! ax = Some (OArray locs []) /\
    Forall2 (axis_built h') locs default_axes_spec /\
    h' !! length h
      = Some (ODerived cfg [("type", VString "cartesian");
                            ("axes", VObject default_axes)]) /\
    (forall l, l < length h -> h' !! l = h !! l).
Proof.
  intros (Hm0 & Hm1 & Hm2) Hcfg.
  assert (Hlt : cfg < length h) by (eapply lookup_lt_Some; eauto).
  assert (H0lt : 0 < length h) by (eapply lookup_lt_Some; eauto).
  assert (H1lt : 1 < length h) by (eapply lookup_lt_Some; eauto).
  assert (H2lt : 2 < length h) by (eapply lookup_lt_Some; eauto).
  assert (Hget : forall k, get_in h cfg k = VUndefined)
    by (intros k; now rewrite (get_in_plain h cfg [] k Hcfg)).
  set (ps1 := [("type", VString "cartesian")]).
  set (ps2 := [("type", VString "cartesian"); ("axes", VObject default_axes)]).
  set (Hb := h ++ [ODerived cfg ps2]).
  set (c := instance_loc components Hb "CartesianChart").
  set (H3 := instance_heap components Hb "CartesianChart" [] (fun ps => ps)).
  set (ps0 := imap (fun i nc => (fst nc, VObject (length Hb + i)))
                (components "CartesianChart")).
  assert (HlenHb : length Hb = S (length h))
    by (unfold Hb; rewrite length_app; simpl; lia).
  assert (Hold3 : forall l, l < length h -> H3 !! l = h !! l).
  { intros l Hl. unfold H3. rewrite instance_heap_old by lia.
    now apply lookup_app_old. }
  assert (Hcopy3 : H3 !! length h = Some (ODerived cfg ps2)).
  { unfold H3. rewrite instance_heap_old by lia. apply lookup_app_new. }
  assert (Hc3 : H3 !! c = Some (OInst "CartesianChart" [] ps0))
    by apply instance_heap_new.
  assert (Hclt : length h < c) by (unfold c, instance_loc; lia).
  assert (HlenH3 : length H3 = S c) by apply instance_heap_length.
  destruct (axes_result components H3 c "CartesianChart" [] ps0 default_axes_spec Hc3)
    as (Hc7 & Hax7 & Hbuilt7 & Hold7 & Hlen7 & Hcax).
  set (ax := length (axes_heap components H3 default_axes_spec)) in *.
  set (H7 := <[c := OInst "CartesianChart" [] (assoc_set "axes" (VObject ax) ps0)]>
               (axes_heap components H3 default_axes_spec ++
                [OArray (axes_locs components H3 default_axes_spec) []])) in *.
  assert (Hrun_axes :
            process_key (_create components (S n)) (descriptor_fields "cartesian")
              "cartesian" ["document"] (VObject (length h)) (VObject c) "axes" H3
            = (Ret tt, H7)).
  { apply (process_key_axes components n (VObject (length h)) c 0 H3
             [VObject 1; VObject 2] [] default_axes_spec "CartesianChart" [] ps0).
    - apply (get_prop_own H3 (length h) (ODerived cfg ps2)); [exact Hcopy3|reflexivity].
    - rewrite Hold3 by assumption. exact Hm0.
    - repeat constructor.
      + exists 1, "category". rewrite Hold3 by assumption. auto.
      + exists 2, "number". rewrite Hold3 by assumption. auto.
    - exact Hc3. }
  assert (Hread : forall ps k, get_prop (VObject (length h)) k (h ++ [ODerived cfg ps])
                    = (Ret (default VUndefined (assoc k ps)), h ++ [ODerived cfg ps])).
  { intros ps k. unfold get_prop. rewrite read_copy by assumption.
    rewrite Hget. now destruct (assoc k ps). }
  assert (Hrun :
            create components (S (S n)) (VObject cfg) h = (Ret (VObject c), H7)).
  { unfold create.
    rewrite (bind_ret _ _ h (h ++ [ODerived cfg []]) (VObject (length h))) by reflexivity.
    remember (S n) as m eqn:Hm.
    cbn [_create]. unfold create_body. cbn [is_object negb].
    rewrite (bind_ret _ _ _ (h ++ [ODerived cfg ps1]) tt).
    2:{ unfold setComponentType. cbn [path_falsy path_is].
        rewrite (bind_ret _ _ _ (h ++ [ODerived cfg ps1]) tt); [reflexivity|].
        unfold setChartType.
        rewrite (bind_ret _ _ _ _ _ (Hread [] "type")). cbn [assoc default truthy].
        rewrite (bind_ret _ _ _ _ _ (Hread [] "series")). cbn [assoc default truthy].
        rewrite (bind_ret _ _ _ (h ++ [ODerived cfg []]) VUndefined) by reflexivity.
        rewrite (bind_ret _ _ _ (h ++ [ODerived cfg []]) VUndefined) by reflexivity.
        cbn [truthy].
        rewrite (bind_ret _ _ _ (h ++ [ODerived cfg []]) tt) by reflexivity.
        rewrite (bind_ret _ _ _ _ _ (Hread [] "type")). cbn [assoc default truthy].
        apply set_copy. }
    rewrite (bind_ret _ _ _ _ _ (Hread ps1 "type")).
    rewrite (bind_ret _ _ _ (h ++ [ODerived cfg ps1]) "cartesian") by reflexivity.
    rewrite (bind_ret _ _ _ (h ++ [ODerived cfg ps1])
               (Some (MObject (descriptor_fields "cartesian")))) by reflexivity.
    rewrite (bind_ret _ _ _ Hb tt).
    2:{ change (setComponentDefaults (VObject (length h)) (descriptor_fields "cartesian"))
          with (for_each ["axes"]
                  (merge_default (VObject (length h)) [("axes", VObject default_axes)])).
        cbn [for_each]. unfold merge_default.
        rewrite (bind_ret _ _ _ Hb tt); [reflexivity|].
        rewrite (bind_ret _ _ _ _ _ (Hread ps1 "axes")). cbn [truthy].
        apply set_copy. }
    rewrite (bind_ret _ _ _ Hb ["document"]) by reflexivity.
    rewrite (bind_ret _ _ _ Hb []).
    2:{ cbn [read_params]. rewrite (bind_ret _ _ _ _ _ (Hread ps2 "document")).
        reflexivity. }
    cbn [truthy].
    rewrite (bind_ret _ _ _ _ _ (new_instance_run components Hb "CartesianChart" [])).
    fold c H3.
    rewrite (bind_ret _ _ _ H3 ["type"; "axes"]).
    2:{ unfold forin_keys.
        rewrite (keys_in_derived_plain _ (length h) cfg ps2 []); try assumption.
        - reflexivity.
        - rewrite Hold3 by assumption. exact Hcfg. }
    subst m. cbn [for_each].
    rewrite (bind_ret _ _ H3 H7 tt); [reflexivity|].
    rewrite (bind_ret _ _ H3 H3 tt) by reflexivity.
    rewrite (bind_ret _ _ _ _ _ Hrun_axes). reflexivity. }
  exists c, ax, (axes_locs components H3 default_axes_spec),
    (assoc_set "axes" (VObject ax) ps0), H7.
  split; [exact Hrun|]. split; [exact Hc7|]. split; [apply assoc_set_same|].
  split; [exact Hax7|]. split; [exact Hbuilt7|]. split.
  - rewrite Hold7 by lia. exact Hcopy3.
  - intros l Hl. rewrite Hold7 by lia. now apply Hold3.
Qed.

End Configure.
(** ** The head of [create] on a root configuration *)

(** The run of [create] up to the construction of the component: the type
    is settled on the protective copy, the descriptor found, the defaults
    merged into the copy, the constructor parameters read. *)
Lemma create_root_run (components : ctor -> list (string * ctor)) (n : nat) (h : heap)
    (cfg : loc) (p : string) (fields : list (string * mapping)) :
  cfg < length h ->
  first_series_type (h ++ [ODerived cfg []]) (VObject (length h)) =
    first_series_type h (VObject cfg) ->
  chart_type h (VObject cfg) = Ret (VString p) ->
  getMapping p = Ret (Some (MObject fields)) ->
  exists ps,
    create components (S n) (VObject cfg) h =
      (let* component :=
         construct components fields
           (List.filter defined (map (get_in h cfg) (params_of fields))) in
       let* keys := forin_keys (VObject (length h)) in
       for_each keys
         (process_key (_create components n) fields p (params_of fields)
            (VObject (length h)) component) >>
       ret component) (h ++ [ODerived cfg ps]) /\
    (assoc "type" ps = None \/ assoc "type" ps = Some (VString p)) /\
    read (h ++ [ODerived cfg ps]) (VObject (length h)) "type" = Ret (VString p) /\
    (forall k, k <> "type" -> ~ In k (defaults_keys fields) -> assoc k ps = None) /\
    (forall v, In v (map snd ps) ->
       (exists s, v = VString s) \/ v = VUndefined \/
       exists d, assoc "defaults" fields = Some (MDefaults d) /\ In v (map snd d)) /\
    (forall k, k <> "type" -> truthy (get_in h cfg k) = true -> assoc k ps = None).
Proof.
  intros Hlt Hcopy Hty Hmap.
  destruct (setComponentType_root_at h cfg (VString p) Hlt Hcopy Hty)
    as (ps1 & Hrun1 & Hread1 & Hps1 & Hvals1 & Hshape1).
  assert (Hdok : defaults_ok fields = true) by (eapply getMapping_defaults_ok; eauto).
  assert (Hpok : params_ok fields = true) by (eapply getMapping_params_ok; eauto).
  assert (Htl : defaults_typeless fields = true).
  { pose proof (all_nodes_getMapping defaults_typeless p (MObject fields) eq_refl Hmap) as H.
    simpl in H. now apply andb_true_iff in H. }
  destruct (setComponentDefaults_copy h cfg fields ps1 Hdok Hlt)
    as (ps2 & Hrun2 & Hkeep & Hvals2).
  assert (Htype : assoc "type" ps2 = assoc "type" ps1).
  { apply Hkeep. intros Hin. unfold defaults_typeless in Htl.
    apply negb_true_iff in Htl. apply (proj2 (existsb_eqb_In _ _)) in Hin. congruence. }
  assert (Hnone : forall q, In q (params_of fields) -> assoc q ps2 = None).
  { intros q Hq. destruct (params_ok_In fields q Hpok Hq) as [Hqt Hqd].
    rewrite Hkeep by assumption. now apply Hps1. }
  exists ps2. split; [|split; [|split; [|split; [|split]]]].
  - unfold create.
    rewrite (bind_ret _ _ h (h ++ [ODerived cfg []]) (VObject (length h)))
      by reflexivity.
    cbn [_create]. unfold create_body. cbn [is_object negb].
    rewrite (bind_ret _ _ _ _ _ Hrun1).
    rewrite (bind_ret _ _ _ (h ++ [ODerived cfg ps1]) (VString p))
      by (unfold get_prop; now rewrite Hread1).
    rewrite (bind_ret _ _ _ (h ++ [ODerived cfg ps1]) p) by reflexivity.
    rewrite (bind_ret _ _ _ (h ++ [ODerived cfg ps1]) (Some (MObject fields)))
      by (unfold lift; now rewrite Hmap).
    rewrite (bind_ret _ _ _ _ _ Hrun2).
    rewrite (constructorParams_run fields Hpok).
    rewrite (bind_ret _ _ _ (h ++ [ODerived cfg ps2]) (params_of fields))
      by reflexivity.
    rewrite (bind_ret _ _ _ _ _ (read_params_copy h cfg ps2 (params_of fields) Hlt Hnone)).
    reflexivity.
  - rewrite Htype. destruct Hshape1 as [->|(s & ->)]; [now left|].
    right. rewrite read_copy in Hread1 by assumption. simpl in Hread1.
    now inversion Hread1.
  - rewrite read_copy in Hread1 |- * by assumption. now rewrite Htype.
  - intros k Hk Hd. rewrite Hkeep by assumption. now apply Hps1.
  - intros v Hv. destruct (Hvals2 v Hv) as [H|[->|H]]; auto.
  - intros k Hk Ht.
    rewrite (setComponentDefaults_copy_truthy h cfg fields ps1 ps2 Hlt Hrun2 k);
      rewrite (Hps1 k Hk); [reflexivity|exact Ht].
Qed.
(** ** Heap relations kept by [_create] *)

Lemma preserves_bind_post {A B : Type} (R : heap -> heap -> Prop) (Q : A -> Prop)
    (m : M A) (f : A -> M B) :
  (forall h1 h2 h3, R h1 h2 -> R h2 h3 -> R h1 h3) ->
  (forall h a h', m h = (Ret a, h') -> Q a) ->
  preserves R m -> (forall a, Q a -> preserves R (f a)) ->
  preserves R (bind m f).
Proof.
  intros R_trans HQ Hm Hf h r h' H. apply bind_inv in H.
  destruct H as [(a & h1 & H1 & H2)|(e & H1 & _)].
  - eapply R_trans; [eapply Hm; eauto|]. eapply Hf; eauto.
  - eapply Hm; eauto.
Qed.

Lemma getMapping_defaults_typeless (path : string) (fields : list (string * mapping)) :
  getMapping path = Ret (Some (MObject fields)) -> defaults_typeless fields = true.
Proof.
  intros H. apply (all_nodes_getMapping defaults_typeless) in H; [|reflexivity].
  simpl in H. now apply andb_true_iff in H.
Qed.

Lemma resolve_path_nested (p : string) (t : value) (h h' : heap) (a : string) :
  p <> "" -> resolve_path (Some p) t h = (Ret a, h') ->
  a = p \/ exists s, a = dot p s.
Proof.
  intros Hp. unfold resolve_path. cbn [path_falsy default].
  destruct (String.eqb_spec p ""); [contradiction|].
  destruct (truthy t).
  - intros H. apply bind_inv in H.
    destruct H as [(s & h1 & _ & H)|(e & _ & E)]; [|discriminate].
    inversion H; subst. eauto.
  - intros H. inversion H. auto.
Qed.

Section PreservesCreate.

Variable components : ctor -> list (string * ctor).
Variable R : heap -> heap -> Prop.
(** The paths of the nested calls. *)
Variable P : string -> Prop.

Hypothesis R_refl : forall h, R h h.
Hypothesis R_trans : forall h1 h2 h3, R h1 h2 -> R h2 h3 -> R h1 h3.
Hypothesis R_alloc : forall o, preserves R (alloc o).
Hypothesis R_new : forall cls args, preserves R (new_instance components cls args).
Hypothesis R_set : forall v k x, k <> "type" -> preserves R (set_prop v k x).
Hypothesis R_line : forall v, P "cartesian.series" -> preserves R (default_type v "line").
Hypothesis R_pie : forall v, P "polar.series" -> preserves R (default_type v "pie").
Hypothesis P_dot : forall p s, P p -> P (dot p s).
Hypothesis P_some : forall p, P p -> p <> "".

Lemma kept_setComponentType (options : value) (p : string) :
  P p -> preserves R (setComponentType options (Some p)).
Proof.
  intros Hp. unfold setComponentType. cbn [path_falsy path_is].
  destruct (String.eqb_spec p "") as [E|_]; [now apply P_some in E|].
  pres_step; [pres_step|].
  pres_step.
  - destruct (String.eqb_spec p "cartesian.series") as [->|_]; [now apply R_line|pres_step].
  - destruct (String.eqb_spec p "polar.series") as [->|_]; [now apply R_pie|pres_step].
Qed.

Lemma kept_setComponentDefaults (options : value) (fields : list (string * mapping)) :
  defaults_typeless fields = true ->
  preserves R (setComponentDefaults options fields).
Proof.
  intros Hok. unfold defaults_typeless, defaults_keys in Hok.
  unfold setComponentDefaults.
  destruct (assoc "defaults" fields) as [[]|]; try (now apply preserves_throw);
    [|now apply preserves_ret].
  apply preserves_for_each; try assumption. intros key Hkey.
  apply (proj1 (In_dedup _ _)) in Hkey.
  assert (Hne : key <> "type").
  { intros ->. apply negb_true_iff in Hok.
    apply (proj2 (existsb_eqb_In _ _)) in Hkey. congruence. }
  unfold merge_default. repeat first [now apply R_set | pres_step].
Qed.

Lemma kept_construct (fields : list (string * mapping)) (args : list value) :
  preserves R (construct components fields args).
Proof.
  unfold construct. destruct (assoc "constructor" fields) as [[]|];
    try (now apply preserves_throw); [apply R_new|].
  destruct args; [apply R_alloc|now apply preserves_throw].
Qed.

Local Abbreviation rec_kept := (rec_kept R P).

Lemma kept_map_create (rec : value -> option string -> value -> M value)
    (elems : list value) (p : string) :
  rec_kept rec -> P p -> preserves R (map_create rec elems p).
Proof.
  intros Hrec Hp. induction elems as [|config elems IH]; simpl.
  - now apply preserves_ret.
  - pres_step; [now apply Hrec|]. pres_step; [exact IH|]. pres_step.
Qed.

Lemma kept_process_key (rec : value -> option string -> value -> M value)
    (fields : list (string * mapping)) (p : string) (params : list string)
    (options component : value) (key : string) :
  rec_kept rec -> P p ->
  preserves R (process_key rec fields p params options component key).
Proof.
  intros Hrec Hp. unfold process_key.
  destruct (String.eqb_spec key "type") as [|Hkt]; [now apply preserves_ret|].
  destruct (existsb (String.eqb key) params); [now apply preserves_ret|]. cbn [orb].
  pres_step; [pres_step|].
  pres_step.
  { unfold key_in_mapping. destruct (assoc key fields), (builtin_name key);
      first [now apply preserves_throw | now apply preserves_ret]. }
  pres_step.
  { destruct a0; [|now apply preserves_ret]. unfold excluded.
    destruct (assoc "exclude" fields) as [[]|];
      first [now apply preserves_throw | now apply preserves_ret]. }
  destruct (a0 && negb a1); [|now apply R_set].
  pres_step; [pres_step|]. destruct a2.
  - pres_step; [pres_step|].
    pres_step; [apply kept_map_create; auto|].
    pres_step; [apply R_alloc|]. now apply R_set.
  - pres_step; [pres_step|]. destruct (truthy a2).
    + pres_step; [apply Hrec; auto|]. pres_step.
    + pres_step; [pres_step|].
      pres_step; [apply Hrec; destruct (truthy a3); auto|].
      destruct (truthy a4); [now apply R_set|now apply preserves_ret].
Qed.

Lemma kept_for_each_keys (rec : value -> option string -> value -> M value)
    (fields : list (string * mapping)) (p : string) (params : list string)
    (options component : value) (keys : list string) :
  rec_kept rec -> P p ->
  preserves R (for_each keys (process_key rec fields p params options component)).
Proof.
  intros Hrec Hp. apply preserves_for_each; try assumption.
  intros key _. now apply kept_process_key.
Qed.

(** What [_create] does once the descriptor of the path is found. *)
Lemma kept_mapping (rec : value -> option string -> value -> M value)
    (options : value) (p : string) (component : value) (mapping : option mapping) :
  rec_kept rec -> P p -> getMapping p = Ret mapping ->
  preserves R
    (match mapping with
     | None => ret VUndefined
     | Some (MObject fields) =>
         setComponentDefaults options fields >>
         (let* params := constructorParams fields in
          let* constructorParamValues := read_params options params in
          let* component0 :=
            (if truthy component then ret component
             else construct components fields constructorParamValues) in
          let* keys := forin_keys options in
          for_each keys (process_key rec fields p params options component0) >>
          ret component0)
     | Some _ => throw Unmodelled
     end).
Proof.
  intros Hrec Hp Hmap.
  destruct mapping as [[cl|l|d|fields]|]; try (now apply preserves_throw);
    [|now apply preserves_ret].
  pres_step; [apply kept_setComponentDefaults; eapply getMapping_defaults_typeless; eauto|].
  pres_step.
  { unfold constructorParams. destruct (assoc "constructorParams" fields) as [[]|];
      first [now apply preserves_throw | now apply preserves_ret]. }
  pres_step; [now apply preserves_read_params|].
  pres_step.
  { destruct (truthy component); [now apply preserves_ret|apply kept_construct]. }
  pres_step; [pres_step|].
  pres_step; [now apply kept_for_each_keys|]. pres_step.
Qed.

Lemma kept_create_body (rec : value -> option string -> value -> M value)
    (options : value) (p : string) (component : value) :
  rec_kept rec -> P p ->
  preserves R (create_body components rec options (Some p) component).
Proof.
  intros Hrec Hp. unfold create_body.
  destruct (is_object options); cbn [negb]; [|now apply preserves_ret].
  pres_step; [now apply kept_setComponentType|].
  pres_step; [pres_step|].
  apply (preserves_bind_post R (fun a => P a)); try assumption.
  { intros h0 x h1 H. apply resolve_path_nested in H; [|now apply P_some].
    destruct H as [->|(s & ->)]; auto. }
  { now apply preserves_resolve_path. }
  intros path' Hp'.
  apply preserves_lift_bind; [assumption|]. intros mapping Hmap.
  now apply kept_mapping.
Qed.

Lemma kept_create (fuel : nat) : rec_kept (_create components fuel).
Proof.
  induction fuel as [|n IH]; intros options p component Hp.
  - now apply preserves_throw.
  - cbn [_create]. now apply kept_create_body.
Qed.


End PreservesCreate.
(** ** The types that [_create] leaves on the objects of the heap *)

Lemma get_own_type_set_other (o o' : object) (k : string) (x : value) :
  set_own o k x = Some o' -> k <> "type" -> get_own o' "type" = get_own o "type".
Proof.
  intros Hs Hk. destruct o; simpl in Hs.
  - inversion Hs; subst. simpl. apply assoc_set_other. congruence.
  - inversion Hs; subst. simpl. apply assoc_set_other. congruence.
  - change (get_own o' "type") with
      (match o' with OArray _ ps => assoc "type" ps | _ => assoc "type" (own_props o') end).
    change (get_own (OArray elems ps) "type") with (assoc "type" ps).
    destruct (array_index k).
    + destruct (Nat.ltb n (length elems)); inversion Hs; reflexivity.
    + destruct (String.eqb k "length"); [discriminate|]. inversion Hs; subst.
      apply assoc_set_other. congruence.
  - inversion Hs; subst. simpl. apply assoc_set_other. congruence.
Qed.

(** Assigning the type of the object [a]: the type of an object is as
    before, or the chain of the object went through [a], where no type was
    found before, and it has the new type. *)
Lemma lookup_chain_set_type (h : heap) (a : loc) (o o' : object) (x : value) :
  h !! a = Some o -> set_own o "type" x = Some o' ->
  forall n l, l <= n ->
    lookup_chain (<[a:=o']> h) n l "type" = lookup_chain h n l "type" \/
    (lookup_chain (<[a:=o']> h) n l "type" = Some x /\
     lookup_chain h n l "type" = lookup_chain h a a "type").
Proof.
  intros Ha Hs.
  assert (Hlt : a < length h) by (eapply lookup_lt_Some; eauto).
  assert (Hnew : get_own o' "type" = Some x) by (eapply get_own_set_own; eauto).
  assert (Hhere : forall n, a <= n ->
            lookup_chain (<[a:=o']> h) n a "type" = Some x /\
            lookup_chain h n a "type" = lookup_chain h a a "type").
  { intros n Hn. split.
    - eapply lookup_chain_here; [now apply list_lookup_insert_eq|exact Hnew].
    - apply lookup_chain_fuel; lia. }
  induction n as [|n IH]; intros l Hl.
  - destruct (Nat.eq_dec l a) as [->|Hla]; [right; now apply Hhere|].
    left. cbn [lookup_chain]. now rewrite list_lookup_insert_ne by congruence.
  - destruct (Nat.eq_dec l a) as [->|Hla]; [right; now apply Hhere|].
    cbn [lookup_chain]. rewrite list_lookup_insert_ne by congruence.
    destruct (h !! l) as [ol|]; [|now left].
    destruct (get_own ol "type"); [now left|].
    destruct ol; try (now left).
    destruct (Nat.ltb_spec proto l); [|now left].
    apply IH. lia.
Qed.

Section TypesKept.

Variable D : string -> Prop.

Lemma types_kept_refl (h : heap) : types_kept D h h.
Proof.
  split; [lia|]. split; [eauto|]. intros l _. split; auto.
Qed.

Lemma types_kept_trans (h1 h2 h3 : heap) :
  types_kept D h1 h2 -> types_kept D h2 h3 -> types_kept D h1 h3.
Proof.
  intros (L1 & S1 & T1) (L2 & S2 & T2). split; [lia|]. split.
  - intros l o Hl. destruct (S1 l o Hl) as (o1 & Hl1 & E1).
    destruct (S2 l o1 Hl1) as (o2 & Hl2 & E2). exists o2. split; [exact Hl2|congruence].
  - intros l Hl. destruct (T1 l Hl) as [Ta Tb].
    destruct (T2 l ltac:(lia)) as [Tc Td]. split.
    + intros Ht. rewrite Tc; rewrite Ta; auto.
    + intros Hf. destruct (truthy (get_in h2 l "type")) eqn:E2.
      * destruct (Tb Hf) as [H|(d & Hd & H)]; [congruence|].
        right. exists d. split; [exact Hd|]. rewrite Tc; [assumption|reflexivity].
      * now apply Td.
Qed.

Lemma types_kept_app (h ext : heap) : types_kept D h (h ++ ext).
Proof.
  split; [rewrite length_app; lia|]. split.
  - intros l o Hl. exists o. split; [|reflexivity].
    rewrite lookup_app_old; [exact Hl|]. eapply lookup_lt_Some; eauto.
  - intros l Hl. rewrite get_in_old by assumption. split; auto.
Qed.

Lemma types_kept_alloc (o : object) : preserves (types_kept D) (alloc o).
Proof. intros h r h' H. inversion H; subst. apply types_kept_app. Qed.

Lemma types_kept_new (components : ctor -> list (string * ctor)) (cls : ctor)
    (args : list value) :
  preserves (types_kept D) (new_instance components cls args).
Proof. intros h r h' H. inversion H; subst. apply types_kept_app. Qed.

Lemma types_kept_set (v : value) (k : string) (x : value) :
  k <> "type" -> preserves (types_kept D) (set_prop v k x).
Proof.
  intros Hk h r h' H.
  pose proof (set_prop_touches _ _ _ _ _ _ H) as (Hlen & _ & Hsh).
  split; [lia|]. split; [exact Hsh|].
  assert (E : forall l, get_in h' l "type" = get_in h l "type").
  { intros l. destruct v; simpl in H; try (inversion H; subst; reflexivity).
    destruct (h !! l0) as [o|] eqn:Hl; [|inversion H; subst; reflexivity].
    destruct (set_own o k x) as [o'|] eqn:Hs; [|inversion H; subst; reflexivity].
    inversion H; subst. unfold get_in. f_equal.
    eapply lookup_chain_set_own; eauto. eapply get_own_type_set_other; eauto. }
  intros l _. rewrite E. split; auto.
Qed.

Lemma types_kept_default (v : value) (d : string) :
  D d -> preserves (types_kept D) (default_type v d).
Proof.
  intros Hd h r h' H. unfold default_type in H.
  apply bind_inv in H. destruct H as [(cur & h0 & H1 & H)|(e & H1 & _)].
  2:{ unfold get_prop in H1. inversion H1; subst. apply types_kept_refl. }
  unfold get_prop in H1. injection H1 as Hcur <-.
  destruct (truthy cur) eqn:Ht; [inversion H; subst; apply types_kept_refl|].
  pose proof (set_prop_touches _ _ _ _ _ _ H) as (Hlen & _ & Hsh).
  split; [lia|]. split; [exact Hsh|].
  destruct v; simpl in H;
    try solve [inversion H; subst; intros l0 _; split; auto].
  simpl in Hcur. inversion Hcur; subst cur. clear Hcur.
  destruct (h !! l) as [o|] eqn:Hl; [|inversion H; subst; intros l0 _; split; auto].
  destruct (set_own o "type" (VString d)) as [o'|] eqn:Hs;
    [|inversion H; subst; intros l0 _; split; auto].
  inversion H; subst. clear H. intros l0 _.
  destruct (lookup_chain_set_type h l o o' (VString d) Hl Hs l0 l0 (le_n _))
    as [E|[E1 E2]].
  - unfold get_in. rewrite E. split; auto.
  - assert (Eold : get_in h l0 "type" = get_in h l "type")
      by (unfold get_in; now rewrite E2).
    rewrite Eold, Ht. split; [discriminate|]. intros _. right. exists d.
    split; [exact Hd|]. unfold get_in. now rewrite E1.
Qed.

End TypesKept.

(** ** Paths below a chart kind *)


(** ** The chart kind that [create] adopts *)


Section Adoption.

Variable components : ctor -> list (string * ctor).





End Adoption.
(** ** [_create] keeps the heap closed *)

Lemma primitive_ok (n : nat) (v : value) : primitive v -> val_ok n v = true.
Proof. destruct v; try reflexivity. intros H. now destruct (H l). Qed.

Lemma Forall_ok_mono (n m : nat) (vs : list value) :
  n <= m -> Forall (fun v => val_ok n v = true) vs ->
  Forall (fun v => val_ok m v = true) vs.
Proof.
  intros Hle H. eapply Forall_impl; [exact H|]. intros v. now apply val_ok_mono.
Qed.

Lemma all_below_get_in (h : heap) (l : loc) (k : string) :
  all_below (length h) h -> val_ok (length h) (get_in h l k) = true.
Proof.
  intros Hb. unfold get_in. destruct (lookup_chain h l l k) as [v|] eqn:E; [|reflexivity].
  simpl. destruct (lookup_chain_values _ _ _ _ _ E) as (l' & o & Hl & Hg).
  destruct (get_own_values _ _ _ Hg) as [Hin|(z & ->)]; [|reflexivity].
  eapply Hb; eauto.
Qed.

Lemma all_below_read (h : heap) (v w : value) (k : string) :
  all_below (length h) h -> read h v k = Ret w -> val_ok (length h) w = true.
Proof.
  intros Hb. destruct v; simpl; try discriminate; intros H; inversion H; subst;
    auto using all_below_get_in, string_prop_ok.
Qed.

Lemma all_below_app (h ext : heap) :
  all_below (length h) h ->
  (forall o v, In o ext -> In v (obj_values o) ->
     val_ok (length (h ++ ext)) v = true) ->
  all_below (length (h ++ ext)) (h ++ ext).
Proof.
  intros Hb Hext l o v Hl Hin.
  destruct (Nat.lt_ge_cases l (length h)) as [Hlo|Hhi].
  - rewrite lookup_app_l in Hl by assumption.
    apply (val_ok_mono (length h)); [rewrite length_app; lia|]. eapply Hb; eauto.
  - rewrite lookup_app_r in Hl by assumption.
    eapply Hext; eauto. apply list_elem_of_In. eapply list_elem_of_lookup_2; eauto.
Qed.

Section KeepsClosed.

Variable components : ctor -> list (string * ctor).

Lemma kc_same {A : Type} (pre : list value) (m : M A) :
  (forall h r h', m h = (r, h') -> h' = h) -> keeps_closed pre m (fun _ => []).
Proof.
  intros Hm h r h' Hw Hpre H. rewrite (Hm _ _ _ H).
  split; [lia|]. split; [assumption|]. now destruct r.
Qed.

Lemma kc_ret {A : Type} (pre : list value) (a : A) (post : A -> list value) :
  (forall v, In v (post a) -> In v pre \/ primitive v) ->
  keeps_closed pre (ret a) post.
Proof.
  intros Ha h r h' Hw Hpre H. inversion H; subst.
  split; [lia|]. split; [assumption|]. apply List.Forall_forall. intros v Hv.
  destruct (Ha v Hv) as [Hin|Hp]; [|now apply primitive_ok].
  rewrite List.Forall_forall in Hpre. now apply Hpre.
Qed.

Lemma kc_throw {A : Type} (pre : list value) (e : error) (post : A -> list value) :
  keeps_closed pre (throw e) post.
Proof. intros h r h' Hw Hpre H. inversion H; subst. auto. Qed.

Lemma kc_bind {A B : Type} (pre : list value) (m : M A) (f : A -> M B)
    (post1 : A -> list value) (post2 : B -> list value) :
  keeps_closed pre m post1 ->
  (forall a, keeps_closed (post1 a ++ pre) (f a) post2) ->
  keeps_closed pre (bind m f) post2.
Proof.
  intros Hm Hf h r h' Hw Hpre H. apply bind_inv in H.
  destruct H as [(a & h1 & H1 & H2)|(e & H1 & ->)].
  - destruct (Hm _ _ _ Hw Hpre H1) as (L1 & W1 & P1).
    destruct (Hf a h1 r h' W1) as (L2 & W2 & P2); [|exact H2|].
    + apply Forall_app. split; [exact P1|]. eapply Forall_ok_mono; eauto.
    + split; [lia|]. split; assumption.
  - destruct (Hm _ _ _ Hw Hpre H1) as (L1 & W1 & _). auto.
Qed.

Lemma kc_post {A : Type} (pre : list value) (m : M A) (post post' : A -> list value) :
  keeps_closed pre m post ->
  (forall a v, In v (post' a) -> In v (post a) \/ In v pre \/ primitive v) ->
  keeps_closed pre m post'.
Proof.
  intros Hm Hsub h r h' Hw Hpre H. destruct (Hm _ _ _ Hw Hpre H) as (L & W & Pr).
  split; [assumption|]. split; [assumption|]. destruct r as [a|]; [|exact I].
  apply List.Forall_forall. intros v Hv. rewrite List.Forall_forall in Pr, Hpre.
  destruct (Hsub a v Hv) as [Hin|[Hin|Hp]].
  - now apply Pr.
  - apply (val_ok_mono (length h)); [assumption|]. now apply Hpre.
  - now apply primitive_ok.
Qed.

Lemma kc_get_prop (pre : list value) (v : value) (k : string) :
  keeps_closed pre (get_prop v k) (fun w => [w]).
Proof.
  intros h r h' Hw Hpre H. inversion H; subst. split; [lia|]. split; [assumption|].
  destruct (read h' v k) eqn:E; [|exact I]. constructor; [|constructor].
  destruct Hw as [_ Hb]. eapply all_below_read; eauto.
Qed.

Lemma kc_array_elems (pre : list value) (v : value) :
  keeps_closed pre (array_elems v) (fun elems => elems).
Proof.
  intros h r h' Hw Hpre H. unfold array_elems in H.
  destruct v; try (inversion H; subst; split; [lia|split; [assumption|exact I]]).
  destruct (h !! l) as [[]|] eqn:Hl; inversion H; subst;
    (split; [lia|split; [assumption|]]); try exact I.
  apply List.Forall_forall. intros x Hx. destruct Hw as [_ Hb].
  apply (Hb l _ x Hl). simpl. apply in_or_app. now left.
Qed.

Lemma kc_set_prop (pre : list value) (v x : value) (k : string) :
  In x pre \/ primitive x \/ x = VObject default_axes ->
  keeps_closed pre (set_prop v k x) (fun _ => []).
Proof.
  intros Hx h r h' Hw Hpre H.
  assert (Hxok : val_ok (length h) x = true).
  { destruct Hx as [Hin|[Hp| ->]].
    - rewrite List.Forall_forall in Hpre. now apply Hpre.
    - now apply primitive_ok.
    - simpl. apply Nat.ltb_lt. now destruct Hw. }
  destruct v; simpl in H;
    try (inversion H; subst; split; [lia|split; [assumption|exact I]]).
  destruct (h !! l) as [o|] eqn:Hl;
    [|inversion H; subst; split; [lia|split; [assumption|exact I]]].
  destruct (set_own o k x) as [o'|] eqn:Hs;
    [|inversion H; subst; split; [lia|split; [assumption|exact I]]].
  inversion H; subst. unfold well_formed. rewrite !length_insert.
  split; [lia|]. split; [|constructor].
  destruct Hw as [Hd Hb]. split; [assumption|].
  assert (Hll : l < length h) by (eapply lookup_lt_Some; eauto).
  intros j oj w Hj Hin. destruct (Nat.eq_dec l j) as [->|Hne].
  - rewrite list_lookup_insert_eq in Hj by assumption. inversion Hj; subst oj.
    destruct (set_own_values _ _ _ _ _ Hs Hin) as [->|[->|E]];
      [assumption|reflexivity|]. eapply Hb; eauto.
  - rewrite list_lookup_insert_ne in Hj by assumption. eapply Hb; eauto.
Qed.

Lemma kc_alloc (pre : list value) (o : object) :
  (forall v, In v (obj_values o) -> In v pre \/ primitive v) ->
  keeps_closed pre (alloc o) (fun v => [v]).
Proof.
  intros Ho h r h' Hw Hpre H. inversion H; subst. destruct Hw as [Hd Hb].
  assert (Hlen : length (h ++ [o]) = S (length h)) by (rewrite length_app; simpl; lia).
  split; [lia|]. split; [split; [lia|]|].
  - apply all_below_app; [assumption|]. intros o' v [<-|[]] Hv.
    destruct (Ho v Hv) as [Hin|Hp]; [|now apply primitive_ok].
    apply (val_ok_mono (length h)); [lia|].
    rewrite List.Forall_forall in Hpre. now apply Hpre.
  - constructor; [|constructor]. simpl. apply Nat.ltb_lt. lia.
Qed.

Lemma kc_new_instance (pre : list value) (cls : ctor) (args : list value) :
  (forall v, In v args -> In v pre \/ primitive v) ->
  keeps_closed pre (new_instance components cls args) (fun v => [v]).
Proof.
  intros Hargs h r h' Hw Hpre H. unfold new_instance in H. inversion H; subst.
  destruct Hw as [Hd Hb].
  set (ext := map (fun nc => OInst (snd nc) [] []) (components cls) ++
              [OInst cls args
                 (imap (fun i nc => (fst nc, VObject (length h + i))) (components cls))]).
  assert (Hlen : length (h ++ ext) = length h + length (components cls) + 1).
  { unfold ext. rewrite !length_app, length_map. simpl. lia. }
  split; [rewrite Hlen; lia|]. split; [split; [rewrite Hlen; lia|]|].
  - apply all_below_app; [assumption|]. intros o v Ho Hv. unfold ext in Ho.
    apply in_app_or in Ho. destruct Ho as [Ho|[<-|[]]].
    + apply in_map_iff in Ho. destruct Ho as (nc & <- & _). destruct Hv.
    + simpl in Hv. apply in_app_or in Hv. destruct Hv as [Hv|Hv].
      * destruct (Hargs v Hv) as [Hin|Hp]; [|now apply primitive_ok].
        apply (val_ok_mono (length h)); [rewrite Hlen; lia|].
        rewrite List.Forall_forall in Hpre. now apply Hpre.
      * apply in_map_iff in Hv. destruct Hv as ([k w] & <- & Hkw). simpl.
        apply list_elem_of_In, list_elem_of_lookup in Hkw. destruct Hkw as [i Hi'].
        rewrite list_lookup_imap in Hi'.
        destruct (components cls !! i) as [nc|] eqn:Hci; simpl in Hi'; [|discriminate].
        inversion Hi'; subst. simpl. apply Nat.ltb_lt.
        apply lookup_lt_Some in Hci. rewrite Hlen. lia.
  - constructor; [|constructor]. simpl. apply Nat.ltb_lt. rewrite Hlen. lia.
Qed.

Lemma kc_for_each {A : Type} (pre : list value) (l : list A) (body : A -> M unit) :
  (forall x, In x l -> keeps_closed pre (body x) (fun _ => [])) ->
  keeps_closed pre (for_each l body) (fun _ => []).
Proof.
  induction l as [|x l IH]; intros Hb; simpl.
  - apply kc_ret. intros v [].
  - eapply kc_bind; [apply Hb; now left|]. intros ?; cbn beta. simpl.
    apply IH. intros y Hy. apply Hb. now right.
Qed.

Ltac kc_pure :=
  apply kc_same; intros h0 r0 h0' H0;
  repeat match type of H0 with
         | context [match ?x with _ => _ end] => destruct x
         end;
  now inversion H0.

Lemma kc_to_string (pre : list value) (v : value) :
  keeps_closed pre (to_string v) (fun _ => []).
Proof. unfold to_string. kc_pure. Qed.

Lemma kc_is_array (pre : list value) (v : value) :
  keeps_closed pre (is_array v) (fun _ => []).
Proof. unfold is_array. kc_pure. Qed.

Lemma kc_forin_keys (pre : list value) (v : value) :
  keeps_closed pre (forin_keys v) (fun _ => []).
Proof. unfold forin_keys. kc_pure. Qed.

Lemma kc_resolve_path (pre : list value) (path : option string) (t : value) :
  keeps_closed pre (resolve_path path t) (fun _ => []).
Proof.
  unfold resolve_path. destruct (path_falsy path).
  - destruct t; first [apply kc_throw | apply kc_ret; intros v []].
  - destruct (truthy t); [|apply kc_ret; intros v []].
    eapply kc_bind; [apply kc_to_string|]. intros s. apply kc_ret. intros v [].
Qed.

Lemma kc_setChartType (pre : list value) (options : value) :
  keeps_closed pre (setChartType options) (fun _ => []).
Proof.
  assert (Hs : forall pre' s, keeps_closed pre' (set_prop options "type" (VString s))
                                (fun _ => [])).
  { intros pre' s. apply kc_set_prop. right. left. intros l. discriminate. }
  unfold setChartType.
  eapply kc_bind; [apply kc_get_prop|]. intros t.
  destruct (truthy t); [apply kc_ret; intros v []|].
  eapply kc_bind; [apply kc_get_prop|]. intros sv.
  eapply kc_bind with (post1 := fun w => [w]).
  { destruct (truthy sv); [apply kc_get_prop|apply kc_ret; intros v [<-|[]]; left; simpl; auto]. }
  intros series.
  eapply kc_bind with (post1 := fun w => [w]).
  { destruct (truthy series); [apply kc_get_prop|apply kc_ret; intros v [<-|[]]; left; simpl; auto]. }
  intros st.
  eapply kc_bind with (post1 := fun _ => []).
  { destruct (truthy st); [|apply kc_ret; intros v []].
    destruct (find_chart_type st); [apply Hs|apply kc_ret; intros v []]. }
  intros ?; cbn beta. eapply kc_bind; [apply kc_get_prop|]. intros t'.
  destruct (truthy t'); [apply kc_ret; intros v []|apply Hs].
Qed.

Lemma kc_default_type (pre : list value) (options : value) (t : string) :
  keeps_closed pre (default_type options t) (fun _ => []).
Proof.
  unfold default_type. eapply kc_bind; [apply kc_get_prop|]. intros cur.
  destruct (truthy cur); [apply kc_ret; intros v []|].
  apply kc_set_prop. right. left. intros l. discriminate.
Qed.

Lemma kc_setComponentType (pre : list value) (options : value) (path : option string) :
  keeps_closed pre (setComponentType options path) (fun _ => []).
Proof.
  unfold setComponentType.
  eapply kc_bind with (post1 := fun _ => []).
  { destruct (path_falsy path); [apply kc_setChartType|apply kc_ret; intros v []]. }
  intros ?; cbn beta. eapply kc_bind with (post1 := fun _ => []).
  { destruct (path_is path "cartesian.series");
      [apply kc_default_type|apply kc_ret; intros v []]. }
  intros ?; cbn beta.
  destruct (path_is path "polar.series");
    [apply kc_default_type|apply kc_ret; intros v []].
Qed.

Lemma kc_setComponentDefaults (pre : list value) (options : value)
    (fields : list (string * mapping)) :
  defaults_values_ok fields = true ->
  keeps_closed pre (setComponentDefaults options fields) (fun _ => []).
Proof.
  intros Hok. unfold setComponentDefaults. unfold defaults_values_ok in Hok.
  destruct (assoc "defaults" fields) as [[cl|l|d|fs]|];
    try apply kc_throw; [|apply kc_ret; intros v []].
  apply kc_for_each. intros key _. unfold merge_default.
  eapply kc_bind; [apply kc_get_prop|]. intros cur.
  destruct (truthy cur); [apply kc_ret; intros v []|]. apply kc_set_prop.
  destruct (assoc key d) as [v|] eqn:E; simpl; [|right; left; intros l; discriminate].
  rewrite forallb_forall in Hok. pose proof (Hok v (assoc_In _ _ _ E)) as Hv.
  destruct v; try (right; left; intros j; discriminate).
  apply Nat.eqb_eq in Hv. subst. now right; right.
Qed.

Lemma kc_read_params (pre : list value) (options : value) (params : list string) :
  keeps_closed pre (read_params options params) (fun vs => vs).
Proof.
  revert pre. induction params as [|p params IH]; intros pre; simpl.
  - apply kc_ret. intros v [].
  - eapply kc_bind; [apply kc_get_prop|]. intros v.
    eapply kc_bind.
    + apply IH.
    + intros vs. apply kc_ret. intros w Hw.
      left. destruct (defined v); simpl in *; rewrite ?in_app_iff; simpl; tauto.
Qed.

Lemma kc_construct (pre : list value) (fields : list (string * mapping))
    (args : list value) :
  (forall v, In v args -> In v pre \/ primitive v) ->
  keeps_closed pre (construct components fields args) (fun v => [v]).
Proof.
  intros Hargs. unfold construct.
  destruct (assoc "constructor" fields) as [[]|]; try apply kc_throw.
  - now apply kc_new_instance.
  - destruct args; [|apply kc_throw]. apply kc_alloc. intros v [].
Qed.

Lemma kc_map_create (rec : value -> option string -> value -> M value)
    (pre : list value) (elems : list value) (path : string) :
  rec_closed rec -> (forall v, In v elems -> In v pre \/ primitive v) ->
  keeps_closed pre (map_create rec elems path) (fun subs => subs).
Proof.
  intros Hrec. revert pre. induction elems as [|config elems IH]; intros pre Hel; simpl.
  - apply kc_ret. intros v [].
  - eapply kc_bind.
    { apply Hrec; [apply Hel; now left|right; intros l; discriminate]. }
    intros sub. eapply kc_bind.
    { apply IH. intros v Hv. destruct (Hel v (or_intror Hv)) as [H|H]; [|now right].
      left. apply in_or_app. now right. }
    intros subs. apply kc_ret. intros v Hv. left.
    destruct (truthy sub); simpl in *; rewrite ?in_app_iff; simpl; tauto.
Qed.

Lemma kc_process_key (rec : value -> option string -> value -> M value)
    (pre : list value) (fields : list (string * mapping)) (path : string)
    (params : list string) (options component : value) (key : string) :
  rec_closed rec -> (In component pre \/ primitive component) ->
  keeps_closed pre (process_key rec fields path params options component key)
    (fun _ => []).
Proof.
  intros Hrec Hcomp. unfold process_key.
  destruct (String.eqb key "type" || existsb (String.eqb key) params);
    [apply kc_ret; intros v []|].
  eapply kc_bind; [apply kc_get_prop|]. intros value.
  eapply kc_bind with (post1 := fun _ => []).
  { unfold key_in_mapping. destruct (assoc key fields), (builtin_name key);
      first [apply kc_throw | apply kc_ret; intros v []]. }
  intros known.
  eapply kc_bind with (post1 := fun _ => []).
  { destruct known; [|apply kc_ret; intros v []]. unfold excluded.
    destruct (assoc "exclude" fields) as [[]|];
      first [apply kc_throw | apply kc_ret; intros v []]. }
  intros excl. simpl app.
  assert (Hcomp' : forall ext, In component (ext ++ value :: pre) \/ primitive component).
  { intros ext. destruct Hcomp as [H|H]; [left|now right].
    apply in_or_app. right. now right. }
  destruct (known && negb excl); [|apply kc_set_prop; left; now left].
  eapply kc_bind; [apply kc_is_array|]. intros arr. simpl app. destruct arr.
  - eapply kc_bind; [apply kc_array_elems|]. intros elems.
    eapply kc_bind.
    { apply kc_map_create; [assumption|]. intros v Hv. left. apply in_or_app. now left. }
    intros subs. eapply kc_bind.
    { apply kc_alloc. simpl. intros v Hv. rewrite app_nil_r in Hv.
      left. apply in_or_app. now left. }
    intros a. apply kc_set_prop. left. now left.
  - eapply kc_bind; [apply kc_get_prop|]. intros existing.
    destruct (truthy existing).
    + eapply kc_bind.
      { apply Hrec; [left; right; now left|left; now left]. }
      intros sub. apply kc_ret. intros v [].
    + eapply kc_bind; [apply kc_get_prop|]. intros t.
      eapply kc_bind.
      { apply Hrec; [left; right; right; now left|right; intros l; discriminate]. }
      intros sub. destruct (truthy sub); [|apply kc_ret; intros v []].
      apply kc_set_prop. left. now left.
Qed.

Lemma kc_create_body (rec : value -> option string -> value -> M value) :
  rec_closed rec -> rec_closed (create_body components rec).
Proof.
  intros Hrec pre options path component Ho Hc. unfold create_body.
  destruct (is_object options); cbn [negb];
    [|apply kc_ret; intros v [<-|[]]; right; intros l; discriminate].
  eapply kc_bind; [apply kc_setComponentType|]. intros ?; cbn beta.
  eapply kc_bind; [apply kc_get_prop|]. intros t.
  eapply kc_bind; [apply kc_resolve_path|]. intros p.
  unfold bind at 1, lift. intros h r h' Hw Hpre H.
  destruct (getMapping p) as [mapping|e] eqn:Hmap;
    [|inversion H; subst; split; [lia|split; [assumption|exact I]]].
  revert h r h' Hw Hpre H.
  change (keeps_closed ([] ++ [t] ++ [] ++ pre)
            (match mapping with
             | None => ret VUndefined
             | Some (MObject fields) =>
                 setComponentDefaults options fields >>
                 (let* params := constructorParams fields in
                  let* constructorParamValues := read_params options params in
                  let* component0 :=
                    (if truthy component then ret component
                     else construct components fields constructorParamValues) in
                  let* keys := forin_keys options in
                  for_each keys (process_key rec fields p params options component0) >>
                  ret component0)
             | Some _ => throw Unmodelled
             end) (fun v => [v])).
  destruct mapping as [[cl|l|d|fields]|]; try apply kc_throw;
    [|apply kc_ret; intros v [<-|[]]; right; intros l; discriminate].
  eapply kc_bind;
    [apply kc_setComponentDefaults; eauto using other_values_ok|].
  intros ?; cbn beta.
  eapply kc_bind with (post1 := fun _ => []).
  { unfold constructorParams. destruct (assoc "constructorParams" fields) as [[]|];
      first [apply kc_throw | apply kc_ret; intros v []]. }
  intros params.
  eapply kc_bind; [apply kc_read_params|]. intros values.
  eapply kc_bind with (post1 := fun v => [v]).
  { destruct (truthy component).
    - apply kc_ret. intros v [<-|[]]. destruct Hc as [H|H]; [left|now right].
      rewrite !in_app_iff. simpl. tauto.
    - apply kc_construct. intros v Hv. left. apply in_or_app. now left. }
  intros component'.
  eapply kc_bind; [apply kc_forin_keys|]. intros keys.
  eapply kc_bind with (post1 := fun _ => []).
  - apply kc_for_each. intros key _. apply kc_process_key; [assumption|].
    left. simpl. now left.
  - intros ?; cbn beta. apply kc_ret. intros v [<-|[]]. left. simpl. now left.
Qed.

Lemma kc_create (fuel : nat) : rec_closed (_create components fuel).
Proof.
  induction fuel as [|n IH]; intros pre options path component Ho Hc.
  - apply kc_throw.
  - cbn [_create]. now apply kc_create_body.
Qed.

End KeepsClosed.

(** ** Array elements that resolve to no descriptor *)

Lemma assoc_set_pairs (k k' : string) (x v : value) (l : props) :
  In (k, v) (assoc_set k' x l) -> (k = k' /\ v = x) \/ In (k, v) l.
Proof.
  induction l as [|[k0 v0] r IH]; simpl.
  - intros [E|[]]. inversion E. auto.
  - destruct (String.eqb k' k0).
    + intros [E|H]; [inversion E; auto|auto].
    + intros [E|H]; [auto|]. destruct (IH H); auto.
Qed.

Lemma for_each_app_run {A : Type} (l1 l2 : list A) (body : A -> M unit) (h h' : heap) :
  for_each (l1 ++ l2) body h = (Ret tt, h') ->
  exists hm, for_each l1 body h = (Ret tt, hm) /\ for_each l2 body hm = (Ret tt, h').
Proof.
  revert h. induction l1 as [|x l1 IH]; intros h; simpl.
  - intros H. exists h. split; [reflexivity|exact H].
  - intros H. apply bind_inv in H.
    destruct H as [([] & h1 & H1 & H2)|(e & _ & E)]; [|discriminate].
    destruct (IH h1 H2) as (hm & Ha & Hb). exists hm. split; [|exact Hb].
    now rewrite (bind_ret _ _ _ _ _ H1).
Qed.

Lemma unresolved_kept (D : string -> Prop) (h h' : heap) (path : string) (v : value) :
  types_kept D h h' -> unresolved h path v -> unresolved h' path v.
Proof.
  intros (_ & _ & HT) (e & t & -> & Htype & Ht & Hmap). exists e, t.
  repeat split; try assumption.
  assert (He : e < length h).
  { destruct (Nat.lt_ge_cases e (length h)) as [H|H]; [exact H|].
    exfalso. unfold get_in in Htype.
    destruct e; cbn [lookup_chain] in Htype;
      rewrite (lookup_ge_None_2 h) in Htype by assumption; discriminate. }
  destruct (HT e He) as [Ha _]. rewrite Ha; [exact Htype|].
  rewrite Htype. destruct t; [congruence|reflexivity].
Qed.

(** One round of the loop over the keys of a root configuration, on a key
    other than [key]: the configuration, its protective copy and the other
    objects of the region stay as they are in [Hfix], and the component [c]
    keeps what [Q] says of its properties. *)
Lemma root_round_safe (T : loc -> Prop) (Hfix : heap) (Q : props -> Prop)
    (rec : value -> option string -> value -> M value)
    (fields : list (string * mapping)) (p : string) (params : list string)
    (cfg copy c : loc) (ps ps2 : props) (cls : ctor) (args : list value)
    (key key' : string) :
  let Inv := fun H : heap =>
    (forall l, T l -> l <> c -> H !! l = Hfix !! l) /\
    exists ips, H !! c = Some (OInst cls args ips) /\ Q ips /\
                forall k v, In (k, v) ips -> k <> key -> outside T v in
  T cfg -> T copy -> T c -> cfg <> c -> copy <> c -> cfg < copy ->
  Hfix !! cfg = Some (OPlain ps) -> Hfix !! copy = Some (ODerived cfg ps2) ->
  (forall v, In v (map snd ps2) -> outside T v) ->
  (forall k v, In (k, v) ps -> k <> key -> outside T v) ->
  (forall k x ips, k <> key -> Q ips -> Q (assoc_set k x ips)) ->
  rec_safe T Inv rec ->
  key' <> key ->
  safe T Inv (process_key rec fields p params (VObject copy) (VObject c) key')
    (fun _ => True).
Proof.
  intros Inv HTcfg HTcopy HTc Hcc Hcpc Hlt Hcfg Hcopy Hps2 Hps HQ Hrec Hne.
  assert (Hframed : framed T Inv).
  { intros H H' (Hfr & ips & Hc & Hq & Hv) Hsame. split.
    - intros l Hl Hlc. rewrite Hsame by assumption. now apply Hfr.
    - exists ips. split; [|auto]. now rewrite Hsame. }
  apply safe_process_key_at; try assumption.
  - apply safe_get_when. intros H w (_ & _ & Hfr & _) Hr. simpl in Hr.
    assert (Hcp : H !! copy = Some (ODerived cfg ps2)) by (rewrite Hfr; auto).
    assert (Hcf : H !! cfg = Some (OPlain ps)) by (rewrite Hfr; auto).
    rewrite (get_in_derived H copy cfg ps2 key' Hcp Hlt) in Hr.
    inversion Hr; subst w. clear Hr.
    destruct (assoc key' ps2) as [w|] eqn:E2.
    + apply Hps2. eapply assoc_In; eauto.
    + rewrite (get_in_own H cfg (OPlain ps)); [|exact Hcf|intros q; discriminate].
      simpl. destruct (assoc key' ps) as [w|] eqn:E; simpl; [|apply outside_undefined].
      eapply Hps; eauto. eapply assoc_In_pair; eauto.
  - intros _ _. apply safe_get_when. intros H w (_ & _ & _ & ips & Hc & _ & Hv) Hr.
    simpl in Hr. rewrite (get_in_own H c (OInst cls args ips)) in Hr;
      [|exact Hc|intros q; discriminate].
    inversion Hr; subst w. simpl.
    destruct (assoc key' ips) as [w|] eqn:E; simpl; [|apply outside_undefined].
    eapply Hv; eauto. eapply assoc_In_pair; eauto.
  - intros _ _ x Hx. apply safe_set_inside; [exact HTc|].
    intros H o o' (_ & _ & Hfr & ips & Hc & Hq & Hv) Ho Hso.
    rewrite Hc in Ho. inversion Ho; subst o. simpl in Hso. inversion Hso; subst o'.
    split.
    + intros l Hl Hlc. rewrite list_lookup_insert_ne by congruence. now apply Hfr.
    + exists (assoc_set key' x ips). split; [|split].
      * apply list_lookup_insert_eq. eapply lookup_lt_Some; eauto.
      * now apply HQ.
      * intros k v Hin Hk. destruct (assoc_set_pairs _ _ _ _ _ Hin) as [[_ ->]|Hin'];
          [exact Hx|eauto].
Qed.
Section DroppedElements.

Variable components : ctor -> list (string * ctor).

(** A root configuration that is the root of a tree, with an array under a
    recognized key whose elements all resolve to no descriptor: the instance
    that [create] returns has a new empty array under that key, whatever
    else the configuration holds; the configuration and the array are as
    before. *)
Lemma create_drops_unresolved (n : nat) (h h1 : heap) (cfg a c : loc)
    (key p : string) (fields : list (string * mapping)) (cls : ctor) (m : mapping)
    (elems : list value) (aps : props) :
  closed h = true ->
  array_tree h cfg key a -> h !! a = Some (OArray elems aps) ->
  chart_type h (VObject cfg) = Ret (VString p) ->
  getMapping p = Ret (Some (MObject fields)) ->
  assoc "constructor" fields = Some (MFunction cls) ->
  key <> "type" -> ~ In key (params_of fields) ->
  assoc key fields = Some m -> builtin_name key = false ->
  excluded fields key = ret false ->
  Forall (unresolved h (dot p key)) elems ->
  create components (S (S n)) (VObject cfg) h = (Ret (VObject c), h1) ->
  exists s args ips,
    h1 !! c = Some (OInst cls args ips) /\ assoc key ips = Some (VObject s) /\
    h1 !! s = Some (OArray [] []) /\ length h < s /\
    h1 !! cfg = h !! cfg /\ h1 !! a = h !! a.
Proof.
  intros Hc (Hncfg & Hna & Hunref & Honly & ps & Hcfg & Hkey & Hunder)
    Ha Hty Hmap Hcons Hkt Hkp Hkm Hkb Hkx Hel Hrun.
  assert (Hlt : cfg < length h) by (eapply lookup_lt_Some; eauto).
  assert (Halt : a < length h) by (eapply lookup_lt_Some; eauto).
  assert (Hac : a <> cfg) by (intros ->; congruence).
  assert (Hbelow : all_below (length h) h) by now apply closed_all_below.
  destruct (create_root_run components (S n) h cfg p fields Hlt
              (first_series_type_copy h cfg [] Hc Hlt eq_refl) Hty Hmap)
    as (ps2 & Heq & _ & _ & Hnone & Hvals & Htruthy).
  rewrite Heq in Hrun. clear Heq.
  set (copy := length h) in *.
  set (args := List.filter defined (map (get_in h cfg) (params_of fields))) in *.
  set (H1 := h ++ [ODerived cfg ps2]) in *.
  unfold construct in Hrun. rewrite Hcons in Hrun.
  set (subs := components cls) in *.
  set (c0 := length H1 + length subs).
  set (ips0 := imap (fun i nc => (fst nc, VObject (length H1 + i))) subs).
  set (H2 := H1 ++ map (fun nc => OInst (snd nc) [] []) subs ++ [OInst cls args ips0]).
  assert (Hnew : new_instance components cls args H1 = (Ret (VObject c0), H2))
    by reflexivity.
  rewrite (bind_ret _ _ H1 H2 (VObject c0)) in Hrun by exact Hnew.
  rewrite (bind_ret _ _ H2 H2 (keys_in H2 copy)) in Hrun by reflexivity.
  apply bind_inv in Hrun.
  destruct Hrun as [([] & hend & Hloop & Hret)|(e & _ & E)]; [|discriminate].
  inversion Hret; subst c hend. clear Hret.
  (* the heap when the loop starts *)
  assert (HlenH1 : length H1 = S (length h))
    by (unfold H1; rewrite length_app; simpl; lia).
  assert (HlenH2 : length H2 = S c0).
  { unfold H2, c0. rewrite !length_app, length_map. simpl. lia. }
  assert (Hold1 : forall l, l < length h -> H1 !! l = h !! l)
    by (intros l Hl; now apply lookup_app_old).
  assert (Hold2 : forall l, l < length H1 -> H2 !! l = H1 !! l)
    by (intros l Hl; now apply lookup_app_old).
  assert (Hcopy1 : H1 !! copy = Some (ODerived cfg ps2)) by apply lookup_app_new.
  assert (Hc2 : H2 !! c0 = Some (OInst cls args ips0)).
  { unfold H2. rewrite app_assoc.
    replace c0 with (length (H1 ++ map (fun nc => OInst (snd nc) [] []) subs))
      by (rewrite length_app, length_map; reflexivity).
    apply lookup_app_new. }
  assert (Hsub2 : forall l o, H2 !! l = Some o -> length H1 <= l -> l < c0 ->
            obj_values o = []).
  { intros l o Hl Hge Hlo. unfold H2 in Hl. rewrite lookup_app_r in Hl by assumption.
    rewrite lookup_app_l in Hl by (rewrite length_map; unfold c0 in Hlo; lia).
    apply list_elem_of_lookup_2, list_elem_of_In, in_map_iff in Hl.
    destruct Hl as (nc & <- & _). reflexivity. }
  assert (Hips0 : forall k v, In (k, v) ips0 ->
            exists i, v = VObject (length H1 + i) /\ i < length subs).
  { intros k v Hin. apply list_elem_of_In, list_elem_of_lookup in Hin.
    destruct Hin as [i Hi]. unfold ips0 in Hi. rewrite list_lookup_imap in Hi.
    destruct (subs !! i) as [nc|] eqn:Hsi; simpl in Hi; [|discriminate].
    inversion Hi; subst. exists i. split; [reflexivity|].
    eapply lookup_lt_Some; eauto. }
  assert (Hps2ok : forall v, In v (map snd ps2) ->
            primitive v \/ v = VObject default_axes).
  { intros v Hv. destruct (Hvals v Hv) as [(s & ->)|[->|(d & Hd & Hin)]].
    - left. intros l. discriminate.
    - left. intros l. discriminate.
    - pose proof (other_values_ok fields p Hmap) as Hvok.
      unfold defaults_values_ok in Hvok. rewrite Hd in Hvok.
      rewrite forallb_forall in Hvok. specialize (Hvok v Hin).
      destruct v; try (left; intros j; discriminate).
      apply Nat.eqb_eq in Hvok. subst. now right. }
  assert (Hpsok : forall k v, In (k, v) ps -> val_ok (length h) v = true).
  { intros k v Hin. apply (Hbelow cfg _ v Hcfg). simpl.
    apply in_map_iff. now exists (k, v). }
  assert (Hcopykey : assoc key ps2 = None).
  { apply Htruthy; [exact Hkt|].
    rewrite (get_in_own h cfg (OPlain ps)); [|exact Hcfg|intros q; discriminate].
    simpl. now rewrite Hkey. }
  (* well-formed heaps *)
  assert (Hwf : well_formed h) by (split; [unfold default_axes in *; lia|exact Hbelow]).
  assert (Hwf1 : well_formed H1).
  { destruct (kc_alloc [VObject cfg; VObject default_axes] (ODerived cfg ps2))
      with (h := h) (r := Ret (VObject copy)) (h' := H1) as (_ & W & _);
      try reflexivity; try assumption.
    - intros v [<-|Hv]; [left; now left|].
      destruct (Hps2ok v Hv) as [Hp| ->]; [now right|left; right; now left].
    - constructor; [simpl; now apply Nat.ltb_lt|].
      constructor; [simpl; apply Nat.ltb_lt; now destruct Hwf|constructor]. }
  assert (Hwf2 : well_formed H2).
  { destruct (kc_new_instance components args cls args)
      with (h := H1) (r := Ret (VObject c0)) (h' := H2) as (_ & W & _);
      try assumption; [intros v Hv; now left|].
    apply List.Forall_forall. intros v Hv. unfold args in Hv.
    apply filter_In in Hv. destruct Hv as [Hv _].
    apply in_map_iff in Hv. destruct Hv as (q & <- & _).
    apply (val_ok_mono (length h)); [lia|]. now apply get_in_ok. }
  (* the keys of the loop *)
  assert (Hkeys : keys_in H2 copy = dedup (map fst ps2 ++ map fst ps)).
  { apply (keys_in_derived_plain H2 copy cfg ps2 ps).
    - rewrite Hold2 by lia. exact Hcopy1.
    - exact Hlt.
    - rewrite Hold2, Hold1 by lia. exact Hcfg. }
  assert (Hin : key ∈ keys_in H2 copy).
  { apply list_elem_of_In. rewrite Hkeys. apply In_dedup. apply in_or_app. right.
    apply in_map_iff. exists (key, VObject a). split; [reflexivity|].
    now apply assoc_In_pair. }
  destruct (list_elem_of_split _ _ Hin) as (k1 & k2 & Hsplit).
  assert (Hnd : NoDup (keys_in H2 copy)) by apply NoDup_dedup.
  rewrite Hsplit in Hnd, Hloop.
  apply NoDup_app in Hnd. destruct Hnd as (_ & Hk1 & Hnd).
  apply NoDup_cons in Hnd. destruct Hnd as (Hk2 & _).
  assert (Hk1' : forall key', In key' k1 -> key' <> key).
  { intros key' Hi ->. apply (Hk1 key); [now apply list_elem_of_In|left]. }
  assert (Hk2' : forall key', In key' k2 -> key' <> key).
  { intros key' Hi ->. apply Hk2. now apply list_elem_of_In. }
  destruct (for_each_app_run _ _ _ _ _ Hloop) as (H3 & Hloop1 & Hloop23).
  cbn [for_each] in Hloop23. apply bind_inv in Hloop23.
  destruct Hloop23 as [([] & H4 & Hround & Hloop2)|(e & _ & E)]; [|discriminate].
  set (body := process_key (_create components (S n)) fields p (params_of fields)
                 (VObject copy) (VObject c0)) in *.
  (* the rounds before [key] *)
  set (T1 := fun l : loc => l = cfg \/ l = copy \/ l = a \/ l = c0).
  set (Inv1 := fun H : heap =>
    (forall l, T1 l -> l <> c0 -> H !! l = H2 !! l) /\
    exists ips, H !! c0 = Some (OInst cls args ips) /\ True /\
                forall k v, In (k, v) ips -> k <> key -> outside T1 v).
  assert (Hframed1 : framed T1 Inv1).
  { intros H H' (Hfr & ips & Hc' & Hq & Hv) Hsame. split.
    - intros l Hl Hlc. rewrite Hsame by assumption. now apply Hfr.
    - exists ips. split; [|auto]. rewrite Hsame; [assumption|]. right; right; now right. }
  assert (Hax1 : ~ T1 default_axes).
  { unfold default_axes in *. intros [E|[E|[E|E]]]; try congruence;
      unfold copy, c0 in E; lia. }
  assert (Hlow : forall v, val_ok (length h) v = true -> v <> VObject cfg ->
            v <> VObject a -> outside T1 v).
  { intros v Hv Hvc Hva j -> [->|[->|[->| ->]]]; try congruence;
      simpl in Hv; apply Nat.ltb_lt in Hv; unfold copy, c0 in *; lia. }
  assert (Hps2out : forall v, In v (map snd ps2) -> outside T1 v).
  { intros v Hv. destruct (Hps2ok v Hv) as [Hp| ->].
    - intros j ->. now destruct (Hp j).
    - intros j E. inversion E; subst j. exact Hax1. }
  assert (Hpsout : forall k v, In (k, v) ps -> k <> key -> outside T1 v).
  { intros k v Hi Hk. apply Hlow; [eapply Hpsok; eauto| |].
    - intros ->. eapply (Hunref cfg); eauto. simpl. apply in_map_iff.
      now exists (k, VObject cfg).
    - intros ->. apply Hk. eapply Hunder; eauto. }
  assert (Hguard1 : guards T1 Inv1 H2).
  { split; [|split].
    - intros l [->|[->|[->| ->]]]; rewrite HlenH2; unfold c0, copy; lia.
    - intros l o v Hl HnT Hv.
      destruct (Nat.lt_ge_cases l (length h)) as [Hlo|Hhi].
      + rewrite Hold2, Hold1 in Hl by lia.
        apply Hlow; [eapply Hbelow; eauto| |].
        * intros ->. eapply Hunref; eauto.
        * intros ->. apply HnT. left. eapply Honly; eauto.
      + destruct (Nat.eq_dec l copy) as [->|Hlc]; [destruct HnT; right; now left|].
        destruct (Nat.lt_ge_cases l c0) as [Hl0|Hl0].
        * rewrite (Hsub2 l o Hl) in Hv by (unfold copy in *; lia). destruct Hv.
        * apply lookup_lt_Some in Hl. rewrite HlenH2 in Hl.
          destruct HnT. right; right; right. lia.
    - split; [reflexivity|]. exists ips0. split; [exact Hc2|]. split; [exact I|].
      intros k v Hi _. destruct (Hips0 k v Hi) as (i & -> & Hi').
      intros j E [->|[->|[->| ->]]]; inversion E; unfold copy, c0 in *; lia. }
  assert (Hbody1 : forall key', In key' k1 -> safe T1 Inv1 (body key') (fun _ => True)).
  { intros key' Hi.
    apply (root_round_safe T1 H2 (fun _ => True) _ fields p (params_of fields)
             cfg copy c0 ps ps2 cls args key key'); try assumption; auto.
    - now left.
    - right; now left.
    - right; right; now right.
    - unfold c0, copy in *. lia.
    - unfold c0, copy in *. lia.
    - rewrite Hold2, Hold1 by lia. exact Hcfg.
    - rewrite Hold2 by lia. exact Hcopy1.
    - now apply safe_create. }
  destruct (safe_for_each T1 Inv1 k1 _ Hbody1 H2 (Ret tt) H3 Hguard1 Hloop1)
    as [(Hdom3 & Hcl3 & Hfr3 & ips3 & Hc3 & _ & Hv3) _].
  assert (Hkept : types_kept (fun _ => True) h H3).
  { eapply types_kept_trans; [apply (types_kept_app _ h [ODerived cfg ps2])|].
    eapply types_kept_trans; [apply (types_kept_app _ H1)|].
    apply (fun Hp : preserves (types_kept (fun _ => True)) (for_each k1 body) =>
             Hp H2 (Ret tt) H3 Hloop1).
    unfold body.
    apply (kept_for_each_keys (types_kept (fun _ => True)) (fun q => q <> "")
             (types_kept_refl _) (types_kept_trans _)
             (types_kept_alloc _) (types_kept_set _)).
    - intros q s _. unfold dot. destruct q; discriminate.
    - apply (kept_create components (types_kept (fun _ => True)) (fun q => q <> "")
               (types_kept_refl _) (types_kept_trans _)
               (types_kept_alloc _) (types_kept_new _ components)
               (types_kept_set _)
               (fun v _ => types_kept_default _ v "line" I)
               (fun v _ => types_kept_default _ v "pie" I)).
      + intros q s _. unfold dot. destruct q; discriminate.
      + auto.
    - intros ->. vm_compute in Hmap. discriminate. }
  assert (Hwf3 : well_formed H3 /\ length H2 <= length H3).
  { destruct (kc_for_each [VObject c0] k1 body) with (h := H2) (r := Ret tt) (h' := H3)
      as (L & W & _); try assumption; [| |now split].
    - intros key' _. apply (kc_process_key components); [apply kc_create|left; now left].
    - constructor; [|constructor]. simpl. apply Nat.ltb_lt. lia. }
  destruct Hwf3 as [Hwf3 HlenH3].
  (* the round of [key] *)
  assert (Hcopy3 : H3 !! copy = Some (ODerived cfg ps2)).
  { rewrite Hfr3; [rewrite Hold2 by lia; exact Hcopy1|right; now left|].
    unfold c0, copy. lia. }
  assert (Hcfg3 : H3 !! cfg = Some (OPlain ps)).
  { rewrite Hfr3; [rewrite Hold2, Hold1 by lia; exact Hcfg|now left|].
    unfold c0, copy in *. lia. }
  assert (Ha3 : H3 !! a = Some (OArray elems aps)).
  { rewrite Hfr3; [rewrite Hold2, Hold1 by lia; exact Ha|right; right; now left|].
    unfold c0, copy in *. lia. }
  set (s := length H3) in *.
  assert (Hround' : H4 = <[c0 := OInst cls args (assoc_set key (VObject s) ips3)]>
                           (H3 ++ [OArray [] []])).
  { unfold body in Hround.
    rewrite (process_key_unresolved components n fields p (params_of fields)
               (VObject copy) c0 key H3 a elems aps m cls args ips3) in Hround.
    - now inversion Hround.
    - now apply String.eqb_neq.
    - destruct (existsb (String.eqb key) (params_of fields)) eqn:E; [|reflexivity].
      apply existsb_eqb_In in E. contradiction.
    - exact Hkm.
    - exact Hkb.
    - exact Hkx.
    - unfold get_prop. simpl.
      rewrite (get_in_derived H3 copy cfg ps2 key Hcopy3 Hlt), Hcopykey.
      rewrite (get_in_own H3 cfg (OPlain ps)); [|exact Hcfg3|intros q; discriminate].
      simpl. now rewrite Hkey.
    - exact Ha3.
    - eapply Forall_impl; [exact Hel|]. intros v Hv. eapply unresolved_kept; eauto.
    - exact Hc3. }
  assert (Hc0lt : c0 < length H3) by (rewrite HlenH2 in HlenH3; lia).
  assert (HlenH4 : length H4 = S s).
  { rewrite Hround', length_insert, length_app. simpl. unfold s. lia. }
  assert (Hold4 : forall l, l < s -> l <> c0 -> H4 !! l = H3 !! l).
  { intros l Hl Hne. rewrite Hround'. rewrite list_lookup_insert_ne by congruence.
    now apply lookup_app_old. }
  assert (Hs4 : H4 !! s = Some (OArray [] [])).
  { rewrite Hround'. rewrite list_lookup_insert_ne by (unfold s; lia).
    apply lookup_app_new. }
  assert (Hc4 : H4 !! c0 = Some (OInst cls args (assoc_set key (VObject s) ips3))).
  { rewrite Hround'. apply list_lookup_insert_eq. rewrite length_app. simpl. lia. }
  (* the rounds after [key] *)
  set (T2 := fun l : loc => T1 l \/ l = s).
  set (Q2 := fun ips : props => assoc key ips = Some (VObject s)).
  set (Inv2 := fun H : heap =>
    (forall l, T2 l -> l <> c0 -> H !! l = H4 !! l) /\
    exists ips, H !! c0 = Some (OInst cls args ips) /\ Q2 ips /\
                forall k v, In (k, v) ips -> k <> key -> outside T2 v).
  assert (Hframed2 : framed T2 Inv2).
  { intros H H' (Hfr & ips & Hc' & Hq & Hv) Hsame. split.
    - intros l Hl Hlc. rewrite Hsame by assumption. now apply Hfr.
    - exists ips. split; [|auto]. rewrite Hsame; [assumption|].
      left. right; right; now right. }
  assert (Hax2 : ~ T2 default_axes).
  { intros [E|E]; [now apply Hax1|]. unfold default_axes, s in *. lia. }
  assert (Hout2 : forall v, outside T1 v -> val_ok s v = true -> outside T2 v).
  { intros v Ho Hv j -> [HT| ->]; [now apply (Ho j)|].
    simpl in Hv. apply Nat.ltb_lt in Hv. lia. }
  assert (Hguard2 : guards T2 Inv2 H4).
  { split; [|split].
    - intros l [Hl| ->]; [|lia]. specialize (Hdom3 l Hl). fold s in Hdom3. lia.
    - intros l o v Hl HnT Hv.
      assert (Hls : l < s).
      { apply lookup_lt_Some in Hl. rewrite HlenH4 in Hl.
        destruct (Nat.eq_dec l s) as [->|]; [destruct HnT; now right|lia]. }
      assert (Hlc : l <> c0) by (intros ->; apply HnT; left; right; right; now right).
      rewrite Hold4 in Hl by assumption.
      apply Hout2.
      + eapply Hcl3; eauto. intros HT. apply HnT. now left.
      + destruct Hwf3 as [_ Hb3]. eapply Hb3; eauto.
    - split; [reflexivity|].
      exists (assoc_set key (VObject s) ips3). split; [exact Hc4|]. split.
      + apply assoc_set_same.
      + intros k v Hi Hk. destruct (assoc_set_pairs _ _ _ _ _ Hi) as [[E _]|Hi'];
          [contradiction|].
        apply Hout2; [eauto|]. destruct Hwf3 as [_ Hb3].
        apply (Hb3 c0 _ v Hc3). simpl. apply in_or_app. right.
        apply in_map_iff. now exists (k, v). }
  assert (Hbody2 : forall key', In key' k2 -> safe T2 Inv2 (body key') (fun _ => True)).
  { intros key' Hi.
    apply (root_round_safe T2 H4 Q2 _ fields p (params_of fields)
             cfg copy c0 ps ps2 cls args key key'); try assumption; auto.
    - left. now left.
    - left. right; now left.
    - left. right; right; now right.
    - unfold c0, copy in *. lia.
    - unfold c0, copy in *. lia.
    - rewrite Hold4 by (unfold s, c0, copy in *; lia). exact Hcfg3.
    - rewrite Hold4 by (unfold s, c0, copy in *; lia). exact Hcopy3.
    - intros v Hv. apply Hout2; [now apply Hps2out|].
      destruct (Hps2ok v Hv) as [Hp| ->]; [now apply primitive_ok|].
      simpl. apply Nat.ltb_lt. unfold default_axes, s. lia.
    - intros k v Hi' Hk. apply Hout2; [eapply Hpsout; eauto|].
      apply (val_ok_mono (length h)); [unfold s; lia|]. eapply Hpsok; eauto.
    - intros k x ips Hk Hq. unfold Q2 in *. rewrite assoc_set_other; auto.
    - now apply safe_create. }
  destruct (safe_for_each T2 Inv2 k2 _ Hbody2 H4 (Ret tt) h1 Hguard2 Hloop2)
    as [(_ & _ & Hfr5 & ips5 & Hc5 & Hq5 & _) _].
  exists s, args, ips5. split; [exact Hc5|]. split; [exact Hq5|].
  split; [|split; [|split]].
  - rewrite Hfr5; [exact Hs4|now right|unfold s; lia].
  - unfold s. lia.
  - rewrite Hfr5; [|left; now left|unfold c0, copy in *; lia].
    rewrite Hold4 by (unfold s, c0, copy in *; lia). now rewrite Hcfg3.
  - rewrite Hfr5; [|left; right; right; now left|unfold c0, copy in *; lia].
    rewrite Hold4 by (unfold s, c0, copy in *; lia). now rewrite Ha3.
Qed.

(** An element without a truthy type under [cartesian.axes], a key that has
    no default type: the lookup of the path finds the group of the axis
    descriptors, which has no constructor of its own, and a plain object is
    made for the element.  The call returns that object, unless it raises
    on a property of the element: the element is not dropped. *)
Lemma create_typeless_axis (n : nat) (H H' : heap) (e : loc) (r : outcome value) :
  truthy (get_in H e "type") = false ->
  _create components (S n) (VObject e) (Some "cartesian.axes") VUndefined H = (r, H') ->
  (exists ps, H' !! length H = Some (OPlain ps)) /\
  match r with Ret v => v = VObject (length H) | Err _ => True end.
Proof.
  intros Ht Hrun. cbn [_create] in Hrun. unfold create_body in Hrun.
  cbn [is_object negb] in Hrun.
  rewrite (bind_ret _ _ H H tt) in Hrun by reflexivity.
  rewrite (bind_ret _ _ H H (get_in H e "type")) in Hrun by reflexivity.
  rewrite (bind_ret _ _ H H "cartesian.axes") in Hrun
    by (unfold resolve_path; cbn [path_falsy default String.eqb Ascii.eqb Bool.eqb];
        now rewrite Ht).
  rewrite (bind_ret _ _ H H (Some (MObject (descriptor_fields "cartesian.axes"))))
    in Hrun by reflexivity.
  rewrite (bind_ret _ _ H H tt) in Hrun by reflexivity.
  rewrite (bind_ret _ _ H H []) in Hrun by reflexivity.
  rewrite (bind_ret _ _ H H []) in Hrun by reflexivity.
  cbn [truthy] in Hrun.
  rewrite (bind_ret _ _ H (H ++ [OPlain []]) (VObject (length H))) in Hrun by reflexivity.
  rewrite (bind_ret _ _ (H ++ [OPlain []]) (H ++ [OPlain []])
             (keys_in (H ++ [OPlain []]) e)) in Hrun by reflexivity.
  assert (Hkept : forall r0 H0,
            for_each (keys_in (H ++ [OPlain []]) e)
              (process_key (_create components n) (descriptor_fields "cartesian.axes")
                 "cartesian.axes" [] (VObject e) (VObject (length H)))
              (H ++ [OPlain []]) = (r0, H0) ->
            exists ps, H0 !! length H = Some (OPlain ps)).
  { intros r0 H0 Hloop.
    assert (Hk : types_kept (fun _ => True) (H ++ [OPlain []]) H0).
    { revert Hloop.
      apply (fun Hp : preserves (types_kept (fun _ => True)) _ =>
               Hp (H ++ [OPlain []]) r0 H0).
      apply (kept_for_each_keys (types_kept (fun _ => True)) (fun q => q <> "")
               (types_kept_refl _) (types_kept_trans _)
               (types_kept_alloc _) (types_kept_set _)).
      - intros q s _. unfold dot. destruct q; discriminate.
      - apply (kept_create components (types_kept (fun _ => True)) (fun q => q <> "")
                 (types_kept_refl _) (types_kept_trans _)
                 (types_kept_alloc _) (types_kept_new _ components)
                 (types_kept_set _)
                 (fun v _ => types_kept_default _ v "line" I)
                 (fun v _ => types_kept_default _ v "pie" I)).
        + intros q s _. unfold dot. destruct q; discriminate.
        + auto.
      - discriminate. }
    destruct Hk as (_ & HS & _).
    destruct (HS (length H) (OPlain []) (lookup_app_new H _)) as (o' & Ho' & Hsh).
    destruct o'; try discriminate. eauto. }
  apply bind_inv in Hrun.
  destruct Hrun as [([] & h4 & Hloop & Hret)|(e0 & Hloop & ->)].
  - inversion Hret; subst. split; [eapply Hkept; eauto|reflexivity].
  - split; [eapply Hkept; eauto|exact I].
Qed.

End DroppedElements.
(** C3.  An element of an array under a recognized key whose type is a
    non-empty string that is not registered under that key resolves to
    [undefined]: [_create] returns [undefined] for it and leaves the heap as
    it is (no instance is made, no property is set), and the sequence is
    built from the other elements as if it were not there.  When all the
    elements of the array are such, the round of the loop gives the
    component a new empty array under that key and changes nothing else.
    So, for every root configuration that is the root of a tree and has such
    an array under a recognized key, the instance that [create] returns has
    a new empty array under that key, whatever else the configuration holds;
    and for a cartesian configuration whose [series] are all of unregistered
    kinds [create] does return: a chart whose [series] is a new empty array
    and whose axes, the rest of the tree, are the two default axes.  An
    element without a type is not always dropped: under [cartesian.axes],
    where there is no default type, a plain object is made for it. *)
Theorem unresolved_elements_dropped (components : ctor -> list (string * ctor))
    (n : nat) :
  (forall H path v rest, path <> "" -> unresolved H path v ->
     _create components (S n) v (Some path) VUndefined H = (Ret VUndefined, H) /\
     map_create (_create components (S n)) (v :: rest) path H
       = map_create (_create components (S n)) rest path H) /\
  (forall fields path params options c key H a elems aps m cls args ps,
     String.eqb key "type" = false -> existsb (String.eqb key) params = false ->
     assoc key fields = Some m -> builtin_name key = false ->
     excluded fields key = ret false ->
     get_prop options key H = (Ret (VObject a), H) ->
     H !! a = Some (OArray elems aps) ->
     Forall (unresolved H (dot path key)) elems ->
     H !! c = Some (OInst cls args ps) ->
     process_key (_create components (S n)) fields path params options (VObject c) key H
       = (Ret tt,
          <[c := OInst cls args (assoc_set key (VObject (length H)) ps)]>
            (H ++ [OArray [] []]))) /\
  (forall h h1 cfg a c key p fields cls m elems aps,
     closed h = true ->
     array_tree h cfg key a -> h !! a = Some (OArray elems aps) ->
     chart_type h (VObject cfg) = Ret (VString p) ->
     getMapping p = Ret (Some (MObject fields)) ->
     assoc "constructor" fields = Some (MFunction cls) ->
     key <> "type" -> ~ In key (params_of fields) ->
     assoc key fields = Some m -> builtin_name key = false ->
     excluded fields key = ret false ->
     Forall (unresolved h (dot p key)) elems ->
     create components (S (S n)) (VObject cfg) h = (Ret (VObject c), h1) ->
     exists s args ips,
       h1 !! c = Some (OInst cls args ips) /\ assoc key ips = Some (VObject s) /\
       h1 !! s = Some (OArray [] []) /\ length h < s /\
       h1 !! cfg = h !! cfg /\ h1 !! a = h !! a) /\
  (forall h cfg a elems aps,
     module_loaded h ->
     h !! cfg = Some (OPlain [("type", VString "cartesian"); ("series", VObject a)]) ->
     h !! a = Some (OArray elems aps) ->
     Forall (unresolved h "cartesian.series") elems ->
     exists c s ax locs ps h',
       create components (S (S n)) (VObject cfg) h = (Ret (VObject c), h') /\
       h' !! c = Some (OInst "CartesianChart" [] ps) /\
       assoc "series" ps = Some (VObject s) /\ h' !! s = Some (OArray [] []) /\
       assoc "axes" ps = Some (VObject ax) /\ h' !! ax = Some (OArray locs []) /\
       Forall2 (axis_built h') locs default_axes_spec /\
       (forall l, l < length h -> h' !! l = h !! l)) /\
  (forall H H' e r,
     truthy (get_in H e "type") = false ->
     _create components (S n) (VObject e) (Some "cartesian.axes") VUndefined H = (r, H') ->
     (exists ps, H' !! length H = Some (OPlain ps)) /\
     match r with Ret v => v = VObject (length H) | Err _ => True end).
Proof.
  split; [|split; [|split; [|split]]].
  - intros H path v rest Hp Hv. split.
    + now apply create_unresolved.
    + now apply map_create_drop.
  - intros. eapply process_key_unresolved; eauto.
  - intros. eapply create_drops_unresolved; eauto.
  - intros. eapply create_unresolved_series; eauto.
  - intros. eapply create_typeless_axis; eauto.
Qed.
(** ** What [create] keeps of the heap *)

Lemma all_below_closed (h : heap) : all_below (length h) h -> closed h = true.
Proof.
  intros Hb. unfold closed. apply forallb_forall. intros o Ho.
  apply list_elem_of_In, list_elem_of_lookup in Ho. destruct Ho as [l Hl].
  unfold obj_ok. apply forallb_forall. intros v Hv. eapply Hb; eauto.
Qed.

Section CreateKeeps.

Variable components : ctor -> list (string * ctor).

(** [create] keeps the heap closed: when every reference held in the heap
    is allocated, the module's default axes and the configuration included,
    so it is after the call, whether it returns or raises; no object is
    removed and what the call returns is allocated. *)
Theorem create_keeps_heap_closed (fuel : nat) (options : value) (h h' : heap)
    (r : outcome value) :
  closed h = true -> default_axes < length h ->
  val_ok (length h) options = true ->
  create components fuel options h = (r, h') ->
  closed h' = true /\ length h <= length h' /\
  match r with Ret v => val_ok (length h') v = true | Err _ => True end.
Proof.
  intros Hc Hd Hopt Hrun.
  assert (Hkc : keeps_closed [options] (create components fuel options) (fun v => [v])).
  { unfold create. eapply kc_bind with (post1 := fun v => [v]).
    - unfold object_create. destruct options; try apply kc_throw.
      + apply kc_alloc. intros v [].
      + apply kc_alloc. intros v [<-|[]]. left. now left.
    - intros copy. apply kc_create; [left; now left|right; intros l; discriminate]. }
  destruct (Hkc h r h') as (L & (_ & Hb') & Hr).
  - split; [exact Hd|]. now apply closed_all_below.
  - constructor; [exact Hopt|constructor].
  - exact Hrun.
  - split; [now apply all_below_closed|]. split; [exact L|].
    destruct r as [v|]; [|exact I]. now inversion Hr.
Qed.

(** [create] keeps what the objects of the heap are and their types: every
    object is still there and is what it was (a plain object, an array, an
    instance of its class, an object derived from its prototype); a truthy
    type is never assigned to; a falsy type stays falsy or becomes one of
    the default series types, [line] or [pie].  This holds for every
    configuration and heap, whether the call returns or raises. *)
Theorem create_keeps_types (fuel : nat) (options : value) (h h' : heap)
    (r : outcome value) :
  create components fuel options h = (r, h') ->
  types_kept (fun d => d = "line" \/ d = "pie") h h'.
Proof.
  set (D := fun d : string => d = "line" \/ d = "pie").
  intros Hrun. unfold create in Hrun. apply bind_inv in Hrun.
  destruct Hrun as [(copy & H0 & Hoc & Hrun)|(e & Hoc & _)].
  2:{ unfold object_create in Hoc.
      destruct options; inversion Hoc; subst; apply types_kept_refl. }
  assert (Hcopy : exists o, copy = VObject (length h) /\ H0 = h ++ [o]).
  { unfold object_create in Hoc. destruct options; inversion Hoc; subst; eauto. }
  destruct Hcopy as (o & -> & ->). clear Hoc.
  destruct fuel as [|n].
  { inversion Hrun; subst. apply types_kept_app. }
  cbn [_create] in Hrun. unfold create_body in Hrun. cbn [is_object negb] in Hrun.
  assert (Hhead : forall r1 H1,
            setComponentType (VObject (length h)) None (h ++ [o]) = (r1, H1) ->
            types_kept D h H1).
  { intros r1 H1 Hs.
    assert (Ht : touches (VObject (length h)) (h ++ [o]) H1).
    { revert Hs. apply (preserves_setComponentType (touches (VObject (length h)))).
      - apply touches_refl.
      - apply touches_trans.
      - intros k x h0 r0 h2. apply set_prop_touches. }
    destruct Ht as (Hlen & Hsame & _).
    assert (Hold : forall l, l < length h -> H1 !! l = h !! l).
    { intros l Hl. rewrite Hsame by (intros E; inversion E; lia).
      now apply lookup_app_old. }
    split; [rewrite Hlen, length_app; lia|]. split.
    - intros l ol Hl. exists ol. split; [|reflexivity].
      rewrite Hold; [exact Hl|]. eapply lookup_lt_Some; eauto.
    - intros l Hl.
      assert (E : get_in H1 l "type" = get_in h l "type").
      { apply get_in_prefix. intros j Hj. apply Hold. lia. }
      rewrite E. split; auto. }
  apply bind_inv in Hrun.
  destruct Hrun as [([] & H1 & Hs & Hrun)|(e & Hs & _)]; [|eapply Hhead; eauto].
  eapply types_kept_trans; [eapply Hhead; eauto|]. clear Hhead Hs.
  apply bind_inv in Hrun.
  destruct Hrun as [(t & H1' & Hg & Hrun)|(e & Hg & _)];
    [|inversion Hg; subst; apply types_kept_refl].
  inversion Hg; subst H1'. clear Hg.
  apply bind_inv in Hrun.
  destruct Hrun as [(p & H1' & Hp & Hrun)|(e & Hp & _)].
  2:{ unfold resolve_path in Hp. cbn [path_falsy] in Hp.
      destruct t; inversion Hp; subst; apply types_kept_refl. }
  assert (H1' = H1).
  { unfold resolve_path in Hp. cbn [path_falsy] in Hp. destruct t; now inversion Hp. }
  subst H1'. clear Hp.
  apply bind_inv in Hrun.
  destruct Hrun as [(mapping & H1' & Hl & Hrun)|(e & Hl & _)];
    [|unfold lift in Hl; inversion Hl; subst; apply types_kept_refl].
  unfold lift in Hl. injection Hl as Hmap <-.
  destruct (String.eqb_spec p "") as [->|Hne].
  { vm_compute in Hmap. inversion Hmap; subst mapping. inversion Hrun; subst.
    apply types_kept_refl. }
  revert Hrun.
  apply (fun Hpres : preserves (types_kept D) _ => Hpres H1 r h').
  apply (kept_mapping components (types_kept D) (fun q => q <> "")
           (types_kept_refl _) (types_kept_trans _)
           (types_kept_alloc _) (types_kept_new _ components)
           (types_kept_set _)
           (fun q s _ => ltac:(unfold dot; destruct q; discriminate))
           (_create components n) (VObject (length h)) p VUndefined mapping);
    [|exact Hne|exact Hmap].
  apply (kept_create components (types_kept D) (fun q => q <> "")
           (types_kept_refl _) (types_kept_trans _)
           (types_kept_alloc _) (types_kept_new _ components)
           (types_kept_set _)
           (fun v _ => types_kept_default _ v "line" (or_introl eq_refl))
           (fun v _ => types_kept_default _ v "pie" (or_intror eq_refl))).
  - intros q s _. unfold dot. destruct q; discriminate.
  - auto.
Qed.

End CreateKeeps.

(** * The claims on concrete charts *)

(** C1.  [create({ series: [{}] })] returns a chart, and leaves the caller's
    configuration object as it was, but not the series element nested in it:
    the element, an empty object before the call, has the own property
    [type: "line"] afterwards.  Only the top-level object is behind the
    protective copy. *)
Theorem create_mutates_nested_configuration :
  exists c h',
    create chart_components 4 (VObject 5) untyped_series_heap = (Ret (VObject c), h') /\
    untyped_series_heap !! 3 = Some (OPlain []) /\
    h' !! 3 = Some (OPlain [("type", VString "line")]) /\
    h' !! 5 = untyped_series_heap !! 5.
Proof. eexists; eexists. vm_compute. repeat split. Qed.

(** C2.  A path whose first segment is not in the registry makes [getMapping]
    raise a TypeError at the next segment, where it indexes [undefined]; and
    [create] raises with it, for a root type and for the type of a nested
    element alike. *)
Theorem lookup_raises_on_missing_segment :
  getMapping "unknown.line" = Err TypeError /\
  getMapping "unknown" = Ret None /\
  fst (create chart_components 4 (VObject 3) dotted_type_heap) = Err TypeError /\
  fst (create chart_components 4 (VObject 5) dotted_series_heap) = Err TypeError.
Proof. vm_compute. repeat split. Qed.

(** C4, as stated, fails on a polar chart: the configuration
    [{ legend: {} }] has no type, the type inferred for it is [cartesian],
    the chart is no CartesianChart, and [update] returns before the legend
    loop.  The legend keeps position "right" where the claim makes it the
    default of the table. *)
Lemma update_legend_overwrite_counterexample :
  exists h',
    update same_class sample_legend_defaults (VObject 4) (VObject 6)
      (chart_heap "PolarChart") = (Ret tt, h') /\
    In "position" (map fst sample_legend_defaults) /\
    get_in h' 3 "position" = VString "right" /\
    get_in h' 3 "position" <>
      (if has_in (chart_heap "PolarChart") 5 "position"
       then get_in (chart_heap "PolarChart") 5 "position"
       else default VUndefined (assoc "position" sample_legend_defaults)).
Proof.
  eexists. vm_compute. repeat split; try discriminate. right. left. reflexivity.
Qed.

Lemma update_legend_full_overwrite_witness :
  let h := chart_heap "CartesianChart" in
  closed h = true /\
  h !! 6 = Some (OPlain [("legend", VObject 5)]) /\
  h !! 4 = Some (OInst "CartesianChart" []
                   [("legend", VObject 3); ("title", VString "Sales")]) /\
  3 <> 4 /\
  h !! 3 = Some (OInst "Legend" [] [("position", VString "right")]) /\
  chart_type h (VObject 6) = Ret (VString "cartesian") /\
  exists h',
    update same_class sample_legend_defaults (VObject 4) (VObject 6) h = (Ret tt, h') /\
    (forall key, In key (map fst sample_legend_defaults) ->
       get_in h' 3 key =
         if has_in h 5 key then get_in h 5 key
         else default VUndefined (assoc key sample_legend_defaults)) /\
    (forall j, j < length h -> j <> 3 -> h' !! j = h !! j).
Proof.
  intros h. repeat split; try reflexivity; try discriminate.
  apply (update_legend_full_overwrite same_class sample_legend_defaults h 4 3 6 5
           "CartesianChart" "Legend" [] []
           [("legend", VObject 3); ("title", VString "Sales")]
           [("position", VString "right")] [("legend", VObject 5)] "cartesian");
    try reflexivity; try discriminate.
  right. exists (descriptor_fields "cartesian"). split; reflexivity.
Defined.

Lemma update_kind_mismatch_noop_witness :
  let h := chart_heap "PolarChart" in
  closed h = true /\ 6 < length h /\ val_ok (length h) (VObject 4) = true /\
  chart_type h (VObject 6) = Ret (VString "cartesian") /\
  getMapping "cartesian" = Ret (Some (MObject (descriptor_fields "cartesian"))) /\
  instanceof same_class (VObject 4) (descriptor_fields "cartesian") h = (Ret false, h) /\
  exists ps,
    update same_class sample_legend_defaults (VObject 4) (VObject 6) h
      = (Ret tt, h ++ [ODerived 6 ps]).
Proof.
  intros h. repeat split; try reflexivity; try (cbv; lia).
  apply (update_kind_mismatch_noop same_class sample_legend_defaults h (VObject 4) 6
           "cartesian" (descriptor_fields "cartesian"));
    try reflexivity; cbv; lia.
Defined.




Lemma update_touches_only_legend_witness :
  let h := chart_heap "CartesianChart" in
  h !! 4 = Some (OInst "CartesianChart" []
                   [("legend", VObject 3); ("title", VString "Sales")]) /\
  4 < length h /\
  snd (update same_class sample_legend_defaults (VObject 4) (VObject 6) h) !! 4
    = h !! 4.
Proof.
  intros h. split; [reflexivity|]. split; [cbv; lia|].
  apply (update_touches_only_legend same_class sample_legend_defaults h 4
           "CartesianChart" [] [("legend", VObject 3); ("title", VString "Sales")]
           (VObject 6)
           (fst (update same_class sample_legend_defaults (VObject 4) (VObject 6) h)));
    try reflexivity; try discriminate; cbv; lia.
Defined.

Lemma update_unresolved_type_overwrites_legend_witness :
  let h := radar_heap in
  closed h = true /\
  h !! 6 = Some (OPlain [("type", VString "radar"); ("legend", VObject 5)]) /\
  h !! 4 = Some (OInst "PolarChart" [] [("legend", VObject 3)]) /\
  h !! 3 = Some (OInst "Legend" [] [("position", VString "right")]) /\
  chart_type h (VObject 6) = Ret (VString "radar") /\
  getMapping "radar" = Ret None /\
  exists h',
    update same_class sample_legend_defaults (VObject 4) (VObject 6) h = (Ret tt, h') /\
    (forall key, In key (map fst sample_legend_defaults) ->
       get_in h' 3 key =
         if has_in h 5 key then get_in h 5 key
         else default VUndefined (assoc key sample_legend_defaults)).
Proof.
  intros h. repeat split; try reflexivity.
  apply (update_unresolved_type_overwrites_legend same_class sample_legend_defaults
           h 4 3 6 5 "PolarChart" "Legend" [] [] [("legend", VObject 3)]
           [("position", VString "right")]
           [("type", VString "radar"); ("legend", VObject 5)] "radar");
    try reflexivity; discriminate.
Defined.

(** C3, as stated, fails for an element without a type under a key that
    has no default type: [{ type: 'cartesian', axes: [{}] }].  The path of
    the element stays [cartesian.axes], whose lookup finds the group of the
    axis descriptors; the group has no constructor of its own, so
    [new mapping.constructor()] makes a plain object, and the chart's
    [axes] holds it: the element is not dropped.  And an element whose type
    has a dot after an unregistered segment makes [create] raise. *)
Lemma unresolved_axis_built_counterexample :
  let h := typeless_axis_heap in
  let run := create chart_components 3 (VObject 5) h in
  h !! 5 = Some (OPlain [("type", VString "cartesian"); ("axes", VObject 4)]) /\
  h !! 4 = Some (OArray [VObject 3] []) /\
  h !! 3 = Some (OPlain []) /\
  (exists group,
     getMapping "cartesian.axes" = Ret (Some (MObject group)) /\
     assoc "constructor" group = None) /\
  fst run = Ret (VObject 8) /\
  snd run !! 8 = Some (OInst "CartesianChart" []
                         [("legend", VObject 7); ("axes", VObject 10)]) /\
  snd run !! 10 = Some (OArray [VObject 9] []) /\
  snd run !! 9 = Some (OPlain []) /\
  length h = 6 /\
  fst (create chart_components 4 (VObject 5) dotted_series_heap) = Err TypeError.
Proof.
  intros h run. repeat split; try reflexivity.
  eexists. split; reflexivity.
Qed.

Lemma array_tree_unknown_series : array_tree unknown_series_heap 5 "series" 4.
Proof.
  split; [discriminate|]. split; [discriminate|]. split; [|split].
  - intros l o Hl Hin.
    do 6 (destruct l as [|l];
          [inversion Hl; subst o; simpl in Hin; intuition discriminate|]).
    discriminate.
  - intros l o Hl Hin.
    do 6 (destruct l as [|l];
          [inversion Hl; subst o; simpl in Hin;
           first [reflexivity | intuition discriminate]|]).
    discriminate.
  - exists [("type", VString "cartesian"); ("series", VObject 4)].
    split; [reflexivity|]. split; [reflexivity|].
    intros k v [E|[E|[]]] Hv; inversion E; subst; [discriminate|reflexivity].
Defined.

Lemma unresolved_elements_dropped_witness :
  let h := unknown_series_heap in
  module_loaded h /\ closed h = true /\ array_tree h 5 "series" 4 /\
  Forall (unresolved h "cartesian.series") [VObject 3] /\
  exists c s ps h',
    create chart_components 3 (VObject 5) h = (Ret (VObject c), h') /\
    h' !! c = Some (OInst "CartesianChart" [] ps) /\
    assoc "series" ps = Some (VObject s) /\ h' !! s = Some (OArray [] []) /\
    (exists ax locs,
       assoc "axes" ps = Some (VObject ax) /\ h' !! ax = Some (OArray locs []) /\
       Forall2 (axis_built h') locs default_axes_spec) /\
    (forall l, l < length h -> h' !! l = h !! l) /\
    (exists s' args ips,
       h' !! c = Some (OInst "CartesianChart" args ips) /\
       assoc "series" ips = Some (VObject s') /\
       h' !! s' = Some (OArray [] []) /\ length h < s' /\
       h' !! 5 = h !! 5 /\ h' !! 4 = h !! 4).
Proof.
  intros h.
  assert (Hm : module_loaded h) by (repeat split; reflexivity).
  assert (Hu : Forall (unresolved h "cartesian.series") [VObject 3]).
  { constructor; [|constructor]. exists 3, "unknownKind".
    split; [reflexivity|]. split; [reflexivity|]. split; [discriminate|reflexivity]. }
  split; [exact Hm|]. split; [reflexivity|].
  split; [exact array_tree_unknown_series|]. split; [exact Hu|].
  destruct (unresolved_elements_dropped chart_components 1)
    as (_ & _ & Htree & Hfamily & _).
  destruct (Hfamily h 5 4 [VObject 3] [] Hm eq_refl eq_refl Hu)
    as (c & s & ax & locs & ps & h' & Hrun & Hc & Hs & Hs' & Hax & Hax' & Hbuilt & Hold).
  exists c, s, ps, h'. split; [exact Hrun|]. split; [exact Hc|].
  split; [exact Hs|]. split; [exact Hs'|]. split; [now exists ax, locs|].
  split; [exact Hold|].
  apply (Htree h h' 5 4 c "series" "cartesian" (descriptor_fields "cartesian")
           "CartesianChart" (MObject (descriptor_fields "cartesian.series"))
           [VObject 3] []); try reflexivity; try assumption.
  - exact array_tree_unknown_series.
  - discriminate.
  - intros [E|[]]. discriminate.
Defined.

Lemma defaults_fill_never_override_witness :
  module_loaded bare_cartesian_heap /\
  Forall2 (axis_config single_axis_heap) [VObject 3] [("NumberAxis", VString "bottom")] /\
  (exists h',
     setComponentDefaults (VObject 3) (descriptor_fields "cartesian")
       bare_cartesian_heap = (Ret tt, h') /\
     get_in h' 3 "axes" = VObject default_axes /\
     get_in h' 3 "type" = VString "cartesian") /\
  closed untyped_series_heap = true /\
  chart_type untyped_series_heap (VObject 5) = Ret (VString "cartesian") /\
  truthy (get_in untyped_series_heap 5 "axes") = false /\
  create chart_components 3 (VObject 5) untyped_series_heap = untyped_series_chart /\
  (exists c args ps ax locs,
     fst untyped_series_chart = Ret (VObject c) /\
     snd untyped_series_chart !! c = Some (OInst "CartesianChart" args ps) /\
     assoc "axes" ps = Some (VObject ax) /\
     snd untyped_series_chart !! ax = Some (OArray locs []) /\
     Forall2 (axis_built (snd untyped_series_chart)) locs default_axes_spec) /\
  (exists c ax locs ps h',
     create chart_components 2 (VObject 3) bare_cartesian_heap = (Ret (VObject c), h') /\
     h' !! c = Some (OInst "CartesianChart" [] ps) /\
     assoc "axes" ps = Some (VObject ax) /\ h' !! ax = Some (OArray locs []) /\
     Forall2 (axis_built h') locs default_axes_spec) /\
  (exists c ax locs ps h',
     create chart_components 2 (VObject 5) single_axis_heap = (Ret (VObject c), h') /\
     h' !! c = Some (OInst "CartesianChart" [] ps) /\
     assoc "axes" ps = Some (VObject ax) /\ h' !! ax = Some (OArray locs []) /\
     Forall2 (axis_built h') locs [("NumberAxis", VString "bottom")]).
Proof.
  assert (Hm : module_loaded bare_cartesian_heap) by (repeat split; reflexivity).
  assert (Hax : Forall2 (axis_config single_axis_heap) [VObject 3]
                  [("NumberAxis", VString "bottom")]).
  { constructor; [|constructor]. exists 3, "number".
    split; [reflexivity|]. split; [reflexivity|]. right. split; reflexivity. }
  destruct (defaults_fill_never_override chart_components 0)
    as (Hmerge & _ & Hnone & Hsome).
  destruct (defaults_fill_never_override chart_components 1) as (_ & Hany & _).
  assert (Hm' : module_loaded untyped_series_heap) by (repeat split; reflexivity).
  assert (Hlt : 5 < length untyped_series_heap) by (vm_compute; lia).
  assert (Hrun' : create chart_components 3 (VObject 5) untyped_series_heap
                  = untyped_series_chart) by (vm_compute; reflexivity).
  split; [exact Hm|]. split; [exact Hax|]. split.
  { destruct (Hmerge bare_cartesian_heap 3 (OPlain [("type", VString "cartesian")])
                (descriptor_fields "cartesian") [("axes", VObject default_axes)]
                eq_refl eq_refl eq_refl) as (h' & Hrun & Hget & _).
    exists h'. split; [exact Hrun|]. rewrite !Hget. split; reflexivity. }
  split; [reflexivity|]. split; [reflexivity|]. split; [reflexivity|].
  split; [exact Hrun'|]. split; [|split].
  - destruct (Hany untyped_series_heap (snd untyped_series_chart) 5 8
                eq_refl Hm' Hlt eq_refl eq_refl Hrun')
      as (args & ps & ax & locs & Hc & Hps & Harr & Hbuilt).
    exists 8, args, ps, ax, locs. auto.
  - destruct (Hnone bare_cartesian_heap 3 Hm eq_refl)
      as (c & ax & locs & ps & h' & Hrun & Hc & Hps & Harr & Hbuilt & _).
    exists c, ax, locs, ps, h'. auto.
  - destruct (Hsome single_axis_heap 5 4 [VObject 3] []
                [("NumberAxis", VString "bottom")] eq_refl eq_refl Hax)
      as (c & ax & locs & ps & h' & Hrun & Hc & Hps & Harr & Hbuilt & _).
    exists c, ax, locs, ps, h'. auto.
Defined.

Lemma constructor_params_consumed_witness :
  let h := document_heap in
  closed h = true /\ 3 < length h /\
  chart_type h (VObject 3) = Ret (VString "polar") /\
  getMapping "polar" = Ret (Some (MObject (descriptor_fields "polar"))) /\
  create chart_components 2 (VObject 3) h = document_chart /\
  exists c o,
    fst document_chart = Ret (VObject c) /\
    snd document_chart !! c = Some o /\
    shape_of o = SInst "PolarChart" [VHost "document"] /\
    assoc "document" (own_props o) = None.
Proof.
  intros h.
  assert (Hlt : 3 < length h) by (vm_compute; lia).
  split; [reflexivity|]. split; [exact Hlt|]. split; [reflexivity|].
  split; [reflexivity|]. split; [vm_compute; reflexivity|].
  destruct (constructor_params_consumed chart_components 2 h (snd document_chart) 3 6
              "polar" (descriptor_fields "polar") eq_refl Hlt eq_refl eq_refl)
    as (o & Ho & Hshape & Hnone).
  - vm_compute. reflexivity.
  - exists 6, o. split; [reflexivity|]. split; [exact Ho|]. split; [exact Hshape|].
    apply Hnone; [left; reflexivity|].
    vm_compute. intros [H|[]]. discriminate H.
Defined.

(** * The further properties on concrete configurations *)

Lemma getMapping_below_missing_witness :
  getMapping "unknown" = Ret None /\
  getMapping (dot "unknown" "line") = Err TypeError.
Proof.
  split; [reflexivity|]. apply (getMapping_below_missing "unknown" "line"). reflexivity.
Defined.

Lemma getMapping_field_witness :
  getMapping "cartesian.series"
    = Ret (Some (MObject (descriptor_fields "cartesian.series"))) /\
  getMapping (dot "cartesian.series" "line")
    = Ret (assoc "line" (descriptor_fields "cartesian.series")) /\
  getMapping (dot "cartesian.series" "radar") = Ret None.
Proof.
  split; [reflexivity|]. split.
  - apply (getMapping_field "cartesian.series" "line"); reflexivity.
  - apply (getMapping_field "cartesian.series" "radar"
             (descriptor_fields "cartesian.series")); reflexivity.
Defined.

Lemma setComponentType_assigns_only_type_witness :
  let h := untyped_series_heap in
  let run := setComponentType (VObject 3) (Some "cartesian.series") h in
  run = (Ret tt, snd run) /\
  touches (VObject 3) h (snd run) /\
  (forall k, k <> "type" -> read (snd run) (VObject 3) k = read h (VObject 3) k) /\
  read (snd run) (VObject 3) "type" = Ret (VString "line").
Proof.
  intros h run.
  assert (Hrun : run = (Ret tt, snd run)) by reflexivity.
  destruct (setComponentType_assigns_only_type (VObject 3) (Some "cartesian.series")
              h (snd run) (Ret tt) Hrun) as (Ht & Hk & _).
  split; [exact Hrun|]. split; [exact Ht|]. split; [exact Hk|reflexivity].
Defined.

Lemma setComponentType_idempotent_witness :
  let h := untyped_series_heap in
  let h1 := snd (setComponentType (VObject 5) None h) in
  setComponentType (VObject 5) None h = (Ret tt, h1) /\
  h1 <> h /\
  setComponentType (VObject 5) None h1 = (Ret tt, h1).
Proof.
  intros h h1.
  assert (Hrun : setComponentType (VObject 5) None h = (Ret tt, h1)) by reflexivity.
  split; [exact Hrun|]. split; [discriminate|].
  exact (setComponentType_idempotent (VObject 5) None h h1 Hrun).
Defined.

Lemma setComponentDefaults_idempotent_witness :
  exists h1,
    setComponentDefaults (VObject 3) (descriptor_fields "cartesian") bare_cartesian_heap
      = (Ret tt, h1) /\
    setComponentDefaults (VObject 3) (descriptor_fields "cartesian") h1 = (Ret tt, h1).
Proof.
  apply (setComponentDefaults_idempotent bare_cartesian_heap 3
           (OPlain [("type", VString "cartesian")]) (descriptor_fields "cartesian")
           [("axes", VObject default_axes)]); reflexivity.
Defined.

Lemma create_unregistered_type_witness :
  closed radar_heap = true /\
  chart_type radar_heap (VObject 6) = Ret (VString "radar") /\
  getMapping "radar" = Ret None /\
  exists ps,
    create chart_components 1 (VObject 6) radar_heap
      = (Ret VUndefined, radar_heap ++ [ODerived 6 ps]).
Proof.
  assert (Hlt : 6 < length radar_heap) by (vm_compute; lia).
  split; [reflexivity|]. split; [reflexivity|]. split; [reflexivity|].
  apply (create_unregistered_type chart_components 0 radar_heap 6 "radar");
    try reflexivity. exact Hlt.
Defined.

Lemma create_returns_new_or_given_witness :
  let h := bare_cartesian_heap in
  let run := _create chart_components 2 (VObject 3) None VUndefined h in
  run = (Ret (VObject 5), snd run) /\
  exists c, VObject 5 = VObject c /\ length h <= c.
Proof.
  intros h run.
  assert (Hrun : run = (Ret (VObject 5), snd run)) by (vm_compute; reflexivity).
  split; [exact Hrun|].
  destruct (create_returns_new_or_given chart_components 2 (VObject 3) None VUndefined
              (VObject 5) h (snd run) Hrun) as [E|[[E _]|Hnew]];
    [discriminate E|discriminate E|exact Hnew].
Defined.

Lemma create_leaves_unreachable_witness :
  let h := bystander_heap in
  let run := create chart_components 2 (VObject 3) h in
  fst run = Ret (VObject 7) /\ snd run !! 4 = h !! 4.
Proof.
  intros h run. split; [vm_compute; reflexivity|].
  apply (create_leaves_unreachable chart_components (fun l => l = 4) 2 (VObject 3)
           h (snd run) (fst run)).
  - intros l ->. vm_compute. lia.
  - intros l o v Hl HT Hin j -> ->.
    do 4 (destruct l as [|l];
          [vm_compute in Hl; inversion Hl; subst o; simpl in Hin;
           repeat (destruct Hin as [Hin|Hin]; [discriminate Hin|]); destruct Hin|]).
    destruct l as [|l]; [now apply HT|]. vm_compute in Hl. discriminate Hl.
  - intros j E ->. discriminate E.
  - unfold default_axes. discriminate.
  - vm_compute. reflexivity.
  - reflexivity.
Defined.

Lemma create_keeps_configuration_witness :
  let h := untyped_series_heap in
  let run := create chart_components 4 (VObject 5) h in
  fst run = Ret (VObject 8) /\
  snd run !! 3 <> h !! 3 /\
  snd run !! 5 = h !! 5.
Proof.
  intros h run. split; [vm_compute; reflexivity|]. split; [vm_compute; discriminate|].
  apply (create_keeps_configuration chart_components 4 h (snd run) 5 (fst run)).
  - reflexivity.
  - vm_compute. lia.
  - discriminate.
  - intros l o Hl Hin.
    do 6 (destruct l as [|l];
          [vm_compute in Hl; inversion Hl; subst o; simpl in Hin;
           repeat (destruct Hin as [Hin|Hin]; [discriminate Hin|]); destruct Hin|]).
    vm_compute in Hl. discriminate Hl.
  - vm_compute. reflexivity.
Defined.

Lemma update_without_legend_witness :
  let h := bystander_heap in
  let run := update same_class sample_legend_defaults (VObject 4) (VObject 3) h in
  exists ps, snd run = h ++ [ODerived 3 ps].
Proof.
  intros h run.
  apply (update_without_legend same_class sample_legend_defaults h (snd run)
           (VObject 4) 3 (fst run)).
  - vm_compute. lia.
  - reflexivity.
  - vm_compute. reflexivity.
Defined.

Lemma update_primitive_legend_raises_witness :
  exists ps,
    update same_class sample_legend_defaults (VObject 3) (VObject 4) flag_legend_heap
      = (Err TypeError, flag_legend_heap ++ [ODerived 4 ps]).
Proof.
  apply (update_primitive_legend_raises same_class sample_legend_defaults
           flag_legend_heap (VObject 3) (VBoolean true) 4 "radar");
    try reflexivity; try discriminate.
  - vm_compute. lia.
  - left. reflexivity.
Defined.

Lemma configure_existing_legend_witness :
  exists cps',
    _create chart_components 1 (VObject 5) (Some "cartesian.legend") (VObject 3)
      radar_heap
    = (Ret (VObject 3), <[3 := OInst "Legend" [] cps']> radar_heap) /\
    assoc "position" cps' = Some (VString "left").
Proof.
  destruct (configure_existing_legend chart_components 0 radar_heap 5 3
              [("position", VString "left")] [("position", VString "right")]
              "Legend" [] "cartesian.legend")
    as (cps' & Hrun & Hin & _); try reflexivity; try discriminate.
  - now left.
  - exists cps'. split; [exact Hrun|]. apply (Hin "position"). now left.
Defined.

Lemma create_empty_configuration_witness :
  exists c ax locs ps h',
    create chart_components 2 (VObject 3) untyped_series_heap = (Ret (VObject c), h') /\
    h' !! c = Some (OInst "CartesianChart" [] ps) /\
    assoc "axes" ps = Some (VObject ax) /\ h' !! ax = Some (OArray locs []) /\
    Forall2 (axis_built h') locs default_axes_spec.
Proof.
  destruct (create_empty_configuration chart_components 0 untyped_series_heap 3)
    as (c & ax & locs & ps & h' & Hrun & Hc & Hps & Harr & Hbuilt & _).
  - repeat split; reflexivity.
  - reflexivity.
  - exists c, ax, locs, ps, h'. auto.
Defined.

Lemma create_keeps_heap_closed_witness :
  let h := untyped_series_heap in
  let run := create chart_components 3 (VObject 5) h in
  closed h = true /\ default_axes < length h /\ val_ok (length h) (VObject 5) = true /\
  fst run = Ret (VObject 8) /\
  closed (snd run) = true /\ length h <= length (snd run) /\
  val_ok (length (snd run)) (VObject 8) = true.
Proof.
  intros h run.
  assert (Hrun : create chart_components 3 (VObject 5) h = (fst run, snd run))
    by (unfold run; now destruct (create chart_components 3 (VObject 5) h)).
  destruct (create_keeps_heap_closed chart_components 3 (VObject 5) h (snd run) (fst run)
              eq_refl ltac:(cbv; lia) eq_refl Hrun) as (Hc & Hl & Hr).
  split; [reflexivity|]. split; [cbv; lia|]. split; [reflexivity|].
  split; [reflexivity|]. split; [exact Hc|]. split; [exact Hl|exact Hr].
Defined.

Lemma create_keeps_types_witness :
  let h := untyped_series_heap in
  let run := create chart_components 3 (VObject 5) h in
  get_in h 3 "type" = VUndefined /\
  get_in (snd run) 3 "type" = VString "line" /\
  get_in h 1 "type" = VString "category" /\
  types_kept (fun d => d = "line" \/ d = "pie") h (snd run).
Proof.
  intros h run. split; [reflexivity|]. split; [reflexivity|]. split; [reflexivity|].
  apply (create_keeps_types chart_components 3 (VObject 5) h (snd run) (fst run)).
  unfold run. now destruct (create chart_components 3 (VObject 5) h).
Defined.
